(** * Bayesian hidden Markov model sampler (bhmm): a model of
      [bhmm/bhmm_class.py], [bhmm/init/api.py] and [bhmm/testsystems.py]

    The Gibbs sampler [BHMM], the forward-filtering backward-sampling
    routine and the generators of test systems are embedded as Rocq
    functions.  Python floats are IEEE binary64 numbers, rendered by Rocq's
    primitive floats; Python objects that the sampler mutates in place live
    in a store, and numpy's global random generator is part of the world.
    Library code the sampler calls (numpy, scipy, the output model, the
    reversible transition matrix sampler) is an interface, [Externals].  The
    messages printed under [verbose] and the clock readings of [_update] are
    left out: nothing the sampler computes depends on them. *)

From Stdlib Require Import ZArith String Floats.
From stdpp Require Import base decidable option list gmap.

Local Open Scope Z_scope.
#[local] Set Warnings "-clear-no-such-hyp".

(** ** Exceptions and fallible computations *)

(** The exceptions the modelled code and the libraries under it raise. *)
Inductive exn : Type :=
| IndexError
| ValueError
| AttributeError
| TypeError
| NotImplementedError (msg : string)
| Exception (msg : string).

(** A call either raises or returns. *)
Definition result (A : Type) : Type := (exn + A)%type.

Abbreviation Ok a := (inr a) (only parsing).
Abbreviation Raise e := (inl e) (only parsing).

Definition rbind {A B : Type} (m : result A) (k : A -> result B) : result B :=
  match m with
  | inl e => inl e
  | inr a => k a
  end.

Notation "x <~ m ;; k" := (rbind m (fun x => k))
  (at level 100, m at next level, right associativity,
   format "'[v' x  <~  m  ;;  '/' k ']'").

(** [for x in xs: s = body x s], stopping at the first exception. *)
Fixpoint rfor {A S : Type} (xs : list A) (body : A -> S -> result S) (s : S)
  : result S :=
  match xs with
  | [] => Ok s
  | x :: xs' => s' <~ body x s ;; rfor xs' body s'
  end.

(** [[f x for x in xs]] for a fallible [f]. *)
Fixpoint rmap {A B : Type} (f : A -> result B) (xs : list A) : result (list B) :=
  match xs with
  | [] => Ok []
  | x :: xs' => y <~ f x ;; ys <~ rmap f xs' ;; Ok (y :: ys)
  end.

(** ** Python and numpy primitives *)

(** [range(start, stop)]: empty when [stop <= start]. *)
Definition range (start stop : Z) : list Z :=
  map (fun k => start + Z.of_nat k) (seq 0 (Z.to_nat (stop - start))).

(** [range(start, stop, -1)]: [start, start-1, ..., stop+1]. *)
Definition range_down (start stop : Z) : list Z :=
  map (fun k => start - Z.of_nat k) (seq 0 (Z.to_nat (start - stop))).

(** Index normalisation of a sequence of length [len]: a negative index counts
    from the end, anything outside [-len, len) is an [IndexError]. *)
Definition np_index (len : nat) (i : Z) : result nat :=
  if 0 <=? i then
    if i <? Z.of_nat len then Ok (Z.to_nat i) else Raise IndexError
  else
    if 0 <=? i + Z.of_nat len then Ok (Z.to_nat (i + Z.of_nat len))
    else Raise IndexError.

(** [a[i]] *)
Definition getitem {A : Type} (a : list A) (i : Z) : result A :=
  k <~ np_index (length a) i ;;
  match a !! k with
  | Some x => Ok x
  | None => Raise IndexError
  end.

(** [a[i] = v] *)
Definition setitem {A : Type} (a : list A) (i : Z) (v : A) : result (list A) :=
  k <~ np_index (length a) i ;;
  Ok (<[k := v]> a).

(** A two-dimensional array is the list of its rows. *)
Abbreviation matrix := (list (list float)).

(** [np.zeros([n, T], np.float64)] *)
Definition np_zeros2 (n T : nat) : matrix := replicate n (replicate T 0%float).

(** [a[:, t]].  An array without rows keeps no column count here: each of
    its columns is the empty array. *)
Definition getcol (a : matrix) (t : Z) : result (list float) :=
  rmap (fun row => getitem row t) a.

(** [a[i, t] = v] *)
Definition setitem2 (a : matrix) (i t : Z) (v : float) : result matrix :=
  row <~ getitem a i ;;
  row' <~ setitem row t v ;;
  setitem a i row'.

(** [a + b] on one-dimensional arrays, with numpy's broadcasting of a
    one-element operand; other shape mismatches raise [ValueError]. *)
Definition np_add (a b : list float) : result (list float) :=
  if decide (length a = length b) then Ok (zip_with PrimFloat.add a b)
  else
    match a, b with
    | [x], _ => Ok (map (fun y => (x + y)%float) b)
    | _, [y] => Ok (map (fun x => (x + y)%float) a)
    | _, _ => Raise ValueError
    end.

(** Assignment into an [np.int32] array keeps the low 32 bits, read as a
    signed number. *)
Definition astype_int32 (k : Z) : Z := (k + 2 ^ 31) mod 2 ^ 32 - 2 ^ 31.

(** ** Library code under the sampler *)

(** What the sampler calls and does not define: numpy's [exp] and [log],
    scipy's [logsumexp], numpy's global random generator with its categorical
    draw, the output (emission) model and the reversible transition matrix
    sampler.  Every function that draws takes the generator's state and
    returns the advanced one. *)
Class Externals : Type := {
  (** the state of the generator behind [np.random] *)
  RandomState : Type;
  (** the parameters an output model object holds *)
  OutputModel : Type;
  np_exp : float -> float;
  np_log : float -> float;
  (** [scipy.misc.logsumexp] on a non-empty one-dimensional array *)
  logsumexp : list float -> float;
  (** [np.random.choice(range(n), size=1, p=p)] *)
  random_choice : nat -> list float -> RandomState -> result nat * RandomState;
  (** the output model's log-probability of one observation under one state *)
  output_log_emission : OutputModel -> Z -> float -> result float;
  (** [output_model.sample(observations_by_state)]: new parameters *)
  output_model_sample :
    list (list float) -> OutputModel -> RandomState -> result OutputModel * RandomState;
  (** [TransitionMatrixSamplerRev(C).sample(nsteps)] *)
  TransitionMatrixSamplerRev_sample :
    list (list nat) -> Z -> RandomState -> result matrix * RandomState
}.

(** References to objects in the store. *)
Abbreviation loc := positive.

(** The state of an attribute that only ever gets bound to [None]: not there,
    or [None]. *)
Inductive none_attr : Type :=
| Missing
| BoundNone.

(** The [HMM] object the sampler holds in [self.model], by the attributes
    the sampler reads and writes.  The output model and the list of
    trajectories are objects of their own, held by reference;
    [hidden_state_trajectories] is [None] or a list.  The arrays are values:
    the sampler rebinds array attributes and never writes into an array it
    has stored.  The last attribute is the one line 147 of [sample] binds. *)
Module HMM.
Record t : Type := mk {
  nstates : nat;
  Tij : matrix;
  logPi : list float;
  logTij : matrix;
  output_model : loc;
  hidden_state_trajectories : option loc;
  hidden_state_trajectory : none_attr
}.
End HMM.

(** The [BHMM] sampler object: [sample] and the updates read its attributes
    and never rebind them. *)
Record BHMM : Type := {
  verbose : bool;
  reversible : bool;
  nstates : nat;
  observations : list (list float);
  ntrajectories : nat;
  model : loc;
  transition_matrix_sampling_steps : Z
}.

(** [logsumexp] of an empty array fails in the maximum it starts with. *)
Definition scipy_logsumexp `{Externals} (a : list float) : result float :=
  match a with
  | [] => Raise ValueError
  | _ => Ok (logsumexp a)
  end.

(** [np.exp(log_p_i - lse)] *)
Definition normalized `{Externals} (log_p_i : list float) (lse : float) : list float :=
  map (fun x => np_exp (x - lse)%float) log_p_i.

(** ** The store and the sampler's computations *)

Section Sampler.
Context `{Externals}.

(** The objects the sampler reaches: [HMM] objects, output model objects and
    Python lists of state trajectories. *)
Inductive obj : Type :=
| HMMObj (m : HMM.t)
| OutputObj (theta : OutputModel)
| ListObj (l : list (list Z)).

(** The mutable world: the store, and the state of numpy's global random
    generator. *)
Record world : Type := World {
  heap : gmap loc obj;
  np_random : RandomState
}.

(** A computation reads and writes the world and returns or raises; an
    exception leaves the world as it was when it was raised. *)
Definition M (A : Type) : Type := world -> result A * world.

Definition ret {A : Type} (a : A) : M A := fun w => (Ok a, w).

Definition raise {A : Type} (e : exn) : M A := fun w => (Raise e, w).

Definition bind {A B : Type} (m : M A) (k : A -> M B) : M B :=
  fun w =>
    match m w with
    | (inl e, w') => (inl e, w')
    | (inr a, w') => k a w'
    end.

Definition lift {A : Type} (r : result A) : M A := fun w => (r, w).

(** A call that draws from the global generator. *)
Definition with_np_random {A : Type}
  (f : RandomState -> result A * RandomState) : M A :=
  fun w =>
    let '(r, g) := f (np_random w) in
    (r, World (heap w) g).

Definition alloc (o : obj) : M loc :=
  fun w =>
    let l := fresh (dom (heap w)) in
    (Ok l, World (<[l := o]> (heap w)) (np_random w)).

Definition store (l : loc) (o : obj) : M unit :=
  fun w => (Ok tt, World (<[l := o]> (heap w)) (np_random w)).

Definition deref_HMM (l : loc) : M HMM.t :=
  fun w =>
    match heap w !! l with
    | Some (HMMObj m) => (Ok m, w)
    | _ => (Raise AttributeError, w)
    end.

Definition deref_output (l : loc) : M OutputModel :=
  fun w =>
    match heap w !! l with
    | Some (OutputObj theta) => (Ok theta, w)
    | _ => (Raise AttributeError, w)
    end.

Definition deref_list (l : loc) : M (list (list Z)) :=
  fun w =>
    match heap w !! l with
    | Some (ListObj ts) => (Ok ts, w)
    | _ => (Raise AttributeError, w)
    end.

End Sampler.

Arguments M {_} A.

Notation "x <- m ;; k" := (bind m (fun x => k))
  (at level 100, m at next level, right associativity,
   format "'[v' x  <-  m  ;;  '/' k ']'").

Section Loops.
Context `{Externals}.

(** [for x in xs: s = body x s] in the world. *)
Fixpoint mfor {A S : Type} (xs : list A) (body : A -> S -> M S) (s : S) : M S :=
  match xs with
  | [] => ret s
  | x :: xs' => s' <- body x s ;; mfor xs' body s'
  end.

End Loops.

(** ** Forward filtering, backward sampling *)

Section FFBS.
Context `{Externals}.

(** [model.log_emission_probability(i, o)]: the [HMM] object asks its output
    model. *)
Definition log_emission_probability (m : HMM.t) (i : Z) (o : float) : M float :=
  theta <- deref_output (HMM.output_model m) ;;
  lift (output_log_emission theta i o).

(** The same call as a fallible function, in a world the forward pass does
    not change. *)
Definition emission_in (w : world) (m : HMM.t) (i : Z) (o : float) : result float :=
  fst (log_emission_probability m i o w).

(** Lines 220-221: the first column of [log_alpha_it]. *)
Definition forward_first (nstates : nat) (logPi : list float)
  (emission : Z -> float -> result float) (o_t : list float)
  (log_alpha_it : matrix) : result matrix :=
  rfor (range 0 (Z.of_nat nstates))
    (fun i log_alpha_it =>
       pi <~ getitem logPi i ;;
       o0 <~ getitem o_t 0 ;;
       e <~ emission i o0 ;;
       setitem2 log_alpha_it i 0 (pi + e)%float)
    log_alpha_it.

(** Line 226: one entry of column [t] from column [t-1]. *)
Definition forward_entry (logTij : matrix)
  (emission : Z -> float -> result float) (o_t : list float)
  (t j : Z) (log_alpha_it : matrix) : result matrix :=
  prev <~ getcol log_alpha_it (t - 1) ;;
  tj <~ getcol logTij j ;;
  s <~ np_add prev tj ;;
  lse <~ scipy_logsumexp s ;;
  ot <~ getitem o_t t ;;
  e <~ emission j ot ;;
  setitem2 log_alpha_it j t (lse + e)%float.

(** Lines 224-226: the columns [1 .. T-1]. *)
Definition forward_rest (nstates : nat) (logTij : matrix)
  (emission : Z -> float -> result float) (o_t : list float)
  (log_alpha_it : matrix) : result matrix :=
  rfor (range 1 (Z.of_nat (length o_t)))
    (fun t log_alpha_it =>
       rfor (range 0 (Z.of_nat nstates))
         (fun j log_alpha_it => forward_entry logTij emission o_t t j log_alpha_it)
         log_alpha_it)
    log_alpha_it.

(** Lines 217-226: the forward part. *)
Definition forward (nstates : nat) (logPi : list float) (logTij : matrix)
  (emission : Z -> float -> result float) (o_t : list float) : result matrix :=
  log_alpha_it <~
    forward_first nstates logPi emission o_t (np_zeros2 nstates (length o_t)) ;;
  forward_rest nstates logTij emission o_t log_alpha_it.

(** Lines 235-237: the final state. *)
Definition sample_final (nstates : nat) (log_alpha_it : matrix) (T : Z)
  (s_t : list Z) : M (list Z) :=
  log_p_i <- lift (getcol log_alpha_it (T - 1)) ;;
  last <- lift (getcol log_alpha_it (T - 1)) ;;
  lse <- lift (scipy_logsumexp last) ;;
  k <- with_np_random (random_choice nstates (normalized log_p_i lse)) ;;
  lift (setitem s_t (T - 1) (astype_int32 (Z.of_nat k))).

(** Lines 242-246: the state at [t] given the state at [t+1]. *)
Definition sample_previous (nstates : nat) (log_alpha_it logTij : matrix)
  (t : Z) (s_t : list Z) : M (list Z) :=
  a_t <- lift (getcol log_alpha_it t) ;;
  next <- lift (getitem s_t (t + 1)) ;;
  tnext <- lift (getcol logTij next) ;;
  log_p_i <- lift (np_add a_t tnext) ;;
  lse <- lift (scipy_logsumexp log_p_i) ;;
  k <- with_np_random (random_choice nstates (normalized log_p_i lse)) ;;
  lift (setitem s_t t (astype_int32 (Z.of_nat k))).

(** Lines 232-249: the backward part, from the filled [log_alpha_it]. *)
Definition backward_sampling (nstates : nat) (log_alpha_it logTij : matrix)
  (T : nat) : M (list Z) :=
  let s_t := replicate T 0 in
  s_t <- sample_final nstates log_alpha_it (Z.of_nat T) s_t ;;
  s_t <- mfor (range_down (Z.of_nat T - 2) (-1))
           (fun t s_t => sample_previous nstates log_alpha_it logTij t s_t)
           s_t ;;
  ret s_t.

(** [BHMM._sampleHiddenStateTrajectory(o_t)], with the default
    [dtype=np.int32]. *)
Definition _sampleHiddenStateTrajectory (self : BHMM) (o_t : list float)
  : M (list Z) :=
  let T := length o_t in
  m <- deref_HMM (model self) ;;
  let nstates := HMM.nstates m in
  let logPi := HMM.logPi m in
  let logTij := HMM.logTij m in
  log_alpha_it <-
    (fun w => (forward nstates logPi logTij (emission_in w m) o_t, w)) ;;
  backward_sampling nstates log_alpha_it logTij T.

End FFBS.

(** ** The Gibbs sweep *)

Section Gibbs.
Context `{Externals}.

Definition set_hidden_state_trajectories (v : option loc) (m : HMM.t) : HMM.t :=
  HMM.mk (HMM.nstates m) (HMM.Tij m) (HMM.logPi m) (HMM.logTij m)
    (HMM.output_model m) v (HMM.hidden_state_trajectory m).

Definition set_hidden_state_trajectory (v : none_attr) (m : HMM.t) : HMM.t :=
  HMM.mk (HMM.nstates m) (HMM.Tij m) (HMM.logPi m) (HMM.logTij m)
    (HMM.output_model m) (HMM.hidden_state_trajectories m) v.

(** Modelled from the spec: the [HMM] class is not among the sources; an
    assignment to [Tij] replaces the matrix and derives [logTij] from it
    again, element by element. *)
Definition set_Tij (Tnew : matrix) (m : HMM.t) : HMM.t :=
  HMM.mk (HMM.nstates m) Tnew (HMM.logPi m) (map (map np_log) Tnew)
    (HMM.output_model m) (HMM.hidden_state_trajectories m)
    (HMM.hidden_state_trajectory m).

(** The trajectories an [HMM] method iterates over; [None] is not iterable. *)
Definition trajectories_of (m : HMM.t) : M (list (list Z)) :=
  match HMM.hidden_state_trajectories m with
  | Some l => deref_list l
  | None => raise TypeError
  end.

(** The steps [(s[t], s[t+1])] of one trajectory. *)
Fixpoint transitions (s_t : list Z) : list (Z * Z) :=
  match s_t with
  | a :: rest =>
      match rest with
      | b :: _ => (a, b) :: transitions rest
      | [] => []
      end
  | [] => []
  end.

Definition count_transitions (trajs : list (list Z)) (i j : Z) : nat :=
  length (filter (fun p => p = (i, j)) (concat (map transitions trajs))).

(** Modelled from the spec: [HMM.count_matrix()] is not among the sources;
    [C[i][j]] is the number of time steps [t] with [s[t] = i] and
    [s[t+1] = j], summed over the trajectories, none counted across two
    of them. *)
Definition count_matrix (m : HMM.t) : M (list (list nat)) :=
  trajs <- trajectories_of m ;;
  let states := range 0 (Z.of_nat (HMM.nstates m)) in
  ret (map (fun i => map (fun j => count_transitions trajs i j) states) states).

Definition observations_in_state (state : Z) (o_t : list float) (s_t : list Z)
  : list float :=
  omap (fun os => if decide (snd os = state) then Some (fst os) else None)
       (zip o_t s_t).

(** Modelled from the spec: [HMM.collect_observations_in_state] is not among
    the sources; it flattens, over all sequences and time steps, the observed
    values whose hidden state is [state]. *)
Definition collect_observations_in_state (m : HMM.t)
  (observations : list (list float)) (state : Z) : M (list float) :=
  trajs <- trajectories_of m ;;
  ret (concat (zip_with (observations_in_state state) observations trajs)).

(** [BHMM._updateHiddenStateTrajectories()] *)
Definition _updateHiddenStateTrajectories (self : BHMM) : M unit :=
  fresh_list <- alloc (ListObj []) ;;
  m <- deref_HMM (model self) ;;
  _ <- store (model self) (HMMObj (set_hidden_state_trajectories (Some fresh_list) m)) ;;
  mfor (range 0 (Z.of_nat (ntrajectories self)))
    (fun trajectory_index _ =>
       o_t <- lift (getitem (observations self) trajectory_index) ;;
       hidden_state_trajectory <- _sampleHiddenStateTrajectory self o_t ;;
       m <- deref_HMM (model self) ;;
       match HMM.hidden_state_trajectories m with
       | Some l =>
           ts <- deref_list l ;;
           store l (ListObj (ts ++ [hidden_state_trajectory]))
       | None => raise AttributeError
       end)
    tt.

(** [BHMM._updateEmissionProbabilities()] *)
Definition _updateEmissionProbabilities (self : BHMM) : M unit :=
  m <- deref_HMM (model self) ;;
  observations_by_state <-
    mfor (range 0 (Z.of_nat (HMM.nstates m)))
      (fun state acc =>
         m <- deref_HMM (model self) ;;
         os <- collect_observations_in_state m (observations self) state ;;
         ret (acc ++ [os]))
      [] ;;
  m <- deref_HMM (model self) ;;
  theta <- deref_output (HMM.output_model m) ;;
  theta' <- with_np_random (output_model_sample observations_by_state theta) ;;
  store (HMM.output_model m) (OutputObj theta').

(** [BHMM._updateTransitionMatrix()] *)
Definition _updateTransitionMatrix (self : BHMM) : M unit :=
  m <- deref_HMM (model self) ;;
  C <- count_matrix m ;;
  if reversible self then
    Tnew <- with_np_random
              (TransitionMatrixSamplerRev_sample C (transition_matrix_sampling_steps self)) ;;
    m <- deref_HMM (model self) ;;
    store (model self) (HMMObj (set_Tij Tnew m))
  else
    raise (Exception "Non-reversible transition matrix sampling not yet implemented.").

(** [BHMM._update()]: one round of Gibbs sampling.  The clock readings and
    the message printed under [verbose] change nothing the sampler reads. *)
Definition _update (self : BHMM) : M unit :=
  _ <- _updateHiddenStateTrajectories self ;;
  _ <- _updateEmissionProbabilities self ;;
  _updateTransitionMatrix self.

(** [copy.deepcopy] of an [HMM] object: the object, its output model and its
    list of trajectories are copied into new objects. *)
Definition deepcopy_HMM (l : loc) : M loc :=
  m <- deref_HMM l ;;
  theta <- deref_output (HMM.output_model m) ;;
  output_copy <- alloc (OutputObj theta) ;;
  trajectories_copy <-
    match HMM.hidden_state_trajectories m with
    | None => ret None
    | Some lt =>
        ts <- deref_list lt ;;
        lt' <- alloc (ListObj ts) ;;
        ret (Some lt')
    end ;;
  alloc (HMMObj (HMM.mk (HMM.nstates m) (HMM.Tij m) (HMM.logPi m) (HMM.logTij m)
                   output_copy trajectories_copy (HMM.hidden_state_trajectory m))).

(** Lines 144-148 of [sample]: the copy appended to [models]. *)
Definition save_model (self : BHMM) (save_hidden_state_trajectory : bool) : M loc :=
  model_copy <- deepcopy_HMM (model self) ;;
  _ <- (if negb save_hidden_state_trajectory then
          m <- deref_HMM model_copy ;;
          store model_copy (HMMObj (set_hidden_state_trajectory BoundNone m))
        else ret tt) ;;
  ret model_copy.

(** [BHMM.sample(nsamples, nburn, nthin, save_hidden_state_trajectory)]: the
    list of references to the saved models. *)
Definition sample (self : BHMM) (nsamples nburn nthin : Z)
  (save_hidden_state_trajectory : bool) : M (list loc) :=
  _ <- mfor (range 0 nburn) (fun iteration _ => _update self) tt ;;
  mfor (range 0 nsamples)
    (fun iteration models =>
       _ <- mfor (range 0 nthin) (fun thin _ => _update self) tt ;;
       model_copy <- save_model self save_hidden_state_trajectory ;;
       ret (models ++ [model_copy]))
    [].

End Gibbs.

(** ** Construction *)

Section Construction.
Context `{Externals}.

(** [MLHMM(observations, nstates, reversible=..., output_model_type=...).fit()]:
    the maximum-likelihood estimator, a class of the package that is not
    among the sources.  It returns the fitted [HMM] object. *)
Variable MLHMM_fit : list (list float) -> nat -> bool -> string -> M loc.

(** [BHMM._generateInitialModel(output_model_type)], called while the sampler
    is constructed, with the attributes set so far. *)
Definition _generateInitialModel (observations : list (list float))
  (nstates : nat) (reversible : bool) (output_model_type : string) : M loc :=
  MLHMM_fit observations nstates reversible output_model_type.

(** [BHMM.__init__(observations, nstates, initial_model, reversible, verbose,
    transition_matrix_sampling_steps, output_model_type)]: the sampler
    object.  The observations are values here, so their deep copy is the
    list itself. *)
Definition __init__ (observations : list (list float)) (nstates : nat)
  (initial_model : option loc) (reversible verbose : bool)
  (transition_matrix_sampling_steps : Z) (output_model_type : string) : M BHMM :=
  if decide (length observations = O) then
    raise (Exception "No observations were provided.")
  else
    model <- match initial_model with
             | Some l => deepcopy_HMM l
             | None =>
                 _generateInitialModel observations nstates reversible output_model_type
             end ;;
    ret {| verbose := verbose;
           reversible := reversible;
           nstates := nstates;
           observations := observations;
           ntrajectories := length observations;
           model := model;
           transition_matrix_sampling_steps := transition_matrix_sampling_steps |}.

End Construction.

(** ** The initial model ([bhmm/init/api.py]) *)

Section InitialModel.
Context `{Externals}.

(** [discrete.initial_model_discrete(observations, nstates, lag, reversible,
    verbose)] and [gaussian.initial_model_gaussian1d(observations, nstates,
    reversible, verbose)]: modules of the package that are not among the
    sources.  Each builds an [HMM] object and returns it. *)
Variable initial_model_discrete :
  list (list float) -> Z -> Z -> bool -> bool -> M loc.
Variable initial_model_gaussian1d :
  list (list float) -> Z -> bool -> bool -> M loc.

(** [generate_initial_model(observations, nstates, output_model_type,
    verbose)] *)
Definition generate_initial_model (observations : list (list float))
  (nstates : Z) (output_model_type : string) (verbose : bool) : M loc :=
  if String.eqb output_model_type "discrete" then
    initial_model_discrete observations nstates 1 true verbose
  else if String.eqb output_model_type "gaussian" then
    initial_model_gaussian1d observations nstates true verbose
  else
    raise (NotImplementedError
             ("output model type " ++ output_model_type ++ " not yet implemented.")).

End InitialModel.

(** ** Test systems ([bhmm/testsystems.py]) *)

(** An emission state as the test systems hand it to the model class: the
    dict [{'mu': mu, 'sigma': sigma}]. *)
Module State.
Record t : Type := mk {
  mu : float;
  sigma : float
}.
End State.

Section TestSystems.
Context `{Externals}.

(** [np.random.random()]: one uniform variate in [0, 1) from the global
    generator.  Asked for an array, numpy fills it with successive variates,
    row after row. *)
Variable random_sample : RandomState -> float * RandomState.

(** [np.random.randn()]: one standard normal variate. *)
Variable standard_normal : RandomState -> float * RandomState.

(** [a.sum()] of a one-dimensional array. *)
Variable np_sum : list float -> float.

(** [HMM(nstates, Tij, states)]: the constructor of the model class, which is
    not among the sources.  It returns the new object. *)
Variable HMM_init : Z -> matrix -> list State.t -> M loc.

(** One variate drawn from the global generator. *)
Definition variate (f : RandomState -> float * RandomState) : M float :=
  with_np_random (fun g => let '(x, g') := f g in (Ok x, g')).

(** [k] successive uniform variates. *)
Fixpoint random_row (k : nat) : M (list float) :=
  match k with
  | O => ret []
  | S k' =>
      x <- variate random_sample ;;
      rest <- random_row k' ;;
      ret (x :: rest)
  end.

(** [n] rows of [k] uniform variates each. *)
Fixpoint random_rows (n k : nat) : M matrix :=
  match n with
  | O => ret []
  | S n' =>
      row <- random_row k ;;
      rest <- random_rows n' k ;;
      ret (row :: rest)
  end.

(** [np.random.random([n, n])]; a negative dimension is a [ValueError]. *)
Definition np_random_random (n : Z) : M matrix :=
  if n <? 0 then raise ValueError
  else random_rows (Z.to_nat n) (Z.to_nat n).

(** [X.T] of a square array. *)
Definition np_T (X : matrix) : matrix :=
  map (fun j => map (fun row => default 0%float (row !! j)) X) (seq 0 (length X)).

(** [(X + X.T) / 2.0] on a square array, entry by entry. *)
Definition symmetric_part (X : matrix) : matrix :=
  zip_with (zip_with (fun x y => ((x + y) / 2)%float)) X (np_T X).

(** Line 42: [Tij[i,:] /= Tij[i,:].sum()]. *)
Definition normalize_row (Tij : matrix) (i : Z) : result matrix :=
  row <~ getitem Tij i ;;
  setitem Tij i (map (fun x => (x / np_sum row)%float) row).

(** [generate_transition_matrix(nstates, reversible)] *)
Definition generate_transition_matrix (nstates : Z) (reversible : bool) : M matrix :=
  X <- np_random_random nstates ;;
  let Cij := if reversible then symmetric_part X else X in
  let Tij := Cij in
  lift (rfor (range 0 nstates) (fun i Tij => normalize_row Tij i) Tij).

(** [three_state_model(sigma)]; the means are the integers -1, 0 and +1. *)
Definition three_state_model (sigma : float) : M loc :=
  let nstates := 3 in
  let states := [State.mk (-1) sigma; State.mk 0 sigma; State.mk 1 sigma] in
  Tij <- generate_transition_matrix nstates true ;;
  HMM_init nstates Tij states.

(** [generate_random_model(nstates, reversible)] *)
Definition generate_random_model (nstates : Z) (reversible : bool) : M loc :=
  Tij <- generate_transition_matrix nstates reversible ;;
  states <-
    mfor (range 0 nstates)
      (fun index states =>
         mu <- variate standard_normal ;;
         sigma <- variate random_sample ;;
         ret (states ++ [State.mk mu sigma]))
      [] ;;
  HMM_init nstates Tij states.

End TestSystems.

(** ** A reference implementation of the library interface

    An executable stand-in for the libraries, to run the sampler on concrete
    inputs: [exp] and [log] by series on binary64 numbers (special values as
    IEEE 754 and the C library have them), scipy's [logsumexp], a Gaussian
    output model whose log-probability is the logarithm of the density, a
    linear congruential generator behind [np.random] with the draw by
    inversion of the cumulative sums, and a symmetric-count estimate for the
    transition matrix. *)
Module Reference.

Local Open Scope float_scope.
#[local] Set Warnings "-inexact-float".

Fixpoint exp_series (n : nat) (k term acc y : float) : float :=
  match n with
  | O => acc
  | S n' =>
      let term' := term * y / k in
      exp_series n' (k + 1) term' (acc + term') y
  end.

Fixpoint square_times (n : nat) (x : float) : float :=
  match n with
  | O => x
  | S n' => square_times n' (x * x)
  end.

(** [exp]: [exp(x) = exp(x / 1024) ^ 1024], the inner one by its series. *)
Definition exp (x : float) : float :=
  if is_nan x then nan
  else if x =? infinity then infinity
  else if x =? neg_infinity then 0
  else square_times 10 (exp_series 20 1 1 1 (x / 1024)).

Fixpoint atanh_series (n : nat) (k power acc z2 : float) : float :=
  match n with
  | O => acc
  | S n' =>
      let power' := power * z2 in
      atanh_series n' (k + 2) power' (acc + power' / (k + 2)) z2
  end.

Definition float_of_Z (z : Z) : float :=
  if (z <? 0)%Z then - of_uint63 (Uint63.of_Z (- z))
  else of_uint63 (Uint63.of_Z z).

(** [log]: [log(m * 2^e) = 2 atanh((m - 1) / (m + 1)) + e log 2], with [m]
    between 0.75 and 1.5. *)
Definition log (x : float) : float :=
  if is_nan x then nan
  else if x <? 0 then nan
  else if x =? 0 then neg_infinity
  else if x =? infinity then infinity
  else
    let '(m, e) := Z.frexp x in
    let '(m, e) := if m <? 0.75 then (2 * m, (e - 1)%Z) else (m, e) in
    let z := (m - 1) / (m + 1) in
    2 * atanh_series 20 1 z z (z * z) + float_of_Z e * 0.6931471805599453.

Definition fsum (a : list float) : float := fold_left PrimFloat.add a 0.

(** [np.amax]: a NaN entry makes the maximum NaN. *)
Definition amax (a : list float) : float :=
  match a with
  | [] => nan
  | x :: rest =>
      fold_left (fun m y => if is_nan m then m else if is_nan y then y
                            else if m <? y then y else m) rest x
  end.

(** [scipy.misc.logsumexp]: the maximum is taken out before exponentiating;
    a maximum that is not finite is replaced by 0. *)
Definition scipy_misc_logsumexp (a : list float) : float :=
  let a_max := amax a in
  let a_max := if is_finite a_max then a_max else 0 in
  log (fsum (map (fun x => exp (x - a_max)) a)) + a_max.

(** The generator: a linear congruential sequence; a uniform variate in
    [0, 1) is the state over the modulus. *)
Definition lcg_next (g : Z) : Z := ((g * 1103515245 + 12345) mod 2 ^ 31)%Z.

Definition uniform (g : Z) : float := float_of_Z g / float_of_Z (2 ^ 31).

Fixpoint cumsum (acc : float) (p : list float) : list float :=
  match p with
  | [] => []
  | x :: rest => (acc + x) :: cumsum (acc + x) rest
  end.

(** [np.random.choice(range(n), size=1, p=p)]: the checks numpy makes on
    [p], then the number of normalised cumulative sums the variate has
    reached.  The last of them is 1, above every variate, so the count runs
    over the others. *)
Definition choice (n : nat) (p : list float) (g : Z) : result nat * Z :=
  if decide (n = O) then (Raise ValueError, g)
  else if negb (length p =? n)%nat then (Raise ValueError, g)
  else if existsb (fun x => x <? 0) p then (Raise ValueError, g)
  else if 0.00000001 <? abs (fsum p - 1) then (Raise ValueError, g)
  else
    let g' := lcg_next g in
    let cdf := cumsum 0 p in
    let total := List.last cdf 0 in
    let cdf := map (fun c => c / total) cdf in
    (Ok (length (filter (fun c => (c <=? uniform g') = true) (removelast cdf))), g').

(** The Gaussian output model: a mean and a width per state. *)
Definition gaussian_log_emission (theta : list (float * float)) (i : Z) (o : float)
  : result float :=
  ms <~ getitem theta i ;;
  let '(mu, sigma) := ms in
  let d := (o - mu) / sigma in
  Ok (log (exp (- (0.5 * (d * d))) / (sqrt (2 * 3.141592653589793) * sigma))).

(** Its parameter update: the mean of a state moves to the mean of the
    observations assigned to it, shifted by a draw scaled with the width. *)
Definition gaussian_sample (observations_by_state : list (list float))
  (theta : list (float * float)) (g : Z) : result (list (float * float)) * Z :=
  let g' := lcg_next g in
  (Ok (zip_with
         (fun ms os =>
            match os with
            | [] => ms
            | _ => (fsum os / float_of_Z (Z.of_nat (length os))
                    + (uniform g' - 0.5) * snd ms / float_of_Z (Z.of_nat (length os)),
                    snd ms)
            end)
         theta
         (observations_by_state
            ++ replicate (length theta - length observations_by_state) [])),
   g').

(** The transition matrix from the symmetrised counts with one pseudo-count,
    rows normalised; the generator advances once. *)
Definition reversible_sample (C : list (list nat)) (nsteps : Z) (g : Z)
  : result matrix * Z :=
  let count i j := default O (C !! i ≫= fun row => row !! j) in
  let n := length C in
  let X := map (fun i => map (fun j => float_of_Z (Z.of_nat (count i j + count j i + 1)))
                             (seq 0 n)) (seq 0 n) in
  (Ok (map (fun row => map (fun x => x / fsum row) row) X), lcg_next g).

#[export] Instance externals : Externals := {|
  RandomState := Z;
  OutputModel := list (float * float);
  np_exp := exp;
  np_log := log;
  logsumexp := scipy_misc_logsumexp;
  random_choice := choice;
  output_log_emission := gaussian_log_emission;
  output_model_sample := gaussian_sample;
  TransitionMatrixSamplerRev_sample := reversible_sample
|}.

End Reference.

(** ** Vocabulary of the statements *)

(** [a[i, t]], when there is such an entry. *)
Definition entry (a : matrix) (i t : nat) : option float :=
  a !! i ≫= fun row => row !! t.

(** The column [a[:, t]] of an array that has one. *)
Definition column (a : matrix) (t : nat) : list float :=
  map (fun row => default 0%float (row !! t)) a.

(** [a.shape == (n, T)] *)
Definition has_shape (n T : nat) (a : matrix) : Prop :=
  length a = n /\ Forall (fun row => length row = T) a.

(** [a] with [a[i, t]] replaced. *)
Definition set_entry (a : matrix) (i t : nat) (v : float) : matrix :=
  alter (fun row => <[t := v]> row) i a.

Section TrajectoryDraws.
Context `{Externals}.

(** The draw as the code makes it at lines 236-237 and at lines 243-246,
    from the log-probabilities [log_p]. *)
Definition draw_state (nstates : nat) (log_p : list float) : M nat :=
  lse <- lift (scipy_logsumexp log_p) ;;
  with_np_random (random_choice nstates (normalized log_p lse)).

(** The states [s[0], ..., s[t-1]] given [s[t] = s_next], from [t-1] down
    to 0: each is drawn, by [draw], from the log-probabilities
    [log_p[i] = log_alpha[i,t'] + logTij[i, s[t'+1]]]. *)
Fixpoint draw_previous (draw : list float -> M nat) (log_alpha logTij : matrix)
  (t s_next : nat) : M (list nat) :=
  match t with
  | O => ret []
  | S t' =>
      s <- draw (zip_with PrimFloat.add (column log_alpha t') (column logTij s_next)) ;;
      earlier <- draw_previous draw log_alpha logTij t' s ;;
      ret (earlier ++ [s])
  end.

(** The trajectory as the claim describes it: [s[T-1]] drawn, by [draw], from
    the last column of [log_alpha], then the earlier states backwards. *)
Definition draw_trajectory (draw : list float -> M nat) (log_alpha logTij : matrix)
  (T : nat) : M (list nat) :=
  s_last <- draw (column log_alpha (T - 1)) ;;
  earlier <- draw_previous draw log_alpha logTij (T - 1) s_last ;;
  ret (earlier ++ [s_last]).

End TrajectoryDraws.

Section ForwardVocabulary.
Context `{Externals}.

Variables (n : nat) (logPi : list float) (logTij : matrix).
Variable emission : Z -> float -> result float.
Variable o_t : list float.

(** [log_alpha[i,0] = logPi[i] + log_emission(i, o[0])] *)
Definition initial_at (a : matrix) (i : nat) : Prop :=
  exists pi o0 e,
    logPi !! i = Some pi /\ o_t !! O = Some o0 /\
    emission (Z.of_nat i) o0 = Ok e /\
    entry a i 0 = Some (pi + e)%float.

(** [log_alpha[j,t] = logsumexp_k(log_alpha[k,t-1] + logTij[k,j])
    + log_emission(j, o[t])] *)
Definition recurrence_at (a : matrix) (t j : nat) : Prop :=
  exists ot e,
    o_t !! t = Some ot /\
    emission (Z.of_nat j) ot = Ok e /\
    entry a j t =
      Some (logsumexp (zip_with PrimFloat.add (column a (t - 1)) (column logTij j)) + e)%float.

(** The invariant of the loops of lines 224-226: the first column and all
    the entries written so far satisfy their equations. *)
Definition filled_to (T : nat) (a : matrix) (t j : nat) : Prop :=
  has_shape n T a /\
  (forall i, (i < n)%nat -> initial_at a i) /\
  (forall t' j', (1 <= t' < t)%nat -> (j' < n)%nat -> recurrence_at a t' j') /\
  (forall j', (j' < j)%nat -> recurrence_at a t j').

End ForwardVocabulary.

Section WorldVocabulary.
Context `{Externals}.

(** A computation that only draws: it leaves the store as it finds it, and
    what it returns and the state it leaves the generator in are determined
    by the state it finds the generator in. *)
Definition draws_only {A : Type} (c : M A) : Prop :=
  forall w, exists r g,
    c w = (r, World (heap w) g) /\
    forall w', np_random w' = np_random w -> c w' = (r, World (heap w') g).

(** A computation that only reads. *)
Definition reads_only {A : Type} (c : M A) : Prop := forall w, snd (c w) = w.

(** [k] full Gibbs sweeps, one after the other. *)
Fixpoint sweeps (self : BHMM) (k : nat) : M unit :=
  match k with
  | O => ret tt
  | S k' => _ <- _update self ;; sweeps self k'
  end.

(** [k] retained samples: for each, [nthin] sweeps and then a snapshot of the
    model; the snapshots in the order they were taken. *)
Fixpoint retained (self : BHMM) (nthin : nat) (save : bool) (k : nat)
  : M (list loc) :=
  match k with
  | O => ret []
  | S k' =>
      _ <- sweeps self nthin ;;
      snapshot <- save_model self save ;;
      later <- retained self nthin save k' ;;
      ret (snapshot :: later)
  end.

(** The run as the specification words it: burn-in, then the retained
    samples. *)
Definition run (self : BHMM) (nsamples nburn nthin : nat) (save : bool)
  : M (list loc) :=
  _ <- sweeps self nburn ;;
  retained self nthin save nsamples.

(** The objects of a model: the [HMM] object at [l], its output model and
    its list of trajectories. *)
Definition objects_of (w : world) (l : loc) : gset loc :=
  {[ l ]} ∪
  match heap w !! l with
  | Some (HMMObj m) =>
      {[ HMM.output_model m ]} ∪
      match HMM.hidden_state_trajectories m with
      | Some lt => {[ lt ]}
      | None => ∅
      end
  | _ => ∅
  end.

(** The objects of the live model, the one in [self.model]. *)
Definition live (self : BHMM) (w : world) : gset loc :=
  objects_of w (model self).

(** What a model object holds, read through its references: its attributes,
    the parameters of its output model and its trajectories. *)
Definition contents (w : world) (l : loc)
  : option (HMM.t * OutputModel * option (list (list Z))) :=
  match heap w !! l with
  | Some (HMMObj m) =>
      match heap w !! HMM.output_model m with
      | Some (OutputObj theta) =>
          match HMM.hidden_state_trajectories m with
          | None => Some (m, theta, None)
          | Some lt =>
              match heap w !! lt with
              | Some (ListObj ts) => Some (m, theta, Some ts)
              | _ => None
              end
          end
      | _ => None
      end
  | _ => None
  end.

(** Two model objects with the same values in every attribute that is not a
    reference. *)
Definition same_values (m m' : HMM.t) : Prop :=
  HMM.nstates m' = HMM.nstates m /\ HMM.Tij m' = HMM.Tij m /\
  HMM.logPi m' = HMM.logPi m /\ HMM.logTij m' = HMM.logTij m.

(** What may happen to the world after a snapshot was taken: further sweeps,
    further calls of [sample] (returning or raising), and any writes to the
    objects of the live model that leave its references as they are. *)
Inductive evolves (self : BHMM) : world -> world -> Prop :=
| evolves_refl (w : world) : evolves self w w
| evolves_update (w : world) : evolves self w (snd (_update self w))
| evolves_sample (w : world) (nsamples nburn nthin : Z) (save : bool) :
    evolves self w (snd (sample self nsamples nburn nthin save w))
| evolves_mutation (w w' : world) :
    dom (heap w) ⊆ dom (heap w') ->
    (forall l, l ∉ live self w -> heap w' !! l = heap w !! l) ->
    live self w' = live self w ->
    evolves self w w'
| evolves_trans (w1 w2 w3 : world) :
    evolves self w1 w2 -> evolves self w2 w3 -> evolves self w1 w3.

(** The footprint of a step: the store only grows, objects that are not
    the live model's stay as they are, and the live model only comes to refer
    to objects made during the step. *)
Record frame (self : BHMM) (w w' : world) : Prop := Frame {
  frame_dom : dom (heap w) ⊆ dom (heap w');
  frame_keep : forall l, l ∈ dom (heap w) -> l ∉ live self w ->
                         heap w' !! l = heap w !! l;
  frame_live : live self w' ⊆ live self w ∪ (dom (heap w') ∖ dom (heap w))
}.

(** The store only gained objects. *)
Definition extends (w w' : world) : Prop :=
  dom (heap w) ⊆ dom (heap w') /\
  forall x, x ∈ dom (heap w) -> heap w' !! x = heap w !! x.

(** The copy made of a trajectories attribute: [None] stays [None], a list
    becomes a new list object with the same trajectories. *)
Definition copied_list (w w' : world) (old new : option loc) : Prop :=
  match old, new with
  | None, None => True
  | Some lt, Some lt' =>
      exists ts, heap w !! lt = Some (ListObj ts) /\
                 (lt' ∉ dom (heap w)) /\
                 heap w' !! lt' = Some (ListObj ts)
  | _, _ => False
  end.

(** A model whose objects exist and are none of the live model's. *)
Definition protected (self : BHMM) (w : world) (l : loc) : Prop :=
  objects_of w l ⊆ dom (heap w) /\ objects_of w l ## live self w.

(** The message of line 271. *)
Definition non_reversible_message : string :=
  "Non-reversible transition matrix sampling not yet implemented.".

(** The live model has a list of trajectories. *)
Definition has_trajectories (self : BHMM) (w : world) : Prop :=
  exists m l ts,
    heap w !! model self = Some (HMMObj m) /\
    HMM.hidden_state_trajectories m = Some l /\
    heap w !! l = Some (ListObj ts).

End WorldVocabulary.

(** A forward log-probability that carries no likelihood: minus infinity, or
    the NaN that arithmetic on it produces. *)
Definition degenerate (x : float) : Prop := x = neg_infinity \/ x = nan.

Section SweepVocabulary.
Context `{Externals}.

(** A hidden state trajectory for [T] observations of a model with [n]
    states. *)
Definition valid_trajectory (n T : nat) (s_t : list Z) : Prop :=
  length s_t = T /\ Forall (fun s => 0 <= s < Z.of_nat n) s_t.

(** [ts] holds a trajectory for each of the first [length ts] observation
    sequences, in their order. *)
Definition trajectories_match (n : nat) (observations : list (list float))
  (ts : list (list Z)) : Prop :=
  Forall2 (fun o_t s_t => valid_trajectory n (length o_t) s_t)
    (take (length ts) observations) ts.

(** The live model refers to a list of [k] trajectories, those of the first
    [k] observation sequences. *)
Definition trajectories_for (self : BHMM) (k : nat) (w : world) : Prop :=
  exists m l ts,
    heap w !! model self = Some (HMMObj m) /\
    HMM.hidden_state_trajectories m = Some l /\
    heap w !! l = Some (ListObj ts) /\
    length ts = k /\
    trajectories_match (HMM.nstates m) (observations self) ts.

(** The objects a step may have written: every other object that was there
    before is as it was. *)
Definition writes_only (written : gset loc) (w w' : world) : Prop :=
  dom (heap w) ⊆ dom (heap w') /\
  forall x, x ∈ dom (heap w) -> x ∉ written -> heap w' !! x = heap w !! x.

End SweepVocabulary.

Section TestSystemsVocabulary.
Context `{Externals}.

Variable random_sample : RandomState -> float * RandomState.

(** The state of the generator after [k] uniform variates. *)
Fixpoint advance (k : nat) (g : RandomState) : RandomState :=
  match k with
  | O => g
  | S k' => advance k' (snd (random_sample g))
  end.

Variable np_sum : list float -> float.

(** Every row divided by its own sum. *)
Definition rows_normalized (C : matrix) : matrix :=
  map (fun row => map (fun x => (x / np_sum row)%float) row) C.

(** [C[i,j] == C[j,i]] throughout. *)
Definition symmetric (C : matrix) : Prop :=
  forall i j, entry C i j = entry C j i.

End TestSystemsVocabulary.

(** ** Concrete inputs

    A two-state model with Gaussian output, two observation sequences and a
    seeded generator, to run the sampler on. *)
Module Demo.

Import Reference.
Local Open Scope float_scope.

Definition theta0 : list (float * float) := [(-1, 1); (1, 1)].

Definition hmm0 : HMM.t :=
  HMM.mk 2
    [[0.75; 0.25]; [0.25; 0.75]]
    [log 0.5; log 0.5]
    [[log 0.75; log 0.25]; [log 0.25; log 0.75]]
    2%positive None Missing.

Definition world0 : world :=
  World (<[1%positive := HMMObj hmm0]> (<[2%positive := OutputObj theta0]> ∅)) 42%Z.

Definition bhmm0 : BHMM := {|
  verbose := false;
  reversible := true;
  nstates := 2;
  observations := [[-1.25; -0.75; 1.5; 1]; [0.5]];
  ntrajectories := 2;
  model := 1%positive;
  transition_matrix_sampling_steps := 10
|}.

(** The same world with one more object, which nothing refers to. *)
Definition world0_extra : world :=
  World (<[7%positive := ListObj []]> (heap world0)) 42%Z.

(** The same sampler, asked for a non-reversible prior. *)
Definition bhmm_non_reversible : BHMM := {|
  verbose := false;
  reversible := false;
  nstates := 2;
  observations := [[-1.25; -0.75; 1.5; 1]; [0.5]];
  ntrajectories := 2;
  model := 1%positive;
  transition_matrix_sampling_steps := 10
|}.

(** The first observation sequence. *)
Definition obs0 : list float := [-1.25; -0.75; 1.5; 1].

(** An observation so far from both means that its density underflows to 0
    in either state. *)
Definition outlier : float := 64.

(** The trajectories a model object holds, read through its references. *)
Definition trajectories_at (w : world) (l : loc) : option (list (list Z)) :=
  match contents w l with
  | Some (_, _, ts) => ts
  | None => None
  end.

End Demo.

(** ** Further inputs

    A sampler whose second observation sequence is empty, and stand-ins for
    the library calls of the test systems. *)
Module Cases.

Import Reference Demo.
Local Open Scope float_scope.

(** The sampler of [Demo] with an empty sequence between two others. *)
Definition bhmm_gap : BHMM := {|
  verbose := false;
  reversible := true;
  nstates := 2;
  observations := [obs0; []; [0.5]];
  ntrajectories := 3;
  model := 1%positive;
  transition_matrix_sampling_steps := 10
|}.

(** [np.random.random()] on the generator of [Reference]. *)
Definition random_sample (g : RandomState) : float * RandomState :=
  let g' := lcg_next g in (uniform g', g').

(** [a.sum()], summing from the left. *)
Definition np_sum (a : list float) : float := fsum a.

(** An estimator that is not there: the constructor is run with an initial
    model. *)
Definition no_MLHMM (observations : list (list float)) (nstates : nat)
  (reversible : bool) (output_model_type : string) : M loc :=
  raise (NotImplementedError "MLHMM").

End Cases.

(** * Properties *)

(** ** Ranges, loops and arrays *)

Lemma range_nil (start stop : Z) : stop <= start -> range start stop = [].
Proof.
  intros Hle. unfold range.
  replace (Z.to_nat (stop - start)) with O by lia. reflexivity.
Qed.

Lemma range_cons (start stop : Z) :
  start < stop -> range start stop = start :: range (start + 1) stop.
Proof.
  intros Hlt. unfold range.
  replace (Z.to_nat (stop - start)) with (S (Z.to_nat (stop - (start + 1)))) by lia.
  cbn [seq map]. f_equal; [lia |].
  rewrite <- seq_shift, map_map. apply map_ext. intros k. lia.
Qed.

Lemma range_snoc (start stop : Z) :
  start <= stop -> range start (stop + 1) = range start stop ++ [stop].
Proof.
  intros Hle. unfold range.
  replace (Z.to_nat (stop + 1 - start)) with (Z.to_nat (stop - start) + 1)%nat by lia.
  rewrite seq_app, map_app. cbn [seq map]. do 2 f_equal. lia.
Qed.

Lemma range_down_nil (start stop : Z) : start <= stop -> range_down start stop = [].
Proof.
  intros Hle. unfold range_down.
  replace (Z.to_nat (start - stop)) with O by lia. reflexivity.
Qed.

Lemma range_down_cons (start stop : Z) :
  stop < start -> range_down start stop = start :: range_down (start - 1) stop.
Proof.
  intros Hlt. unfold range_down.
  replace (Z.to_nat (start - stop)) with (S (Z.to_nat (start - 1 - stop))) by lia.
  cbn [seq map]. f_equal; [lia |].
  rewrite <- seq_shift, map_map. apply map_ext. intros k. lia.
Qed.

Lemma rfor_app {A S : Type} (xs ys : list A) (body : A -> S -> result S) (s : S) :
  rfor (xs ++ ys) body s = (s' <~ rfor xs body s ;; rfor ys body s').
Proof.
  revert s. induction xs as [|x xs IH]; intros s; cbn; [reflexivity |].
  destruct (body x s) as [e|s']; cbn; [reflexivity | apply IH].
Qed.

(** A loop over [range(start, stop)] whose body keeps an invariant indexed by
    the loop variable runs to its end and establishes the invariant there. *)
Lemma rfor_range_invariant {S : Type} (Inv : Z -> S -> Prop)
  (body : Z -> S -> result S) (start stop : Z) (s : S) :
  start <= stop ->
  Inv start s ->
  (forall k s0, start <= k < stop -> Inv k s0 ->
                exists s1, body k s0 = Ok s1 /\ Inv (k + 1) s1) ->
  exists s', rfor (range start stop) body s = Ok s' /\ Inv stop s'.
Proof.
  intros Hle Hinit Hstep.
  remember (Z.to_nat (stop - start)) as n eqn:Hn.
  revert start s Hle Hinit Hstep Hn.
  induction n as [|n IH]; intros start s Hle Hinit Hstep Hn.
  - assert (start = stop) as -> by lia.
    rewrite range_nil by lia. exists s. split; [reflexivity | assumption].
  - rewrite range_cons by lia. cbn.
    destruct (Hstep start s) as (s1 & Hbody & Hinv); [lia | assumption |].
    rewrite Hbody. cbn.
    apply IH; [lia | assumption | | lia].
    intros k s0 Hk. apply Hstep. lia.
Qed.

Lemma np_index_nat (len k : nat) :
  (k < len)%nat -> np_index len (Z.of_nat k) = Ok k.
Proof.
  intros Hlt. unfold np_index.
  destruct (Z.leb_spec 0 (Z.of_nat k)); [| lia].
  destruct (Z.ltb_spec (Z.of_nat k) (Z.of_nat len)); [| lia].
  rewrite Nat2Z.id. reflexivity.
Qed.

Lemma getitem_nat {A : Type} (a : list A) (k : nat) (x : A) :
  a !! k = Some x -> getitem a (Z.of_nat k) = Ok x.
Proof.
  intros Hk. unfold getitem.
  rewrite np_index_nat by (eapply lookup_lt_Some; eassumption).
  cbn. rewrite Hk. reflexivity.
Qed.

Lemma setitem_nat {A : Type} (a : list A) (k : nat) (v : A) :
  (k < length a)%nat -> setitem a (Z.of_nat k) v = Ok (<[k := v]> a).
Proof.
  intros Hlt. unfold setitem. rewrite np_index_nat by assumption. reflexivity.
Qed.

Lemma has_shape_lookup (n T : nat) (a : matrix) (i : nat) :
  has_shape n T a -> (i < n)%nat ->
  exists row, a !! i = Some row /\ length row = T.
Proof.
  intros [Hlen Hrows] Hi.
  destruct (lookup_lt_is_Some_2 a i) as [row Hrow]; [lia |].
  exists row. split; [assumption |].
  eapply (proj1 (Forall_lookup _ _) Hrows). eassumption.
Qed.

Lemma has_shape_zeros (n T : nat) : has_shape n T (np_zeros2 n T).
Proof.
  split.
  - apply length_replicate.
  - apply Forall_replicate. apply length_replicate.
Qed.

Lemma has_shape_set_entry (n T : nat) (a : matrix) (i t : nat) (v : float) :
  has_shape n T a -> has_shape n T (set_entry a i t v).
Proof.
  intros [Hlen Hrows]. split.
  - unfold set_entry. rewrite length_alter. assumption.
  - apply Forall_lookup. intros k row Hk. unfold set_entry in Hk.
    destruct (decide (i = k)) as [->|Hne].
    + rewrite list_lookup_alter_eq in Hk.
      destruct (a !! k) as [row0|] eqn:Hrow0; [| discriminate].
      cbn in Hk. injection Hk as <-. rewrite length_insert.
      eapply (proj1 (Forall_lookup _ _) Hrows). eassumption.
    + rewrite list_lookup_alter_ne in Hk by assumption.
      eapply (proj1 (Forall_lookup _ _) Hrows). eassumption.
Qed.

Lemma setitem2_nat (n T : nat) (a : matrix) (i t : nat) (v : float) :
  has_shape n T a -> (i < n)%nat -> (t < T)%nat ->
  setitem2 a (Z.of_nat i) (Z.of_nat t) v = Ok (set_entry a i t v).
Proof.
  intros Hshape Hi Ht.
  destruct (has_shape_lookup n T a i Hshape Hi) as (row & Hrow & Hlen).
  unfold setitem2. rewrite (getitem_nat a i row Hrow). cbn.
  rewrite setitem_nat by lia. cbn.
  rewrite setitem_nat by (destruct Hshape; lia).
  f_equal. unfold set_entry. apply list_eq. intros k.
  destruct (decide (i = k)) as [->|Hne].
  - rewrite list_lookup_alter_eq, Hrow. cbn.
    apply list_lookup_insert_eq. eapply lookup_lt_Some. eassumption.
  - rewrite list_lookup_alter_ne, list_lookup_insert_ne by assumption. reflexivity.
Qed.

Lemma entry_set_entry_eq (n T : nat) (a : matrix) (i t : nat) (v : float) :
  has_shape n T a -> (i < n)%nat -> (t < T)%nat ->
  entry (set_entry a i t v) i t = Some v.
Proof.
  intros Hshape Hi Ht.
  destruct (has_shape_lookup n T a i Hshape Hi) as (row & Hrow & Hlen).
  unfold entry, set_entry. rewrite list_lookup_alter_eq, Hrow. cbn.
  apply list_lookup_insert_eq. lia.
Qed.

Lemma entry_set_entry_ne (a : matrix) (i t i' t' : nat) (v : float) :
  i <> i' \/ t <> t' ->
  entry (set_entry a i t v) i' t' = entry a i' t'.
Proof.
  intros Hne. unfold entry, set_entry.
  destruct (decide (i = i')) as [->|Hi].
  - rewrite list_lookup_alter_eq.
    destruct (a !! i') as [row|]; [| reflexivity]. cbn.
    apply list_lookup_insert_ne. destruct Hne; congruence.
  - rewrite list_lookup_alter_ne by assumption. reflexivity.
Qed.

Lemma column_set_entry_ne (a : matrix) (i t t' : nat) (v : float) :
  t <> t' -> column (set_entry a i t v) t' = column a t'.
Proof.
  intros Hne. unfold column, set_entry. apply list_eq. intros k.
  rewrite !list_lookup_fmap.
  destruct (decide (i = k)) as [->|Hi].
  - rewrite list_lookup_alter_eq.
    destruct (a !! k) as [row|]; [| reflexivity]. cbn.
    rewrite list_lookup_insert_ne by assumption. reflexivity.
  - rewrite list_lookup_alter_ne by assumption. reflexivity.
Qed.

Lemma rmap_getitem_column (a : matrix) (t T : nat) :
  Forall (fun row => length row = T) a -> (t < T)%nat ->
  rmap (fun row => getitem row (Z.of_nat t)) a = Ok (column a t).
Proof.
  intros Hrows Ht. induction Hrows as [|row a Hrow Hrows IH]; [reflexivity |].
  cbn.
  destruct (lookup_lt_is_Some_2 row t) as [x Hx]; [lia |].
  rewrite (getitem_nat row t x Hx). cbn. rewrite IH. cbn.
  rewrite Hx. reflexivity.
Qed.

Lemma getcol_column (n T : nat) (a : matrix) (t : nat) :
  has_shape n T a -> (t < T)%nat -> getcol a (Z.of_nat t) = Ok (column a t).
Proof.
  intros [_ Hrows] Ht. unfold getcol. eapply rmap_getitem_column; eassumption.
Qed.

Lemma length_column (a : matrix) (t : nat) : length (column a t) = length a.
Proof. unfold column. apply length_map. Qed.

Lemma np_add_same_length (a b : list float) :
  length a = length b -> np_add a b = Ok (zip_with PrimFloat.add a b).
Proof.
  intros Hlen. unfold np_add. destruct (decide (length a = length b)); [reflexivity | contradiction].
Qed.

(** ** The forward pass *)

Section Forward.
Context `{Externals}.

Variables (n : nat) (logPi : list float) (logTij : matrix).
Variable emission : Z -> float -> result float.
Variable o_t : list float.

Hypothesis logPi_length : length logPi = n.
Hypothesis logTij_shape : has_shape n n logTij.
Hypothesis emission_returns :
  forall (i : nat) (o : float), (i < n)%nat -> exists e, emission (Z.of_nat i) o = Ok e.

Lemma initial_at_set_entry (a : matrix) (i j t : nat) (v : float) :
  i <> j \/ t <> O ->
  initial_at logPi emission o_t a i -> initial_at logPi emission o_t (set_entry a j t v) i.
Proof.
  intros Hne (pi & o0 & e & Hpi & Ho & He & Hentry).
  exists pi, o0, e. repeat split; try assumption.
  rewrite entry_set_entry_ne; [assumption |].
  destruct Hne; [left | right]; congruence.
Qed.

Lemma recurrence_at_set_entry (a : matrix) (t j t' j' : nat) (v : float) :
  (1 <= t <= t')%nat -> t <> t' \/ j <> j' ->
  recurrence_at logTij emission o_t a t j -> recurrence_at logTij emission o_t (set_entry a j' t' v) t j.
Proof.
  intros Ht Hne (ot & e & Ho & He & Hentry).
  exists ot, e. repeat split; try assumption.
  rewrite entry_set_entry_ne by (destruct Hne; [right | left]; congruence).
  rewrite column_set_entry_ne by lia. assumption.
Qed.

Lemma forward_first_spec (T : nat) (a0 : matrix) :
  length o_t = T -> (0 < T)%nat -> has_shape n T a0 ->
  exists a, forward_first n logPi emission o_t a0 = Ok a /\
            has_shape n T a /\
            forall i, (i < n)%nat -> initial_at logPi emission o_t a i.
Proof.
  intros HT Hpos Hshape. unfold forward_first.
  destruct (rfor_range_invariant
              (fun k a => has_shape n T a /\
                          forall i, Z.of_nat i < k -> initial_at logPi emission o_t a i)
              (fun i log_alpha_it =>
                 pi <~ getitem logPi i ;;
                 o0 <~ getitem o_t 0 ;;
                 e <~ emission i o0 ;;
                 setitem2 log_alpha_it i 0 (pi + e)%float)
              0 (Z.of_nat n) a0) as (a & Hrun & Hsh & Hinit).
  - lia.
  - split; [assumption |]. intros i Hi. lia.
  - intros k a [Hk0 Hk1] [Hsh Hdone].
    assert (k = Z.of_nat (Z.to_nat k)) as Hk by lia.
    set (i := Z.to_nat k) in *. rewrite Hk.
    assert (i < n)%nat as Hi by lia.
    destruct (lookup_lt_is_Some_2 logPi i) as [pi Hpi]; [lia |].
    destruct (lookup_lt_is_Some_2 o_t O) as [o0 Ho0]; [lia |].
    destruct (emission_returns i o0 Hi) as [e He].
    rewrite (getitem_nat logPi i pi Hpi). cbn.
    pose proof (getitem_nat o_t O o0 Ho0) as Hget.
    change (Z.of_nat 0) with 0 in Hget. rewrite Hget. cbn.
    rewrite He. cbn.
    pose proof (setitem2_nat n T a i O (pi + e)%float Hsh Hi Hpos) as Hset.
    change (Z.of_nat 0) with 0 in Hset. rewrite Hset.
    eexists. split; [reflexivity |]. split.
    + apply has_shape_set_entry. assumption.
    + intros i' Hi'.
      destruct (decide (i' = i)) as [->|Hne].
      * exists pi, o0, e. repeat split; try assumption.
        eapply entry_set_entry_eq; eassumption.
      * apply initial_at_set_entry; [left; assumption |].
        apply Hdone. lia.
  - exists a. split; [assumption |]. split; [assumption |].
    intros i Hi. apply Hinit. lia.
Qed.

Lemma forward_entry_spec (T : nat) (a : matrix) (t j : nat) :
  length o_t = T -> (1 <= t < T)%nat -> (j < n)%nat -> has_shape n T a ->
  exists e ot,
    o_t !! t = Some ot /\ emission (Z.of_nat j) ot = Ok e /\
    forward_entry logTij emission o_t (Z.of_nat t) (Z.of_nat j) a =
      Ok (set_entry a j t
            (logsumexp (zip_with PrimFloat.add (column a (t - 1)) (column logTij j)) + e)%float).
Proof.
  intros HT Ht Hj Hshape.
  destruct (lookup_lt_is_Some_2 o_t t) as [ot Hot]; [lia |].
  destruct (emission_returns j ot Hj) as [e He].
  exists e, ot. split; [assumption |]. split; [assumption |].
  unfold forward_entry.
  replace (Z.of_nat t - 1) with (Z.of_nat (t - 1)) by lia.
  rewrite (getcol_column n T a (t - 1)) by (assumption || lia). cbn.
  rewrite (getcol_column n n logTij j) by assumption. cbn.
  rewrite np_add_same_length
    by (rewrite !length_column; destruct Hshape, logTij_shape; congruence).
  cbn.
  assert (zip_with PrimFloat.add (column a (t - 1)) (column logTij j) <> []) as Hne.
  { intros Hnil. apply (f_equal length) in Hnil.
    rewrite length_zip_with, !length_column in Hnil.
    destruct Hshape as [Hla _], logTij_shape as [Hlt _]. cbn in Hnil. lia. }
  unfold scipy_logsumexp.
  destruct (zip_with PrimFloat.add (column a (t - 1)) (column logTij j)) as [|x xs] eqn:Hz;
    [contradiction |].
  cbn. rewrite (getitem_nat o_t t ot Hot). cbn. rewrite He. cbn.
  apply (setitem2_nat n T); (assumption || lia).
Qed.

Lemma forward_column_spec (T : nat) (a0 : matrix) (t : nat) :
  length o_t = T -> (1 <= t < T)%nat -> filled_to n logPi logTij emission o_t T a0 t 0 ->
  exists a,
    rfor (range 0 (Z.of_nat n))
      (fun j log_alpha_it => forward_entry logTij emission o_t (Z.of_nat t) j log_alpha_it)
      a0 = Ok a /\
    filled_to n logPi logTij emission o_t T a (t + 1) 0.
Proof.
  intros HT Ht Hfilled.
  destruct (rfor_range_invariant
              (fun k a => filled_to n logPi logTij emission o_t T a t (Z.to_nat k))
              (fun j log_alpha_it =>
                 forward_entry logTij emission o_t (Z.of_nat t) j log_alpha_it)
              0 (Z.of_nat n) a0) as (a & Hrun & Hinv).
  - lia.
  - assumption.
  - intros k a [Hk0 Hk1] (Hsh & Hinit & Hprev & Hcur).
    assert (exists j : nat, k = Z.of_nat j) as [j ->] by (exists (Z.to_nat k); lia).
    rewrite Nat2Z.id in Hcur.
    assert (j < n)%nat as Hj by lia.
    destruct (forward_entry_spec T a t j HT Ht Hj Hsh) as (e & ot & Hot & He & Hrun).
    rewrite Hrun. eexists. split; [reflexivity |].
    replace (Z.to_nat (Z.of_nat j + 1)) with (S j) by lia.
    split; [apply has_shape_set_entry; assumption |].
    split; [| split].
    + intros i Hi. apply initial_at_set_entry; [right; lia | apply Hinit; assumption].
    + intros t' j' Ht' Hj'. apply recurrence_at_set_entry; [lia | left; lia |].
      apply Hprev; assumption.
    + intros j' Hj'. destruct (decide (j' = j)) as [->|Hne].
      * exists ot, e. split; [assumption |]. split; [assumption |].
        rewrite column_set_entry_ne by lia.
        eapply entry_set_entry_eq; (eassumption || lia).
      * apply recurrence_at_set_entry; [lia | right; assumption |].
        apply Hcur. lia.
  - exists a. split; [assumption |].
    destruct Hinv as (Hsh & Hinit & Hprev & Hcur).
    rewrite Nat2Z.id in Hcur.
    split; [assumption |]. split; [assumption |]. split.
    + intros t' j' Ht' Hj'.
      destruct (decide (t' = t)) as [->|Hne]; [apply Hcur; assumption |].
      apply Hprev; [lia | assumption].
    + intros j' Hj'. lia.
Qed.

Lemma forward_rest_spec (T : nat) (a0 : matrix) :
  length o_t = T -> (0 < T)%nat -> filled_to n logPi logTij emission o_t T a0 1 0 ->
  exists a, forward_rest n logTij emission o_t a0 = Ok a /\ filled_to n logPi logTij emission o_t T a T 0.
Proof.
  intros HT Hpos Hfilled. unfold forward_rest. rewrite HT.
  destruct (rfor_range_invariant
              (fun k a => filled_to n logPi logTij emission o_t T a (Z.to_nat k) 0)
              (fun t log_alpha_it =>
                 rfor (range 0 (Z.of_nat n))
                   (fun j log_alpha_it =>
                      forward_entry logTij emission o_t t j log_alpha_it)
                   log_alpha_it)
              1 (Z.of_nat T) a0) as (a & Hrun & Hinv).
  - lia.
  - assumption.
  - intros k a [Hk0 Hk1] Hinv.
    assert (exists t : nat, k = Z.of_nat t) as [t ->] by (exists (Z.to_nat k); lia).
    rewrite Nat2Z.id in Hinv.
    destruct (forward_column_spec T a t HT ltac:(lia) Hinv) as (a' & Hrun & Hinv').
    exists a'. split; [assumption |].
    replace (Z.to_nat (Z.of_nat t + 1)) with (t + 1)%nat by lia. assumption.
  - exists a. rewrite Nat2Z.id in Hinv. split; assumption.
Qed.

End Forward.

Section ForwardInWorld.
Context `{Externals}.

Lemma emission_in_output (w : world) (m : HMM.t) (theta : OutputModel)
  (i : Z) (o : float) :
  heap w !! HMM.output_model m = Some (OutputObj theta) ->
  emission_in w m i o = output_log_emission theta i o.
Proof.
  intros Hout. unfold emission_in, log_emission_probability, bind, deref_output, lift.
  rewrite Hout. reflexivity.
Qed.

(** The forward pass as [_sampleHiddenStateTrajectory] calls it, in a world
    whose model is well formed. *)
Lemma forward_in_world (self : BHMM) (w : world) (m : HMM.t)
  (theta : OutputModel) (o_t : list float) :
  heap w !! model self = Some (HMMObj m) ->
  heap w !! HMM.output_model m = Some (OutputObj theta) ->
  (forall (i : nat) (o : float), (i < HMM.nstates m)%nat ->
     exists e, output_log_emission theta (Z.of_nat i) o = Ok e) ->
  length (HMM.logPi m) = HMM.nstates m ->
  has_shape (HMM.nstates m) (HMM.nstates m) (HMM.logTij m) ->
  (0 < length o_t)%nat ->
  exists log_alpha : matrix,
    forward (HMM.nstates m) (HMM.logPi m) (HMM.logTij m) (emission_in w m) o_t
      = Ok log_alpha /\
    has_shape (HMM.nstates m) (length o_t) log_alpha /\
    (forall i, (i < HMM.nstates m)%nat ->
       initial_at (HMM.logPi m) (output_log_emission theta) o_t log_alpha i) /\
    (forall t j, (1 <= t < length o_t)%nat -> (j < HMM.nstates m)%nat ->
       recurrence_at (HMM.logTij m) (output_log_emission theta) o_t log_alpha t j) /\
    _sampleHiddenStateTrajectory self o_t w =
      backward_sampling (HMM.nstates m) log_alpha (HMM.logTij m) (length o_t) w.
Proof.
  intros Hmodel Hout Hemit Hpi Hshape Hpos.
  assert (forall (i : nat) (o : float), (i < HMM.nstates m)%nat ->
            exists e, emission_in w m (Z.of_nat i) o = Ok e) as Hemit'.
  { intros i o Hi. rewrite (emission_in_output w m theta) by assumption.
    apply Hemit. assumption. }
  destruct (forward_first_spec (HMM.nstates m) (HMM.logPi m) (emission_in w m) o_t
              Hpi Hemit' (length o_t) (np_zeros2 (HMM.nstates m) (length o_t))
              eq_refl Hpos (has_shape_zeros _ _)) as (a1 & Hfirst & Hsh1 & Hinit1).
  destruct (forward_rest_spec (HMM.nstates m) (HMM.logPi m) (HMM.logTij m)
              (emission_in w m) o_t Hpi Hshape Hemit' (length o_t) a1 eq_refl Hpos)
    as (a & Hrest & Hsh & Hinit & Hrec & _).
  { split; [assumption |]. split; [assumption |]. split; intros; lia. }
  assert (forward (HMM.nstates m) (HMM.logPi m) (HMM.logTij m) (emission_in w m) o_t
          = Ok a) as Hforward.
  { unfold forward. rewrite Hfirst. cbn. assumption. }
  exists a. split; [assumption |]. split; [assumption |].
  split; [| split].
  - intros i Hi. destruct (Hinit i Hi) as (pi & o0 & e & Hpi' & Ho & He & Hentry).
    exists pi, o0, e. repeat split; try assumption.
    rewrite <- (emission_in_output w m theta) by assumption. assumption.
  - intros t j Ht Hj. destruct (Hrec t j Ht Hj) as (ot & e & Ho & He & Hentry).
    exists ot, e. repeat split; try assumption.
    rewrite <- (emission_in_output w m theta) by assumption. assumption.
  - unfold _sampleHiddenStateTrajectory, bind, deref_HMM.
    rewrite Hmodel. cbv beta iota. rewrite Hforward. reflexivity.
Qed.

(** C3: for an observation sequence of length [T >= 1], the forward pass of
    [_sampleHiddenStateTrajectory] returns an [nstates x T] array with
    [log_alpha[i,0] = logPi[i] + log_emission(i, o[0])] for every state [i]
    and, for [1 <= t < T] and every state [j],
    [log_alpha[j,t] = logsumexp(log_alpha[:,t-1] + logTij[:,j])
    + log_emission(j, o[t])]; the sampler goes on from this array. *)
Theorem forward_pass_recurrence (self : BHMM) (w : world) (m : HMM.t)
  (theta : OutputModel) (o_t : list float) :
  heap w !! model self = Some (HMMObj m) ->
  heap w !! HMM.output_model m = Some (OutputObj theta) ->
  (forall (i : nat) (o : float), (i < HMM.nstates m)%nat ->
     exists e, output_log_emission theta (Z.of_nat i) o = Ok e) ->
  length (HMM.logPi m) = HMM.nstates m ->
  has_shape (HMM.nstates m) (HMM.nstates m) (HMM.logTij m) ->
  (0 < length o_t)%nat ->
  exists log_alpha : matrix,
    forward (HMM.nstates m) (HMM.logPi m) (HMM.logTij m) (emission_in w m) o_t
      = Ok log_alpha /\
    has_shape (HMM.nstates m) (length o_t) log_alpha /\
    (forall i, (i < HMM.nstates m)%nat ->
       initial_at (HMM.logPi m) (output_log_emission theta) o_t log_alpha i) /\
    (forall t j, (1 <= t < length o_t)%nat -> (j < HMM.nstates m)%nat ->
       recurrence_at (HMM.logTij m) (output_log_emission theta) o_t log_alpha t j) /\
    _sampleHiddenStateTrajectory self o_t w =
      backward_sampling (HMM.nstates m) log_alpha (HMM.logTij m) (length o_t) w.
Proof. apply forward_in_world. Qed.

End ForwardInWorld.

(** ** The backward pass *)

Section Backward.
Context `{Externals}.

Lemma column_lookup (n T : nat) (a : matrix) (i t : nat) :
  has_shape n T a -> (i < n)%nat -> (t < T)%nat ->
  column a t !! i = entry a i t.
Proof.
  intros Hshape Hi Ht.
  destruct (has_shape_lookup n T a i Hshape Hi) as (row & Hrow & Hlen).
  unfold column, entry. rewrite list_lookup_fmap, Hrow. cbn.
  destruct (lookup_lt_is_Some_2 row t) as [x Hx]; [lia |].
  rewrite Hx. reflexivity.
Qed.

Lemma astype_int32_small (k : Z) : 0 <= k < 2 ^ 31 -> astype_int32 k = k.
Proof.
  intros Hk. unfold astype_int32.
  rewrite Z.mod_small by lia. lia.
Qed.

Lemma mfor_nil {A S : Type} (body : A -> S -> M S) (s : S) (w : world) :
  mfor [] body s w = (Ok s, w).
Proof. reflexivity. Qed.

Lemma mfor_cons {A S : Type} (x : A) (xs : list A) (body : A -> S -> M S)
  (s : S) (w : world) :
  mfor (x :: xs) body s w = (s' <- body x s ;; mfor xs body s') w.
Proof. reflexivity. Qed.

Lemma bind_lift_Ok {A B : Type} (a : A) (k : A -> M B) :
  bind (lift (Ok a)) k = k a.
Proof. reflexivity. Qed.

Lemma bind_ret {A B : Type} (a : A) (k : A -> M B) : bind (ret a) k = k a.
Proof. reflexivity. Qed.

(** The final state: one draw from the normalised last column. *)
Lemma sample_final_spec (n T : nat) (log_alpha : matrix) (s_t : list Z) (w : world) :
  has_shape n T log_alpha -> (0 < T)%nat -> length s_t = T ->
  sample_final n log_alpha (Z.of_nat T) s_t w =
    (k <- draw_state n (column log_alpha (T - 1)) ;;
     ret (<[(T - 1)%nat := astype_int32 (Z.of_nat k)]> s_t)) w.
Proof.
  intros Hshape Hpos Hlen. unfold sample_final, draw_state.
  replace (Z.of_nat T - 1) with (Z.of_nat (T - 1)) by lia.
  rewrite (getcol_column n T) by (assumption || lia).
  unfold bind, lift, ret.
  destruct (scipy_logsumexp (column log_alpha (T - 1))) as [e|lse]; [reflexivity |].
  destruct (with_np_random (random_choice n (normalized (column log_alpha (T - 1)) lse)) w)
    as [[e|k] w']; [reflexivity |].
  rewrite setitem_nat by lia. reflexivity.
Qed.

(** One step backwards: with the state at [t+1] in place, the state at [t]
    is one draw from [log_alpha[:,t] + logTij[:, s[t+1]]], normalised. *)
Lemma sample_previous_spec (n T : nat) (log_alpha logTij : matrix)
  (t s_next : nat) (fixed : list Z) (w : world) :
  has_shape n T log_alpha -> has_shape n n logTij ->
  (t < T)%nat -> (s_next < n)%nat ->
  sample_previous n log_alpha logTij (Z.of_nat t)
    (replicate (S t) 0 ++ Z.of_nat s_next :: fixed) w =
    (k <- draw_state n
            (zip_with PrimFloat.add (column log_alpha t) (column logTij s_next)) ;;
     ret (replicate t 0 ++ astype_int32 (Z.of_nat k) :: Z.of_nat s_next :: fixed)) w.
Proof.
  intros Hshape HshapeT Ht Hs. unfold sample_previous, draw_state.
  rewrite (getcol_column n T) by assumption. rewrite bind_lift_Ok.
  replace (Z.of_nat t + 1) with (Z.of_nat (S t)) by lia.
  rewrite (getitem_nat _ (S t) (Z.of_nat s_next)).
  2:{ rewrite lookup_app_r by (rewrite length_replicate; lia).
      rewrite length_replicate, Nat.sub_diag. reflexivity. }
  rewrite bind_lift_Ok.
  rewrite (getcol_column n n) by assumption. rewrite bind_lift_Ok.
  rewrite np_add_same_length
    by (rewrite !length_column; destruct Hshape, HshapeT; congruence).
  rewrite bind_lift_Ok.
  unfold bind, lift, ret.
  destruct (scipy_logsumexp _) as [e|lse]; [reflexivity |].
  destruct (with_np_random _ w) as [[e|k] w']; [reflexivity |].
  rewrite setitem_nat by (rewrite length_app, length_replicate; lia).
  do 2 f_equal.
  replace (S t) with (t + 1)%nat by lia.
  rewrite replicate_add, <- app_assoc. cbn [replicate app].
  rewrite insert_app_r_alt by (rewrite length_replicate; lia).
  rewrite length_replicate, Nat.sub_diag. reflexivity.
Qed.

(** The draw of the code, spelled out: the probabilities handed to [choice]
    are [exp(log_p - logsumexp(log_p))], entry by entry; without states the
    log-sum-exp raises. *)
Lemma draw_state_spelled_out (n : nat) (log_p : list float) (w : world) :
  draw_state n log_p w =
  match log_p with
  | [] => raise ValueError w
  | _ :: _ =>
      with_np_random
        (random_choice n (map (fun x => np_exp (x - logsumexp log_p)%float) log_p)) w
  end.
Proof. destruct log_p; reflexivity. Qed.

Lemma draw_previous_ext (d1 d2 : list float -> M nat) (log_alpha logTij : matrix)
  (t s_next : nat) (w : world) :
  (forall log_p w0, d1 log_p w0 = d2 log_p w0) ->
  draw_previous d1 log_alpha logTij t s_next w
  = draw_previous d2 log_alpha logTij t s_next w.
Proof.
  intros Hsame. revert s_next w. induction t as [|t IH]; intros s_next w;
    cbn [draw_previous]; [reflexivity |].
  unfold bind. rewrite Hsame.
  destruct (d2 _ w) as [[e|s] w1]; [reflexivity |].
  rewrite IH. reflexivity.
Qed.

Lemma draw_trajectory_ext (d1 d2 : list float -> M nat) (log_alpha logTij : matrix)
  (T : nat) (w : world) :
  (forall log_p w0, d1 log_p w0 = d2 log_p w0) ->
  draw_trajectory d1 log_alpha logTij T w = draw_trajectory d2 log_alpha logTij T w.
Proof.
  intros Hsame. unfold draw_trajectory, bind. rewrite Hsame.
  destruct (d2 _ w) as [[e|s] w1]; [reflexivity |].
  rewrite (draw_previous_ext d1 d2) by exact Hsame. reflexivity.
Qed.

End Backward.

Section BackwardDraws.
Context `{Externals}.

Variables (n T : nat) (log_alpha logTij : matrix).

(** numpy's contract for [choice]: the draw is an element of [range(n)]. *)
Hypothesis random_choice_in_range :
  forall (p : list float) (g g' : RandomState) (k : nat),
    random_choice n p g = (Ok k, g') -> (k < n)%nat.
(** The states fit the trajectory's [int32] entries. *)
Hypothesis nstates_int32 : Z.of_nat n < 2 ^ 31.
Hypothesis log_alpha_shape : has_shape n T log_alpha.
Hypothesis logTij_shape : has_shape n n logTij.

Lemma draw_state_in_range (log_p : list float) (w w' : world) (k : nat) :
  draw_state n log_p w = (Ok k, w') -> (k < n)%nat.
Proof using random_choice_in_range.
  unfold draw_state, bind, lift, with_np_random.
  destruct (scipy_logsumexp log_p) as [e|lse]; [discriminate |].
  destruct (random_choice n (normalized log_p lse) (np_random w)) as [r g] eqn:Hdraw.
  intros Heq. injection Heq as -> _.
  eapply random_choice_in_range. eassumption.
Qed.

Lemma backward_loop_spec (t s_next : nat) (fixed : list Z) (w : world) :
  (t < T)%nat -> (s_next < n)%nat ->
  mfor (range_down (Z.of_nat t - 1) (-1))
    (fun t s_t => sample_previous n log_alpha logTij t s_t)
    (replicate t 0 ++ Z.of_nat s_next :: fixed) w =
  (earlier <- draw_previous (draw_state n) log_alpha logTij t s_next ;;
   ret (map Z.of_nat earlier ++ Z.of_nat s_next :: fixed)) w.
Proof using All.
  revert s_next fixed w. induction t as [|t' IH]; intros s_next fixed w Ht Hs.
  - rewrite range_down_nil by lia. reflexivity.
  - replace (Z.of_nat (S t') - 1) with (Z.of_nat t') by lia.
    rewrite range_down_cons by lia. rewrite mfor_cons.
    cbn [draw_previous]. unfold bind.
    rewrite (sample_previous_spec n T) by (assumption || lia).
    unfold bind.
    destruct (draw_state n _ w) as [[e|k] w'] eqn:Hdraw; [reflexivity |].
    assert (k < n)%nat as Hk by (eapply draw_state_in_range; eassumption).
    unfold ret at 1. rewrite astype_int32_small by lia.
    rewrite IH by lia.
    unfold bind.
    destruct (draw_previous (draw_state n) log_alpha logTij t' k w') as [[e|earlier] w''];
      [reflexivity |].
    unfold ret. rewrite map_app, <- app_assoc. reflexivity.
Qed.

(** The array-filling loops of the backward part are the chain of draws
    [draw_trajectory], each made as the code makes it. *)
Lemma backward_sampling_chain (w : world) :
  (0 < T)%nat ->
  backward_sampling n log_alpha logTij T w =
    (s <- draw_trajectory (draw_state n) log_alpha logTij T ;;
     ret (map Z.of_nat s)) w.
Proof using All.
  intros Hpos. unfold backward_sampling, draw_trajectory, bind.
  rewrite (sample_final_spec n T) by (assumption || apply length_replicate).
  unfold bind.
  destruct (draw_state n (column log_alpha (T - 1)) w) as [[e|k] w'] eqn:Hdraw;
    [reflexivity |].
  assert (k < n)%nat as Hk by (eapply draw_state_in_range; eassumption).
  unfold ret at 1. rewrite astype_int32_small by lia.
  replace (<[(T - 1)%nat := Z.of_nat k]> (replicate T 0))
    with (replicate (T - 1) 0 ++ Z.of_nat k :: []).
  2:{ replace T with ((T - 1) + 1)%nat at 3 by lia.
      rewrite replicate_add. cbn [replicate].
      rewrite insert_app_r_alt by (rewrite length_replicate; lia).
      rewrite length_replicate, Nat.sub_diag. reflexivity. }
  replace (Z.of_nat T - 2) with (Z.of_nat (T - 1) - 1) by lia.
  rewrite backward_loop_spec by lia.
  unfold bind.
  destruct (draw_previous (draw_state n) log_alpha logTij (T - 1) k w')
    as [[e|earlier] w'']; [reflexivity |].
  unfold ret. rewrite map_app. reflexivity.
Qed.

(** C4: the backward pass draws [s[T-1]] from the categorical distribution
    with the probabilities [exp(log_alpha[:,T-1] - logsumexp(log_alpha[:,T-1]))]
    and then, for [t = T-2] down to [0], [s[t]] from the one with the
    probabilities [exp(log_p - logsumexp(log_p))], where
    [log_p[i] = log_alpha[i,t] + logTij[i, s[t+1]]]: it is the chain of draws
    [draw_trajectory] with every draw made by [choice] on that vector, and
    raises exactly when a draw does. *)
Theorem backward_sampling_draws (w : world) :
  (0 < T)%nat ->
  backward_sampling n log_alpha logTij T w =
    (s <- draw_trajectory
            (fun log_p =>
               match log_p with
               | [] => raise ValueError
               | _ :: _ =>
                   with_np_random
                     (random_choice n
                        (map (fun x => np_exp (x - logsumexp log_p)%float) log_p))
               end)
            log_alpha logTij T ;;
     ret (map Z.of_nat s)) w.
Proof using All.
  intros Hpos. rewrite backward_sampling_chain by exact Hpos.
  unfold bind.
  rewrite (draw_trajectory_ext (draw_state n)
             (fun log_p =>
                match log_p with
                | [] => raise ValueError
                | _ :: _ =>
                    with_np_random
                      (random_choice n
                         (map (fun x => np_exp (x - logsumexp log_p)%float) log_p))
                end)).
  - reflexivity.
  - intros log_p w0. rewrite draw_state_spelled_out. destruct log_p; reflexivity.
Qed.

End BackwardDraws.

Section SingleObservation.
Context `{Externals}.

(** C9: for an observation sequence of length 1 the forward recursion and the
    backward loop do not run: whatever [logTij] is, the result is the single
    state [choice] draws with the probabilities
    [exp(log_alpha[:,0] - logsumexp(log_alpha[:,0]))], where
    [log_alpha[i,0] = logPi[i] + log_emission(i, o[0])]; only the two library
    calls of that draw can raise, the log-sum-exp doing so for a model
    without states. *)
Theorem single_observation_sampled_directly (self : BHMM) (w : world)
  (m : HMM.t) (theta : OutputModel) (o : float) :
  heap w !! model self = Some (HMMObj m) ->
  heap w !! HMM.output_model m = Some (OutputObj theta) ->
  (forall (i : nat) (o' : float), (i < HMM.nstates m)%nat ->
     exists e, output_log_emission theta (Z.of_nat i) o' = Ok e) ->
  length (HMM.logPi m) = HMM.nstates m ->
  exists log_alpha0 : list float,
    length log_alpha0 = HMM.nstates m /\
    (forall i, (i < HMM.nstates m)%nat ->
       exists pi e,
         HMM.logPi m !! i = Some pi /\
         output_log_emission theta (Z.of_nat i) o = Ok e /\
         log_alpha0 !! i = Some (pi + e)%float) /\
    _sampleHiddenStateTrajectory self [o] w =
      match log_alpha0 with
      | [] => (Raise ValueError, w)
      | _ :: _ =>
          (k <- with_np_random
                  (random_choice (HMM.nstates m)
                     (map (fun x => np_exp (x - logsumexp log_alpha0)%float)
                        log_alpha0)) ;;
           ret [astype_int32 (Z.of_nat k)]) w
      end.
Proof.
  intros Hmodel Hout Hemit Hpi.
  assert (forall (i : nat) (o' : float), (i < HMM.nstates m)%nat ->
            exists e, emission_in w m (Z.of_nat i) o' = Ok e) as Hemit'.
  { intros i o' Hi. rewrite (emission_in_output w m theta) by assumption.
    apply Hemit. assumption. }
  destruct (forward_first_spec (HMM.nstates m) (HMM.logPi m) (emission_in w m) [o]
              Hpi Hemit' 1%nat (np_zeros2 (HMM.nstates m) 1)
              eq_refl ltac:(lia) (has_shape_zeros _ _)) as (a1 & Hfirst & Hsh1 & Hinit1).
  exists (column a1 0). split; [| split].
  - rewrite length_column. destruct Hsh1. assumption.
  - intros i Hi. destruct (Hinit1 i Hi) as (pi & o0 & e & Hpi' & Ho & He & Hentry).
    cbn in Ho. injection Ho as <-.
    exists pi, e. split; [assumption |]. split.
    + rewrite <- (emission_in_output w m theta) by assumption. assumption.
    + rewrite (column_lookup (HMM.nstates m) 1) by (assumption || lia). assumption.
  - unfold _sampleHiddenStateTrajectory, bind, deref_HMM.
    rewrite Hmodel. cbv beta iota.
    unfold forward, forward_rest. cbn [length] in *. rewrite Hfirst.
    change (range 1 (Z.of_nat 1)) with (@nil Z). cbn [rbind rfor].
    unfold backward_sampling, bind.
    rewrite (sample_final_spec (HMM.nstates m) 1) by (assumption || reflexivity || lia).
    unfold bind. cbn [Nat.sub]. rewrite draw_state_spelled_out.
    destruct (column a1 0) as [|x rest]; [reflexivity |].
    destruct (with_np_random _ w) as [[e|k] w']; reflexivity.
Qed.

End SingleObservation.

(** ** What the trajectory sampler reads and writes *)

Section DrawsOnly.
Context `{Externals}.

Lemma draws_only_ret {A : Type} (a : A) : draws_only (ret a).
Proof.
  intros w. exists (Ok a), (np_random w). split.
  - destruct w. reflexivity.
  - intros w' Heq. rewrite <- Heq. destruct w'. reflexivity.
Qed.

Lemma draws_only_lift {A : Type} (r : result A) : draws_only (lift r).
Proof.
  intros w. exists r, (np_random w). split.
  - destruct w. reflexivity.
  - intros w' Heq. rewrite <- Heq. destruct w'. reflexivity.
Qed.

Lemma draws_only_with_np_random {A : Type}
  (f : RandomState -> result A * RandomState) : draws_only (with_np_random f).
Proof.
  intros w. unfold with_np_random.
  destruct (f (np_random w)) as [r g] eqn:Hf. exists r, g. split; [reflexivity |].
  intros w' Heq. rewrite Heq, Hf. reflexivity.
Qed.

Lemma draws_only_bind {A B : Type} (c : M A) (k : A -> M B) :
  draws_only c -> (forall a, draws_only (k a)) -> draws_only (bind c k).
Proof.
  intros Hc Hk w. unfold bind.
  destruct (Hc w) as (r & g & Hrun & Hsame). rewrite Hrun.
  destruct r as [e|a].
  - exists (inl e), g. split; [reflexivity |].
    intros w' Heq. rewrite (Hsame w' Heq). reflexivity.
  - destruct (Hk a (World (heap w) g)) as (r2 & g2 & Hrun2 & Hsame2).
    exists r2, g2. split; [assumption |].
    intros w' Heq. rewrite (Hsame w' Heq).
    apply (Hsame2 (World (heap w') g)). reflexivity.
Qed.

Lemma draws_only_mfor {A S : Type} (xs : list A) (body : A -> S -> M S) (s : S) :
  (forall x s0, draws_only (body x s0)) -> draws_only (mfor xs body s).
Proof.
  intros Hbody. revert s. induction xs as [|x xs IH]; intros s; cbn [mfor].
  - apply draws_only_ret.
  - apply draws_only_bind; [apply Hbody | assumption].
Qed.

Lemma draws_only_sample_final (n : nat) (log_alpha : matrix) (T : Z) (s_t : list Z) :
  draws_only (sample_final n log_alpha T s_t).
Proof.
  unfold sample_final.
  repeat (apply draws_only_bind; [first [apply draws_only_lift | apply draws_only_with_np_random] | intros ?]).
  apply draws_only_lift.
Qed.

Lemma draws_only_sample_previous (n : nat) (log_alpha logTij : matrix) (t : Z)
  (s_t : list Z) :
  draws_only (sample_previous n log_alpha logTij t s_t).
Proof.
  unfold sample_previous.
  repeat (apply draws_only_bind; [first [apply draws_only_lift | apply draws_only_with_np_random] | intros ?]).
  apply draws_only_lift.
Qed.

Lemma draws_only_backward_sampling (n : nat) (log_alpha logTij : matrix) (T : nat) :
  draws_only (backward_sampling n log_alpha logTij T).
Proof.
  unfold backward_sampling.
  apply draws_only_bind; [apply draws_only_sample_final | intros s_t].
  apply draws_only_bind; [| intros ?; apply draws_only_ret].
  apply draws_only_mfor. intros t s0. apply draws_only_sample_previous.
Qed.

Lemma rfor_ext {A S : Type} (xs : list A) (f g : A -> S -> result S) (s : S) :
  (forall x s0, f x s0 = g x s0) -> rfor xs f s = rfor xs g s.
Proof.
  intros Hfg. revert s. induction xs as [|x xs IH]; intros s; cbn; [reflexivity |].
  rewrite Hfg. destruct (g x s); cbn; [reflexivity | apply IH].
Qed.

Lemma forward_ext (n : nat) (logPi : list float) (logTij : matrix)
  (e1 e2 : Z -> float -> result float) (o_t : list float) :
  (forall i o, e1 i o = e2 i o) ->
  forward n logPi logTij e1 o_t = forward n logPi logTij e2 o_t.
Proof.
  intros He. unfold forward, forward_first, forward_rest.
  rewrite (rfor_ext _ _
             (fun i log_alpha_it =>
                pi <~ getitem logPi i ;;
                o0 <~ getitem o_t 0 ;;
                e <~ e2 i o0 ;;
                setitem2 log_alpha_it i 0 (pi + e)%float)).
  2:{ intros i a.
      destruct (getitem logPi i) as [e|pi]; cbn [rbind]; [reflexivity |].
      destruct (getitem o_t 0) as [e|o0]; cbn [rbind]; [reflexivity |].
      rewrite He. reflexivity. }
  destruct (rfor _ _ _) as [e|a]; cbn [rbind]; [reflexivity |].
  apply rfor_ext. intros t a'. apply rfor_ext. intros j a''.
  unfold forward_entry.
  destruct (getcol a'' (t - 1)) as [e|prev]; cbn [rbind]; [reflexivity |].
  destruct (getcol logTij j) as [e|tj]; cbn [rbind]; [reflexivity |].
  destruct (np_add prev tj) as [e|s]; cbn [rbind]; [reflexivity |].
  destruct (scipy_logsumexp s) as [e|lse]; cbn [rbind]; [reflexivity |].
  destruct (getitem o_t t) as [e|ot]; cbn [rbind]; [reflexivity |].
  rewrite He. reflexivity.
Qed.

End DrawsOnly.

Section Determinism.
Context `{Externals}.

Lemma emission_in_same_output (w1 w2 : world) (m : HMM.t) (i : Z) (o : float) :
  heap w1 !! HMM.output_model m = heap w2 !! HMM.output_model m ->
  emission_in w1 m i o = emission_in w2 m i o.
Proof.
  intros Heq. unfold emission_in, log_emission_probability, bind, deref_output, lift.
  rewrite Heq. destruct (heap w2 !! HMM.output_model m) as [[m'|theta|ts]|]; reflexivity.
Qed.

(** The store is not written by the trajectory sampler. *)
Lemma _sampleHiddenStateTrajectory_heap (self : BHMM) (o_t : list float) (w : world) :
  heap (snd (_sampleHiddenStateTrajectory self o_t w)) = heap w.
Proof.
  unfold _sampleHiddenStateTrajectory, bind, deref_HMM.
  destruct (heap w !! model self) as [[m|theta|ts]|]; try reflexivity.
  destruct (forward _ _ _ _ _) as [e|log_alpha]; [reflexivity |].
  destruct (draws_only_backward_sampling (HMM.nstates m) log_alpha (HMM.logTij m)
              (length o_t) w) as (r & g & Hrun & _).
  rewrite Hrun. reflexivity.
Qed.

(** C7, as the code has it: the categorical draws consume the state of
    numpy's global generator, which the sampler finds in the world and is
    not handed as an argument.  The trajectory is determined by the model
    object, its output model, the observations and the state the generator
    is in at the call: two calls that start from the same generator state
    (as after seeding it with the same seed) return the same trajectory and
    leave the generator in the same state, and neither writes the store. *)
Theorem trajectory_determined_by_generator_state (self : BHMM)
  (o_t : list float) (w1 w2 : world) :
  heap w1 !! model self = heap w2 !! model self ->
  (forall m, heap w1 !! model self = Some (HMMObj m) ->
     heap w1 !! HMM.output_model m = heap w2 !! HMM.output_model m) ->
  np_random w1 = np_random w2 ->
  fst (_sampleHiddenStateTrajectory self o_t w1)
    = fst (_sampleHiddenStateTrajectory self o_t w2) /\
  np_random (snd (_sampleHiddenStateTrajectory self o_t w1))
    = np_random (snd (_sampleHiddenStateTrajectory self o_t w2)) /\
  heap (snd (_sampleHiddenStateTrajectory self o_t w1)) = heap w1 /\
  heap (snd (_sampleHiddenStateTrajectory self o_t w2)) = heap w2.
Proof.
  intros Hmodel Hout Hgen.
  split; [| split; [| split; apply _sampleHiddenStateTrajectory_heap]];
    unfold _sampleHiddenStateTrajectory, bind, deref_HMM; rewrite <- Hmodel;
    (destruct (heap w1 !! model self) as [[m|theta|ts]|] eqn:Hm;
       [| cbn; congruence ..]);
    rewrite (forward_ext _ _ _ (emission_in w1 m) (emission_in w2 m))
      by (intros i o; apply emission_in_same_output, Hout; reflexivity);
    (destruct (forward _ _ _ (emission_in w2 m) o_t) as [e|log_alpha];
       [cbn; congruence |]);
    destruct (draws_only_backward_sampling (HMM.nstates m) log_alpha (HMM.logTij m)
                (length o_t) w1) as (r & g & Hrun & Hsame);
    rewrite Hrun, (Hsame w2) by congruence; reflexivity.
Qed.

End Determinism.

(** ** Footprints *)

Section Footprints.
Context {externals : Externals}.

Lemma live_same_model (self : BHMM) (w w' : world) :
  heap w' !! model self = heap w !! model self -> live self w' = live self w.
Proof. intros Heq. unfold live, objects_of. rewrite Heq. reflexivity. Qed.

Lemma frame_refl (self : BHMM) (w : world) : frame self w w.
Proof. split; [set_solver | reflexivity | set_solver]. Qed.

Lemma frame_same_heap (self : BHMM) (w w' : world) :
  heap w' = heap w -> frame self w w'.
Proof.
  intros Heq. split.
  - rewrite Heq. set_solver.
  - intros l _ _. rewrite Heq. reflexivity.
  - rewrite (live_same_model self w w') by (rewrite Heq; reflexivity). set_solver.
Qed.

Lemma frame_trans (self : BHMM) (w1 w2 w3 : world) :
  frame self w1 w2 -> frame self w2 w3 -> frame self w1 w3.
Proof.
  intros [Hdom12 Hkeep12 Hlive12] [Hdom23 Hkeep23 Hlive23]. split.
  - set_solver.
  - intros l Hl Hnot. rewrite Hkeep23; [apply Hkeep12; assumption | set_solver | set_solver].
  - set_solver.
Qed.

(** A sequence is within the footprint when its first part is, and the rest
    is from every world the first part can return in. *)
Lemma frame_bind {A B : Type} (self : BHMM) (c : M A) (k : A -> M B) (w : world) :
  frame self w (snd (c w)) ->
  (forall a w1, c w = (Ok a, w1) -> frame self w1 (snd (k a w1))) ->
  frame self w (snd (bind c k w)).
Proof.
  intros Hc Hk. unfold bind. destruct (c w) as [[e|a] w1] eqn:Hrun.
  - exact Hc.
  - eapply frame_trans; [exact Hc | apply Hk; reflexivity].
Qed.

Lemma frame_mfor {A S : Type} (self : BHMM) (xs : list A) (body : A -> S -> M S)
  (s : S) (w : world) :
  (forall x s0 w0, frame self w0 (snd (body x s0 w0))) ->
  frame self w (snd (mfor xs body s w)).
Proof.
  intros Hbody. revert s w. induction xs as [|x xs IH]; intros s w; cbn [mfor].
  - apply frame_refl.
  - apply frame_bind; [apply Hbody | intros s1 w1 _; apply IH].
Qed.

(** Writing an object of the live model other than the [HMM] object. *)
Lemma frame_store_live (self : BHMM) (w : world) (l : loc) (o : obj) (g : RandomState) :
  l ∈ live self w -> l <> model self ->
  frame self w (World (<[l := o]> (heap w)) g).
Proof.
  intros Hlive Hne. split; cbn [heap].
  - rewrite dom_insert_L. set_solver.
  - intros l0 Hl0 Hnot. rewrite lookup_insert_ne; [reflexivity |]. set_solver.
  - rewrite (live_same_model self w (World (<[l := o]> (heap w)) g)).
    + set_solver.
    + cbn [heap]. rewrite lookup_insert_ne by assumption. reflexivity.
Qed.

(** Rebinding attributes of the live [HMM] object, its references apart. *)
Lemma frame_store_model (self : BHMM) (w : world) (m m' : HMM.t) (g : RandomState) :
  heap w !! model self = Some (HMMObj m) ->
  HMM.output_model m' = HMM.output_model m ->
  HMM.hidden_state_trajectories m' = HMM.hidden_state_trajectories m ->
  frame self w (World (<[model self := HMMObj m']> (heap w)) g).
Proof.
  intros Hm Hout Htraj. split; cbn [heap].
  - rewrite dom_insert_L. set_solver.
  - intros l0 Hl0 Hnot. rewrite lookup_insert_ne; [reflexivity |].
    unfold live, objects_of in Hnot. set_solver.
  - unfold live, objects_of. cbn [heap]. rewrite lookup_insert_eq, Hm, Hout, Htraj. set_solver.
Qed.

(** Making an object where there was none. *)
Lemma frame_new (self : BHMM) (w : world) (l : loc) (o : obj) (g : RandomState) :
  l ∉ dom (heap w) ->
  model self ∈ dom (heap w) \/ (forall m, o <> HMMObj m) ->
  frame self w (World (<[l := o]> (heap w)) g).
Proof.
  intros Hfresh Hcase. split; cbn [heap].
  - rewrite dom_insert_L. set_solver.
  - intros l0 Hl0 Hnot. rewrite lookup_insert_ne; [reflexivity |]. set_solver.
  - destruct (decide (l = model self)) as [->|Hne].
    + destruct Hcase as [Hin|Hobj]; [contradiction |].
      unfold live, objects_of at 1. cbn [heap]. rewrite lookup_insert_eq.
      destruct o as [m|theta|ts]; [exfalso; eapply Hobj; reflexivity | |];
        unfold live, objects_of; set_solver.
    + rewrite (live_same_model self w (World (<[l := o]> (heap w)) g)).
      * set_solver.
      * cbn [heap]. rewrite lookup_insert_ne by assumption. reflexivity.
Qed.

Lemma frame_alloc (self : BHMM) (w : world) (o : obj) :
  model self ∈ dom (heap w) \/ (forall m, o <> HMMObj m) ->
  frame self w (snd (alloc o w)).
Proof.
  intros Hcase. unfold alloc. cbn [snd].
  apply frame_new; [apply is_fresh | assumption].
Qed.

Lemma frame_draws_only {A : Type} (self : BHMM) (c : M A) (w : world) :
  draws_only c -> frame self w (snd (c w)).
Proof.
  intros Hc. destruct (Hc w) as (r & g & Hrun & _). rewrite Hrun.
  apply frame_same_heap. reflexivity.
Qed.

End Footprints.

Section SweepFootprint.
Context {externals : Externals}.

Lemma deref_HMM_inv (l : loc) (w w1 : world) (m : HMM.t) :
  deref_HMM l w = (Ok m, w1) -> w1 = w /\ heap w !! l = Some (HMMObj m).
Proof.
  unfold deref_HMM. destruct (heap w !! l) as [[m0|theta|ts]|]; intros Heq;
    try discriminate.
  injection Heq as -> ->. split; reflexivity.
Qed.

Lemma deref_output_inv (l : loc) (w w1 : world) (theta : OutputModel) :
  deref_output l w = (Ok theta, w1) -> w1 = w /\ heap w !! l = Some (OutputObj theta).
Proof.
  unfold deref_output. destruct (heap w !! l) as [[m0|theta0|ts]|]; intros Heq;
    try discriminate.
  injection Heq as -> ->. split; reflexivity.
Qed.

Lemma deref_list_inv (l : loc) (w w1 : world) (ts : list (list Z)) :
  deref_list l w = (Ok ts, w1) -> w1 = w /\ heap w !! l = Some (ListObj ts).
Proof.
  unfold deref_list. destruct (heap w !! l) as [[m0|theta0|ts0]|]; intros Heq;
    try discriminate.
  injection Heq as -> ->. split; reflexivity.
Qed.

Lemma deref_HMM_world (l : loc) (w : world) : snd (deref_HMM l w) = w.
Proof. unfold deref_HMM. destruct (heap w !! l) as [[m0|theta|ts]|]; reflexivity. Qed.

Lemma deref_output_world (l : loc) (w : world) : snd (deref_output l w) = w.
Proof. unfold deref_output. destruct (heap w !! l) as [[m0|theta|ts]|]; reflexivity. Qed.

Lemma deref_list_world (l : loc) (w : world) : snd (deref_list l w) = w.
Proof. unfold deref_list. destruct (heap w !! l) as [[m0|theta|ts]|]; reflexivity. Qed.

Lemma reads_only_bind {A B : Type} (c : M A) (k : A -> M B) :
  reads_only c -> (forall a, reads_only (k a)) -> reads_only (bind c k).
Proof.
  intros Hc Hk w. unfold bind. specialize (Hc w).
  destruct (c w) as [[e|a] w1]; cbn [snd] in *; subst w1; [reflexivity | apply Hk].
Qed.

Lemma reads_only_mfor {A S : Type} (xs : list A) (body : A -> S -> M S) (s : S) :
  (forall x s0, reads_only (body x s0)) -> reads_only (mfor xs body s).
Proof.
  intros Hbody. revert s. induction xs as [|x xs IH]; intros s; cbn [mfor].
  - intros w. reflexivity.
  - apply reads_only_bind; [apply Hbody | assumption].
Qed.

Lemma reads_only_trajectories_of (m : HMM.t) : reads_only (trajectories_of m).
Proof.
  unfold trajectories_of. destruct (HMM.hidden_state_trajectories m) as [l|].
  - intros w. apply deref_list_world.
  - intros w. reflexivity.
Qed.

Lemma reads_only_count_matrix (m : HMM.t) : reads_only (count_matrix m).
Proof.
  unfold count_matrix. apply reads_only_bind; [apply reads_only_trajectories_of |].
  intros trajs w. reflexivity.
Qed.

Lemma reads_only_collect (m : HMM.t) (observations : list (list float)) (state : Z) :
  reads_only (collect_observations_in_state m observations state).
Proof.
  unfold collect_observations_in_state.
  apply reads_only_bind; [apply reads_only_trajectories_of |].
  intros trajs w. reflexivity.
Qed.

Lemma frame_reads_only {A : Type} (self : BHMM) (c : M A) (w : world) :
  reads_only c -> frame self w (snd (c w)).
Proof. intros Hc. rewrite Hc. apply frame_refl. Qed.

Lemma frame_sample_trajectory (self : BHMM) (o_t : list float) (w : world) :
  frame self w (snd (_sampleHiddenStateTrajectory self o_t w)).
Proof. apply frame_same_heap. apply _sampleHiddenStateTrajectory_heap. Qed.

(** Appending one trajectory to the live model's list. *)
Lemma frame_append_trajectory (self : BHMM) (s_t : list Z) (w : world) :
  frame self w
    (snd ((m <- deref_HMM (model self) ;;
           match HMM.hidden_state_trajectories m with
           | Some l => ts <- deref_list l ;; store l (ListObj (ts ++ [s_t]))
           | None => raise AttributeError
           end) w)).
Proof.
  apply frame_bind; [rewrite deref_HMM_world; apply frame_refl |].
  intros m w1 Hm. apply deref_HMM_inv in Hm as [-> Hm].
  destruct (HMM.hidden_state_trajectories m) as [l|] eqn:Htraj; [| apply frame_refl].
  apply frame_bind; [rewrite deref_list_world; apply frame_refl |].
  intros ts w1 Hts. apply deref_list_inv in Hts as [-> Hts].
  unfold store. cbn [snd]. apply frame_store_live.
  - unfold live, objects_of. rewrite Hm, Htraj. set_solver.
  - intros ->. congruence.
Qed.

Lemma frame_updateHiddenStateTrajectories (self : BHMM) (w : world) :
  frame self w (snd (_updateHiddenStateTrajectories self w)).
Proof.
  unfold _updateHiddenStateTrajectories.
  unfold bind at 1, alloc at 1.
  set (l := fresh (dom (heap w))).
  assert (l ∉ dom (heap w)) as Hfresh by apply is_fresh.
  set (w1 := World (<[l := ListObj []]> (heap w)) (np_random w)).
  assert (frame self w w1) as Hw1.
  { apply frame_new; [assumption | right; intros m; discriminate]. }
  unfold bind at 1.
  destruct (deref_HMM (model self) w1) as [[e|m] w1'] eqn:Hm.
  - pose proof (deref_HMM_world (model self) w1) as Hsame.
    rewrite Hm in Hsame. cbn [snd] in *. subst w1'. assumption.
  - apply deref_HMM_inv in Hm as [-> Hm].
    assert (model self <> l) as Hne.
    { intros Heq. subst w1. cbn [heap] in Hm. rewrite Heq, lookup_insert_eq in Hm.
      discriminate. }
    assert (heap w !! model self = Some (HMMObj m)) as Hm0.
    { subst w1. cbn [heap] in Hm. rewrite lookup_insert_ne in Hm by congruence.
      assumption. }
    unfold bind at 1, store at 1.
    set (w2 := World (<[model self := HMMObj (set_hidden_state_trajectories (Some l) m)]>
                        (heap w1)) (np_random w1)).
    apply (frame_trans self w w2).
    + split.
      * subst w2 w1. cbn [heap]. rewrite !dom_insert_L. set_solver.
      * intros l0 Hl0 Hnot. subst w2 w1. cbn [heap].
        rewrite !lookup_insert_ne; [reflexivity | set_solver |].
        unfold live, objects_of in Hnot. set_solver.
      * unfold live, objects_of at 1. subst w2 w1. cbn [heap].
        rewrite lookup_insert_eq. cbn [set_hidden_state_trajectories
          HMM.output_model HMM.hidden_state_trajectories].
        rewrite !dom_insert_L. unfold live, objects_of. rewrite Hm0. set_solver.
    + apply frame_mfor. intros trajectory_index [] w0.
      apply frame_bind; [apply frame_refl |].
      intros o_t w3 Ho. injection Ho as _ <-.
      apply frame_bind; [apply frame_sample_trajectory |].
      intros s_t w4 _. apply frame_append_trajectory.
Qed.

End SweepFootprint.

Section UpdateFootprint.
Context {externals : Externals}.

Lemma with_np_random_heap {A : Type} (f : RandomState -> result A * RandomState)
  (w : world) : heap (snd (with_np_random f w)) = heap w.
Proof. unfold with_np_random. destruct (f (np_random w)). reflexivity. Qed.

Lemma frame_updateEmissionProbabilities (self : BHMM) (w : world) :
  frame self w (snd (_updateEmissionProbabilities self w)).
Proof.
  unfold _updateEmissionProbabilities.
  apply frame_bind; [rewrite deref_HMM_world; apply frame_refl |].
  intros m0 w1 _.
  apply frame_bind.
  { apply frame_reads_only. apply reads_only_mfor. intros state acc.
    apply reads_only_bind; [intros w0; apply deref_HMM_world |].
    intros m1. apply reads_only_bind; [apply reads_only_collect |].
    intros os w0. reflexivity. }
  intros observations_by_state w2 _.
  apply frame_bind; [rewrite deref_HMM_world; apply frame_refl |].
  intros m w3 Hm. apply deref_HMM_inv in Hm as [-> Hm].
  apply frame_bind; [rewrite deref_output_world; apply frame_refl |].
  intros theta w3 Htheta. apply deref_output_inv in Htheta as [-> Htheta].
  apply frame_bind; [apply frame_same_heap, with_np_random_heap |].
  intros theta' w3 Hdraw.
  assert (heap w3 = heap w2) as Hheap.
  { pose proof (with_np_random_heap (output_model_sample observations_by_state theta) w2)
      as Hsame. rewrite Hdraw in Hsame. exact Hsame. }
  unfold store. cbn [snd]. rewrite Hheap.
  apply (frame_trans self w3 (World (heap w2) (np_random w3))).
  { apply frame_same_heap. cbn [heap]. symmetry. assumption. }
  apply (frame_store_live self (World (heap w2) (np_random w3))).
  - unfold live, objects_of. cbn [heap]. rewrite Hm. set_solver.
  - intros Heq. rewrite Heq in Htheta. congruence.
Qed.

Lemma frame_updateTransitionMatrix (self : BHMM) (w : world) :
  frame self w (snd (_updateTransitionMatrix self w)).
Proof.
  unfold _updateTransitionMatrix.
  apply frame_bind; [rewrite deref_HMM_world; apply frame_refl |].
  intros m0 w1 _.
  apply frame_bind; [apply frame_reads_only, reads_only_count_matrix |].
  intros C w2 _.
  destruct (reversible self); [| apply frame_refl].
  apply frame_bind; [apply frame_same_heap, with_np_random_heap |].
  intros Tnew w3 _.
  apply frame_bind; [rewrite deref_HMM_world; apply frame_refl |].
  intros m w4 Hm. apply deref_HMM_inv in Hm as [-> Hm].
  unfold store. cbn [snd]. eapply frame_store_model; [eassumption | reflexivity ..].
Qed.

(** One sweep stays within the footprint, whether it returns or raises. *)
Lemma frame_update (self : BHMM) (w : world) :
  frame self w (snd (_update self w)).
Proof.
  unfold _update.
  apply frame_bind; [apply frame_updateHiddenStateTrajectories |].
  intros [] w1 _.
  apply frame_bind; [apply frame_updateEmissionProbabilities |].
  intros [] w2 _. apply frame_updateTransitionMatrix.
Qed.

Lemma frame_sweeps (self : BHMM) (k : nat) (w : world) :
  frame self w (snd (sweeps self k w)).
Proof.
  revert w. induction k as [|k IH]; intros w; cbn [sweeps].
  - apply frame_refl.
  - apply frame_bind; [apply frame_update | intros [] w1 _; apply IH].
Qed.

End UpdateFootprint.

(** ** Snapshots *)

Section Snapshots.
Context {externals : Externals}.

Lemma alloc_inv (o : obj) (w w1 : world) (r : result loc) :
  alloc o w = (r, w1) ->
  exists l, r = Ok l /\ (l ∉ dom (heap w)) /\
            w1 = World (<[l := o]> (heap w)) (np_random w).
Proof.
  unfold alloc. intros Heq. injection Heq as <- <-.
  eexists. split; [reflexivity |]. split; [apply is_fresh | reflexivity].
Qed.

Lemma deepcopy_HMM_spec (l0 l : loc) (w w' : world) :
  deepcopy_HMM l0 w = (Ok l, w') ->
  exists m theta m',
    heap w !! l0 = Some (HMMObj m) /\
    heap w !! HMM.output_model m = Some (OutputObj theta) /\
    (l ∉ dom (heap w)) /\
    (dom (heap w) ⊆ dom (heap w')) /\
    (forall x, x ∈ dom (heap w) -> heap w' !! x = heap w !! x) /\
    heap w' !! l = Some (HMMObj m') /\
    same_values m m' /\
    HMM.hidden_state_trajectory m' = HMM.hidden_state_trajectory m /\
    (HMM.output_model m' ∉ dom (heap w)) /\
    HMM.output_model m' <> l /\
    heap w' !! HMM.output_model m' = Some (OutputObj theta) /\
    copied_list w w' (HMM.hidden_state_trajectories m) (HMM.hidden_state_trajectories m') /\
    (forall lt', HMM.hidden_state_trajectories m' = Some lt' -> lt' <> l).
Proof.
  unfold deepcopy_HMM, bind.
  destruct (deref_HMM l0 w) as [[e|m] w0] eqn:Hm; [discriminate |].
  apply deref_HMM_inv in Hm as [-> Hm].
  destruct (deref_output (HMM.output_model m) w) as [[e|theta] w0] eqn:Htheta;
    [discriminate |].
  apply deref_output_inv in Htheta as [-> Htheta].
  destruct (alloc (OutputObj theta) w) as [r w1] eqn:Hlo.
  apply alloc_inv in Hlo as (lo & -> & Hlo & ->).
  destruct (HMM.hidden_state_trajectories m) as [lt|] eqn:Htraj.
  - destruct (deref_list lt _) as [[e|ts] w1] eqn:Hts; [discriminate |].
    apply deref_list_inv in Hts as [-> Hts]. cbn [heap] in Hts.
    assert (lt <> lo) as Hne.
    { intros ->. rewrite lookup_insert_eq in Hts. discriminate. }
    rewrite lookup_insert_ne in Hts by congruence.
    destruct (alloc (ListObj ts) _) as [r w2] eqn:Hlt'.
    apply alloc_inv in Hlt' as (lt' & -> & Hlt' & ->).
    unfold ret at 1.
    destruct (alloc _ _) as [r w3] eqn:Hl1.
    apply alloc_inv in Hl1 as (l1 & -> & Hl1 & ->).
    cbn [heap np_random] in *. rewrite !dom_insert_L in *.
    intros Heq. injection Heq as <- <-. cbn [heap].
    rewrite !dom_insert_L.
    eexists m, theta, _. split_and!.
    + assumption.
    + assumption.
    + set_solver.
    + set_solver.
    + intros x Hx. rewrite !lookup_insert_ne by set_solver. reflexivity.
    + apply lookup_insert_eq.
    + repeat split.
    + reflexivity.
    + cbn. set_solver.
    + cbn. set_solver.
    + cbn. rewrite lookup_insert_ne by set_solver.
      rewrite lookup_insert_ne by set_solver. apply lookup_insert_eq.
    + unfold copied_list. rewrite Htraj. cbn.
      exists ts. split; [assumption |]. split; [set_solver |].
      rewrite lookup_insert_ne by set_solver. apply lookup_insert_eq.
    + cbn. intros lt0 Heq. injection Heq as <-. set_solver.
  - unfold ret at 1.
    destruct (alloc _ _) as [r w3] eqn:Hl1.
    apply alloc_inv in Hl1 as (l1 & -> & Hl1 & ->).
    cbn [heap np_random] in *. rewrite !dom_insert_L in *.
    intros Heq. injection Heq as <- <-. cbn [heap].
    rewrite !dom_insert_L.
    eexists m, theta, _. split_and!.
    + assumption.
    + assumption.
    + set_solver.
    + set_solver.
    + intros x Hx. rewrite !lookup_insert_ne by set_solver. reflexivity.
    + apply lookup_insert_eq.
    + repeat split.
    + reflexivity.
    + cbn. set_solver.
    + cbn. set_solver.
    + cbn. rewrite lookup_insert_ne by set_solver. apply lookup_insert_eq.
    + unfold copied_list. rewrite Htraj. cbn. exact I.
    + cbn. discriminate.
Qed.

End Snapshots.

Section SaveModel.
Context {externals : Externals}.

Lemma extends_refl (w : world) : extends w w.
Proof. split; [set_solver | reflexivity]. Qed.

Lemma extends_trans (w1 w2 w3 : world) :
  extends w1 w2 -> extends w2 w3 -> extends w1 w3.
Proof.
  intros [Hd12 Hk12] [Hd23 Hk23]. split; [set_solver |].
  intros x Hx. rewrite Hk23 by set_solver. apply Hk12. assumption.
Qed.

Lemma extends_bind {A B : Type} (c : M A) (k : A -> M B) (w : world) :
  extends w (snd (c w)) ->
  (forall a w1, extends w1 (snd (k a w1))) ->
  extends w (snd (bind c k w)).
Proof.
  intros Hc Hk. unfold bind. destruct (c w) as [[e|a] w1]; [exact Hc |].
  eapply extends_trans; [exact Hc | apply Hk].
Qed.

Lemma extends_alloc (o : obj) (w : world) : extends w (snd (alloc o w)).
Proof.
  unfold alloc. cbv zeta. cbn [snd heap].
  pose proof (is_fresh (dom (heap w))) as Hfresh.
  split; cbn [heap].
  - rewrite dom_insert_L. set_solver.
  - intros x Hx. rewrite lookup_insert_ne; [reflexivity |]. set_solver.
Qed.

Lemma extends_deepcopy (l0 : loc) (w : world) :
  extends w (snd (deepcopy_HMM l0 w)).
Proof.
  unfold deepcopy_HMM.
  apply extends_bind; [rewrite deref_HMM_world; apply extends_refl |].
  intros m w1.
  apply extends_bind; [rewrite deref_output_world; apply extends_refl |].
  intros theta w2.
  apply extends_bind; [apply extends_alloc |].
  intros lo w3.
  apply extends_bind; [| intros; apply extends_alloc].
  destruct (HMM.hidden_state_trajectories m) as [lt|]; [| apply extends_refl].
  apply extends_bind; [rewrite deref_list_world; apply extends_refl |].
  intros ts w4.
  apply extends_bind; [apply extends_alloc | intros; apply extends_refl].
Qed.

(** What [save_model] returns: a new [HMM] object with the values of the
    live one, a new output model object with the same parameters and, when
    the live model has a list of trajectories, a new list with the same
    trajectories.  Line 147 binds [hidden_state_trajectory] on the copy. *)
Lemma save_model_spec (self : BHMM) (save : bool) (l : loc) (w w' : world) :
  save_model self save w = (Ok l, w') ->
  exists m theta m',
    heap w !! model self = Some (HMMObj m) /\
    heap w !! HMM.output_model m = Some (OutputObj theta) /\
    (l ∉ dom (heap w)) /\
    extends w w' /\
    heap w' !! l = Some (HMMObj m') /\
    same_values m m' /\
    HMM.hidden_state_trajectory m' =
      (if save then HMM.hidden_state_trajectory m else BoundNone) /\
    (HMM.output_model m' ∉ dom (heap w)) /\
    heap w' !! HMM.output_model m' = Some (OutputObj theta) /\
    copied_list w w' (HMM.hidden_state_trajectories m) (HMM.hidden_state_trajectories m').
Proof.
  unfold save_model, bind.
  destruct (deepcopy_HMM (model self) w) as [[e|l1] w1] eqn:Hcopy; [discriminate |].
  apply deepcopy_HMM_spec in Hcopy
    as (m & theta & m' & Hm & Htheta & Hl & Hdom & Hkeep & Hl' & Hsame & Hattr
        & Hout & Houtl & Hout' & Hlist & Hlistl).
  destruct save; cbn [negb].
  - unfold ret. intros Heq. injection Heq as <- <-.
    exists m, theta, m'. split_and!; try assumption. split; assumption.
  - unfold deref_HMM. rewrite Hl'. unfold store, ret. cbn [heap np_random].
    intros Heq. injection Heq as <- <-. cbn [heap].
    exists m, theta, (set_hidden_state_trajectory BoundNone m'). split_and!.
    + assumption.
    + assumption.
    + assumption.
    + split; cbn [heap].
      * rewrite dom_insert_L. set_solver.
      * intros x Hx. rewrite lookup_insert_ne by set_solver. apply Hkeep. assumption.
    + apply lookup_insert_eq.
    + exact Hsame.
    + reflexivity.
    + exact Hout.
    + cbn. rewrite lookup_insert_ne by congruence. assumption.
    + unfold copied_list in *. cbn.
      destruct (HMM.hidden_state_trajectories m) as [lt|],
               (HMM.hidden_state_trajectories m') as [lt'|] eqn:Hlt'; try assumption.
      destruct Hlist as (ts & Hts & Hfresh & Hts').
      exists ts. split; [assumption |]. split; [assumption |].
      cbn [heap]. rewrite lookup_insert_ne; [assumption |].
      intros Heq. eapply Hlistl; [reflexivity | symmetry; exact Heq].
Qed.

Lemma extends_save_model (self : BHMM) (save : bool) (w : world) :
  extends w (snd (save_model self save w)).
Proof.
  unfold save_model, bind.
  destruct (deepcopy_HMM (model self) w) as [[e|l] w1] eqn:Hcopy.
  - pose proof (extends_deepcopy (model self) w) as Hext.
    rewrite Hcopy in Hext. exact Hext.
  - pose proof (extends_deepcopy (model self) w) as Hext.
    rewrite Hcopy in Hext. cbn [snd] in Hext.
    apply deepcopy_HMM_spec in Hcopy
      as (m & theta & m' & Hm & Htheta & Hl & Hdom & Hkeep & Hl' & _).
    destruct save; cbn [negb]; [exact Hext |].
    unfold deref_HMM. rewrite Hl'. unfold store, ret. cbn [snd].
    split; cbn [heap].
    + rewrite dom_insert_L. set_solver.
    + intros x Hx. rewrite lookup_insert_ne by set_solver. apply Hkeep. assumption.
Qed.

Lemma frame_extends (self : BHMM) (w w' : world) :
  model self ∈ dom (heap w) -> extends w w' -> frame self w w'.
Proof.
  intros Hin [Hdom Hkeep]. split.
  - assumption.
  - intros l Hl _. apply Hkeep. assumption.
  - rewrite (live_same_model self w w') by (apply Hkeep; assumption). set_solver.
Qed.

Lemma frame_save_model (self : BHMM) (save : bool) (w : world) :
  frame self w (snd (save_model self save w)).
Proof.
  destruct (decide (model self ∈ dom (heap w))) as [Hin|Hout].
  - apply frame_extends; [assumption | apply extends_save_model].
  - apply not_elem_of_dom in Hout.
    unfold save_model, deepcopy_HMM, bind, deref_HMM. rewrite Hout.
    apply frame_refl.
Qed.

End SaveModel.

(** ** The sampling loop *)

Section SamplingLoop.
Context {externals : Externals}.

Lemma bind_apply {A B : Type} (c : M A) (k : A -> M B) (w : world) :
  bind c k w =
    match c w with
    | (inl e, w') => (inl e, w')
    | (inr a, w') => k a w'
    end.
Proof. reflexivity. Qed.

Lemma range_0_to_nat (z : Z) : range 0 z = range 0 (Z.of_nat (Z.to_nat z)).
Proof. unfold range. f_equal. f_equal. lia. Qed.

Lemma mfor_sweeps (self : BHMM) (k : nat) (start : Z) (w : world) :
  mfor (range start (start + Z.of_nat k)) (fun _ _ => _update self) tt w
  = sweeps self k w.
Proof.
  revert start w. induction k as [|k IH]; intros start w.
  - rewrite range_nil by lia. reflexivity.
  - rewrite range_cons by lia. cbn [mfor sweeps]. unfold bind.
    destruct (_update self w) as [[e|[]] w1]; [reflexivity |].
    replace (start + Z.of_nat (S k)) with (start + 1 + Z.of_nat k) by lia.
    apply IH.
Qed.

Lemma mfor_sweeps_0 (self : BHMM) (k : nat) (w : world) :
  mfor (range 0 (Z.of_nat k)) (fun _ _ => _update self) tt w = sweeps self k w.
Proof. exact (mfor_sweeps self k 0 w). Qed.

Lemma mfor_sweeps_Z (self : BHMM) (z : Z) (w : world) :
  mfor (range 0 z) (fun _ _ => _update self) tt w = sweeps self (Z.to_nat z) w.
Proof. rewrite range_0_to_nat. apply mfor_sweeps_0. Qed.

Lemma mfor_retained (self : BHMM) (nthin : Z) (save : bool) (k : nat)
  (start : Z) (models : list loc) (w : world) :
  mfor (range start (start + Z.of_nat k))
    (fun iteration models =>
       _ <- mfor (range 0 nthin) (fun thin _ => _update self) tt ;;
       model_copy <- save_model self save ;;
       ret (models ++ [model_copy]))
    models w
  = (later <- retained self (Z.to_nat nthin) save k ;; ret (models ++ later)) w.
Proof.
  revert start models w. induction k as [|k IH]; intros start models w.
  - rewrite range_nil by lia. cbn [mfor retained]. unfold bind, ret.
    rewrite app_nil_r. reflexivity.
  - rewrite range_cons by lia. cbn [mfor retained]. unfold bind at 1 2 3.
    rewrite (mfor_sweeps_Z self nthin w). unfold bind.
    destruct (sweeps self (Z.to_nat nthin) w) as [[e|[]] w1]; [reflexivity |].
    destruct (save_model self save w1) as [[e|l] w2]; [reflexivity |].
    unfold ret at 1.
    replace (start + Z.of_nat (S k)) with (start + 1 + Z.of_nat k) by lia.
    rewrite IH. unfold bind.
    destruct (retained self (Z.to_nat nthin) save k w2) as [[e|later] w3];
      [reflexivity |].
    unfold ret. rewrite <- app_assoc. reflexivity.
Qed.

(** [sample] is the run the specification describes, for all arguments. *)
Lemma sample_run (self : BHMM) (nsamples nburn nthin : Z) (save : bool) (w : world) :
  sample self nsamples nburn nthin save w
  = run self (Z.to_nat nsamples) (Z.to_nat nburn) (Z.to_nat nthin) save w.
Proof.
  unfold sample, run. rewrite 2 bind_apply.
  rewrite (mfor_sweeps_Z self nburn w).
  destruct (sweeps self (Z.to_nat nburn) w) as [[e|[]] w1]; [reflexivity |].
  rewrite (range_0_to_nat nsamples).
  pose proof (mfor_retained self nthin save (Z.to_nat nsamples) 0 [] w1) as Hloop.
  rewrite Z.add_0_l in Hloop. rewrite Hloop.
  unfold bind.
  destruct (retained self (Z.to_nat nthin) save (Z.to_nat nsamples) w1)
    as [[e|later] w2]; reflexivity.
Qed.

Lemma frame_retained (self : BHMM) (nthin : nat) (save : bool) (k : nat) (w : world) :
  frame self w (snd (retained self nthin save k w)).
Proof.
  revert w. induction k as [|k IH]; intros w; cbn [retained].
  - apply frame_refl.
  - apply frame_bind; [apply frame_sweeps |]. intros [] w1 _.
    apply frame_bind; [apply frame_save_model |]. intros l w2 _.
    apply frame_bind; [apply IH |]. intros later w3 _. apply frame_refl.
Qed.

Lemma frame_run (self : BHMM) (nsamples nburn nthin : nat) (save : bool) (w : world) :
  frame self w (snd (run self nsamples nburn nthin save w)).
Proof.
  unfold run. apply frame_bind; [apply frame_sweeps |].
  intros [] w1 _. apply frame_retained.
Qed.

Lemma frame_sample (self : BHMM) (nsamples nburn nthin : Z) (save : bool) (w : world) :
  frame self w (snd (sample self nsamples nburn nthin save w)).
Proof. rewrite sample_run. apply frame_run. Qed.

Lemma retained_length (self : BHMM) (nthin : nat) (save : bool) (k : nat)
  (w w' : world) (models : list loc) :
  retained self nthin save k w = (Ok models, w') -> length models = k.
Proof.
  revert w w' models. induction k as [|k IH]; intros w w' models; cbn [retained].
  - unfold ret. intros Heq. injection Heq as <- _. reflexivity.
  - unfold bind.
    destruct (sweeps self nthin w) as [[e|[]] w1]; [discriminate |].
    destruct (save_model self save w1) as [[e|l] w2]; [discriminate |].
    destruct (retained self nthin save k w2) as [[e|later] w3] eqn:Hlater;
      [discriminate |].
    unfold ret. intros Heq. injection Heq as <- _. cbn [length].
    f_equal. eapply IH. eassumption.
Qed.


End SamplingLoop.

Section Isolation.
Context {externals : Externals}.

(** Within the footprint a protected model keeps its contents and stays
    protected. *)
Lemma frame_protected (self : BHMM) (w w2 : world) (l : loc) :
  protected self w l -> frame self w w2 ->
  contents w2 l = contents w l /\ protected self w2 l.
Proof.
  intros [Hin Hdisj] [Hdom Hkeep Hlive].
  assert (forall x, x ∈ objects_of w l -> heap w2 !! x = heap w !! x) as Hsame.
  { intros x Hx. apply Hkeep; set_solver. }
  assert (heap w2 !! l = heap w !! l) as Hl.
  { apply Hsame. unfold objects_of. set_solver. }
  assert (objects_of w2 l = objects_of w l) as Hobjects.
  { unfold objects_of. rewrite Hl. reflexivity. }
  split.
  - unfold contents. rewrite Hl.
    destruct (heap w !! l) as [[m|theta|ts]|] eqn:Hm; try reflexivity.
    rewrite (Hsame (HMM.output_model m))
      by (unfold objects_of; rewrite Hm; set_solver).
    destruct (heap w !! HMM.output_model m) as [[m0|theta|ts]|]; try reflexivity.
    destruct (HMM.hidden_state_trajectories m) as [lt|] eqn:Hlt; [| reflexivity].
    rewrite (Hsame lt) by (unfold objects_of; rewrite Hm, Hlt; set_solver).
    reflexivity.
  - split; rewrite Hobjects; set_solver.
Qed.

(** A snapshot: new objects with the values the live model has at the call,
    none of them an object of the live model. *)
Lemma save_model_snapshot (self : BHMM) (save : bool) (l : loc) (w w' : world) :
  save_model self save w = (Ok l, w') ->
  (l ∉ dom (heap w)) /\
  protected self w' l /\
  exists m theta ts m',
    contents w (model self) = Some (m, theta, ts) /\
    contents w' l = Some (m', theta, ts) /\
    same_values m m' /\
    HMM.hidden_state_trajectory m' =
      (if save then HMM.hidden_state_trajectory m else BoundNone).
Proof.
  intros Hsave.
  apply save_model_spec in Hsave
    as (m & theta & m' & Hm & Htheta & Hl & [Hdom Hkeep] & Hl' & Hsame & Hattr
        & Hout & Hout' & Hlist).
  assert (model self ∈ dom (heap w)) as Hmodel_in by (apply elem_of_dom; eauto).
  assert (HMM.output_model m ∈ dom (heap w)) as Hout_in by (apply elem_of_dom; eauto).
  assert (live self w' = live self w) as Hlive.
  { apply live_same_model. apply Hkeep. assumption. }
  split; [assumption |]. split.
  - unfold protected. rewrite Hlive. unfold live, objects_of. rewrite Hl', Hm.
    unfold copied_list in Hlist.
    destruct (HMM.hidden_state_trajectories m) as [lt|],
             (HMM.hidden_state_trajectories m') as [lt'|]; try contradiction.
    + destruct Hlist as (ts & Hts & Hfresh & Hts').
      assert (lt ∈ dom (heap w)) as Hlt_in by (apply elem_of_dom; eauto).
      assert (l ∈ dom (heap w')) as Hl_in by (apply elem_of_dom; eauto).
      assert (HMM.output_model m' ∈ dom (heap w')) as Hout_in'
        by (apply elem_of_dom; eauto).
      assert (lt' ∈ dom (heap w')) as Hlt_in' by (apply elem_of_dom; eauto).
      clear Hkeep Hm Htheta Hl' Hout' Hts Hts' Hsame Hattr Hlive.
      split; [set_solver |].
      apply elem_of_disjoint. intros x Hx Hy.
      assert (x ∈ dom (heap w)) as Hx_in by set_solver.
      clear Hy. set_solver.
    + assert (l ∈ dom (heap w')) as Hl_in by (apply elem_of_dom; eauto).
      assert (HMM.output_model m' ∈ dom (heap w')) as Hout_in'
        by (apply elem_of_dom; eauto).
      clear Hkeep Hm Htheta Hl' Hout' Hsame Hattr Hlive.
      split; [set_solver |].
      apply elem_of_disjoint. intros x Hx Hy.
      assert (x ∈ dom (heap w)) as Hx_in by set_solver.
      clear Hy. set_solver.
  - unfold copied_list in Hlist. unfold contents. rewrite Hm, Htheta, Hl', Hout'.
    destruct (HMM.hidden_state_trajectories m) as [lt|],
             (HMM.hidden_state_trajectories m') as [lt'|]; try contradiction.
    + destruct Hlist as (ts & Hts & Hfresh & Hts'). rewrite Hts, Hts'.
      exists m, theta, (Some ts), m'. split_and!; (reflexivity || assumption).
    + exists m, theta, None, m'. split_and!; (reflexivity || assumption).
Qed.

Lemma evolves_frame (self : BHMM) (w w' : world) :
  evolves self w w' -> frame self w w'.
Proof.
  induction 1 as [w | w | w nsamples nburn nthin save | w w' Hdom Hkeep Hlive
                 | w1 w2 w3 _ IH12 _ IH23].
  - apply frame_refl.
  - apply frame_update.
  - apply frame_sample.
  - split; [assumption | | rewrite Hlive; set_solver].
    intros l _ Hnot. apply Hkeep. assumption.
  - eapply frame_trans; eassumption.
Qed.

End Isolation.

(** ** The transition matrix update without reversibility *)

Section NonReversible.
Context {externals : Externals}.

Lemma has_trajectories_same_heap (self : BHMM) (w w' : world) :
  heap w' = heap w -> has_trajectories self w -> has_trajectories self w'.
Proof. intros Heq (m & l & ts & Hm & Hl & Hts). exists m, l, ts. rewrite Heq. auto. Qed.

Lemma invariant_bind {A B : Type} (P : world -> Prop) (c : M A) (k : A -> M B)
  (w : world) :
  P (snd (c w)) ->
  (forall a w1, c w = (Ok a, w1) -> P w1 -> P (snd (k a w1))) ->
  P (snd (bind c k w)).
Proof.
  intros Hc Hk. unfold bind. destruct (c w) as [[e|a] w1] eqn:Hrun; [exact Hc |].
  apply Hk; [reflexivity | exact Hc].
Qed.

Lemma invariant_mfor {A S : Type} (P : world -> Prop) (xs : list A)
  (body : A -> S -> M S) (s : S) (w : world) :
  (forall x s0 w0, P w0 -> P (snd (body x s0 w0))) ->
  P w -> P (snd (mfor xs body s w)).
Proof.
  intros Hbody. revert s w. induction xs as [|x xs IH]; intros s w Hw; cbn [mfor].
  - exact Hw.
  - apply invariant_bind; [apply Hbody; exact Hw |].
    intros s1 w1 _ Hw1. apply IH. exact Hw1.
Qed.

Lemma invariant_reads_only {A : Type} (P : world -> Prop) (c : M A) (w : world) :
  reads_only c -> P w -> P (snd (c w)).
Proof. intros Hc Hw. rewrite Hc. exact Hw. Qed.

Lemma has_trajectories_append (self : BHMM) (s_t : list Z) (w : world) :
  has_trajectories self w ->
  has_trajectories self
    (snd ((m <- deref_HMM (model self) ;;
           match HMM.hidden_state_trajectories m with
           | Some l => ts <- deref_list l ;; store l (ListObj (ts ++ [s_t]))
           | None => raise AttributeError
           end) w)).
Proof.
  intros (m & l & ts & Hm & Hl & Hts).
  unfold bind, deref_HMM. rewrite Hm, Hl. unfold deref_list. rewrite Hts.
  unfold store. cbn [snd].
  exists m, l, (ts ++ [s_t]). cbn [heap]. split_and!.
  - rewrite lookup_insert_ne; [assumption |]. intros ->. congruence.
  - assumption.
  - apply lookup_insert_eq.
Qed.

(** After the trajectories were resampled the live model has them. *)
Lemma updateHiddenStateTrajectories_has_trajectories (self : BHMM) (w w1 : world) :
  _updateHiddenStateTrajectories self w = (Ok tt, w1) -> has_trajectories self w1.
Proof.
  intros Hrun. unfold _updateHiddenStateTrajectories in Hrun.
  rewrite bind_apply in Hrun.
  destruct (alloc (ListObj []) w) as [r w2] eqn:Halloc.
  apply alloc_inv in Halloc as (l & -> & Hl & ->).
  rewrite bind_apply in Hrun.
  destruct (deref_HMM (model self) _) as [[e|m] w2] eqn:Hm; [discriminate |].
  apply deref_HMM_inv in Hm as [-> Hm]. cbn [heap] in Hm.
  rewrite bind_apply in Hrun. unfold store at 1 in Hrun. cbn [heap np_random] in Hrun.
  apply (f_equal snd) in Hrun. cbn [snd] in Hrun. rewrite <- Hrun.
  apply invariant_mfor.
  - intros trajectory_index [] w0 Hw0.
    apply invariant_bind; [exact Hw0 |].
    intros o_t w3 Ho _. injection Ho as _ <-.
    apply invariant_bind.
    { eapply has_trajectories_same_heap; [apply _sampleHiddenStateTrajectory_heap | exact Hw0]. }
    intros s_t w4 _ Hw4. apply has_trajectories_append. exact Hw4.
  - exists (set_hidden_state_trajectories (Some l) m), l, []. cbn [heap]. split_and!.
    + apply lookup_insert_eq.
    + reflexivity.
    + assert (model self <> l) as Hne.
      { intros Heq. rewrite Heq, lookup_insert_eq in Hm. discriminate. }
      rewrite lookup_insert_ne by assumption. apply lookup_insert_eq.
Qed.

(** The emission update leaves the trajectories where they are. *)
Lemma updateEmissionProbabilities_has_trajectories (self : BHMM) (w : world) :
  has_trajectories self w ->
  has_trajectories self (snd (_updateEmissionProbabilities self w)).
Proof.
  intros Hw. unfold _updateEmissionProbabilities.
  apply invariant_bind; [rewrite deref_HMM_world; exact Hw |].
  intros m0 w1 _ Hw1.
  apply invariant_bind.
  { apply invariant_reads_only; [| exact Hw1].
    apply reads_only_mfor. intros state acc.
    apply reads_only_bind; [intros w0; apply deref_HMM_world |].
    intros m1. apply reads_only_bind; [apply reads_only_collect |].
    intros os w0. reflexivity. }
  intros observations_by_state w2 _ Hw2.
  apply invariant_bind; [rewrite deref_HMM_world; exact Hw2 |].
  intros m w3 Hm Hw3. apply deref_HMM_inv in Hm as [-> Hm].
  apply invariant_bind; [rewrite deref_output_world; exact Hw2 |].
  intros theta w3 Htheta _. apply deref_output_inv in Htheta as [-> Htheta].
  apply invariant_bind.
  { eapply has_trajectories_same_heap; [apply with_np_random_heap | exact Hw2]. }
  intros theta' w3 Hdraw _.
  assert (heap w3 = heap w2) as Hheap.
  { pose proof (with_np_random_heap (output_model_sample observations_by_state theta) w2)
      as Hsame. rewrite Hdraw in Hsame. exact Hsame. }
  destruct Hw2 as (m' & l & ts & Hm' & Hl & Hts).
  unfold store. cbn [snd]. exists m', l, ts. cbn [heap]. rewrite Hheap. split_and!.
  - rewrite lookup_insert_ne; [assumption |]. intros Heq. congruence.
  - assumption.
  - rewrite lookup_insert_ne; [assumption |]. intros Heq.
    rewrite Hm in Hm'. injection Hm' as ->. congruence.
Qed.

(** Without reversibility the update never returns and never writes; once
    the count matrix is there, it raises the exception of line 271. *)
Lemma updateTransitionMatrix_non_reversible (self : BHMM) (w : world) :
  reversible self = false ->
  snd (_updateTransitionMatrix self w) = w /\
  (exists e, fst (_updateTransitionMatrix self w) = Raise e) /\
  (has_trajectories self w ->
   _updateTransitionMatrix self w = (Raise (Exception non_reversible_message), w)).
Proof.
  intros Hrev. unfold _updateTransitionMatrix. rewrite Hrev.
  unfold bind, deref_HMM.
  destruct (heap w !! model self) as [[m|theta|ts]|] eqn:Hm.
  2-4: (split; [reflexivity |]; split; [eexists; reflexivity |];
        intros (m' & l & ts' & Hm' & _); congruence).
  pose proof (reads_only_count_matrix m w) as Hread.
  destruct (count_matrix m w) as [[e|C] w1] eqn:Hcount; cbn [snd] in Hread; subst w1.
  - split; [reflexivity |]. split; [eexists; reflexivity |].
    intros (m' & l & ts & Hm' & Hl & Hts).
    rewrite Hm in Hm'. injection Hm' as <-.
    unfold count_matrix, bind, trajectories_of in Hcount. rewrite Hl in Hcount.
    unfold deref_list in Hcount. rewrite Hts in Hcount. discriminate.
  - split; [reflexivity |]. split; [eexists; reflexivity |].
    intros _. reflexivity.
Qed.

(** The sampler [__init__] returns has the flag it was constructed with, and
    without observations there is no sampler. *)
Lemma init_keeps_reversible
  (MLHMM_fit : list (list float) -> nat -> bool -> string -> M loc)
  (observations : list (list float)) (nstates : nat) (initial_model : option loc)
  (reversible_flag verbose_flag : bool) (steps : Z) (output_model_type : string)
  (w w' : world) (self : BHMM) :
  __init__ MLHMM_fit observations nstates initial_model reversible_flag verbose_flag
    steps output_model_type w = (Ok self, w') ->
  reversible self = reversible_flag /\ observations <> [] /\
  ntrajectories self = length observations.
Proof.
  unfold __init__.
  destruct (decide (length observations = O)) as [Hlen|Hlen]; [discriminate |].
  unfold bind.
  destruct initial_model as [l0|];
    [destruct (deepcopy_HMM l0 w) as [[e|l] w1]
    |destruct (_generateInitialModel MLHMM_fit observations nstates reversible_flag
                 output_model_type w) as [[e|l] w1]];
    try discriminate;
    unfold ret; intros Heq; injection Heq as <- _; cbn;
    (split; [reflexivity |]; split; [| reflexivity];
     intros ->; apply Hlen; reflexivity).
Qed.

Lemma update_non_reversible (self : BHMM) (w : world) :
  reversible self = false -> exists e, fst (_update self w) = Raise e.
Proof.
  intros Hrev. unfold _update, bind.
  destruct (_updateHiddenStateTrajectories self w) as [[e|[]] w1]; [eexists; reflexivity |].
  destruct (_updateEmissionProbabilities self w1) as [[e|[]] w2]; [eexists; reflexivity |].
  destruct (updateTransitionMatrix_non_reversible self w2 Hrev) as (_ & [e He] & _).
  exists e. exact He.
Qed.

Lemma sweeps_non_reversible (self : BHMM) (k : nat) (w : world) :
  reversible self = false -> (0 < k)%nat -> exists e, fst (sweeps self k w) = Raise e.
Proof.
  intros Hrev Hk. destruct k as [|k]; [lia |]. cbn [sweeps]. unfold bind.
  destruct (update_non_reversible self w Hrev) as [e He].
  destruct (_update self w) as [[e'|[]] w1]; [exists e'; reflexivity |].
  cbn in He. discriminate.
Qed.

End NonReversible.

(** ** The claims about [sample] *)

Section SampleClaims.
Context {externals : Externals}.

Lemma sample_decompose (self : BHMM) (nsamples nburn nthin : Z) (save : bool)
  (w : world) (models : list loc) :
  fst (sample self nsamples nburn nthin save w) = Ok models ->
  exists w_burn,
    sweeps self (Z.to_nat nburn) w = (Ok tt, w_burn) /\
    retained self (Z.to_nat nthin) save (Z.to_nat nsamples) w_burn
      = (Ok models, snd (sample self nsamples nburn nthin save w)).
Proof.
  rewrite sample_run. unfold run. rewrite bind_apply.
  destruct (sweeps self (Z.to_nat nburn) w) as [[e|[]] w_burn]; [discriminate |].
  destruct (retained self (Z.to_nat nthin) save (Z.to_nat nsamples) w_burn)
    as [[e|later] w1] eqn:Hretained; [discriminate |].
  cbn [fst snd]. intros Hfst. injection Hfst as <-.
  exists w_burn. split; [reflexivity | exact Hretained].
Qed.



(** C6: with [reversible=False] the transition matrix update raises and
    writes nothing, so every call of [sample] that makes at least one sweep
    raises; when the two substeps before it return, the first update of the
    transition matrix raises the exception of line 271 and the call ends
    there, in the world those two substeps left. *)
Theorem non_reversible_fails_fast (self : BHMM) (nsamples nburn nthin : Z)
  (save : bool) (w w1 : world) :
  reversible self = false ->
  0 < nburn \/ (0 < nsamples /\ 0 < nthin) ->
  (exists e, fst (sample self nsamples nburn nthin save w) = Raise e) /\
  (forall w0, snd (_updateTransitionMatrix self w0) = w0 /\
              exists e, fst (_updateTransitionMatrix self w0) = Raise e) /\
  ((_ <- _updateHiddenStateTrajectories self ;; _updateEmissionProbabilities self) w
     = (Ok tt, w1) ->
   _updateTransitionMatrix self w1 = (Raise (Exception non_reversible_message), w1) /\
   sample self nsamples nburn nthin save w
     = (Raise (Exception non_reversible_message), w1)).
Proof.
  intros Hrev Hsweep. split; [| split].
  - rewrite sample_run. unfold run. rewrite bind_apply.
    destruct (decide (0 < nburn)) as [Hburn|Hburn].
    + destruct (sweeps_non_reversible self (Z.to_nat nburn) w Hrev ltac:(lia)) as [e He].
      destruct (sweeps self (Z.to_nat nburn) w) as [[e'|[]] w']; [eauto |].
      cbn in He. discriminate.
    + destruct Hsweep as [Hburn'|[Hsamples Hthin]]; [contradiction |].
      destruct (sweeps self (Z.to_nat nburn) w) as [[e'|[]] w']; [eauto |].
      destruct (Z.to_nat nsamples) as [|k] eqn:Hk; [lia |].
      cbn [retained]. rewrite bind_apply.
      destruct (sweeps_non_reversible self (Z.to_nat nthin) w' Hrev ltac:(lia)) as [e He].
      destruct (sweeps self (Z.to_nat nthin) w') as [[e'|[]] w'']; [eauto |].
      cbn in He. discriminate.
  - intros w0.
    destruct (updateTransitionMatrix_non_reversible self w0 Hrev) as (Hw & He & _).
    split; assumption.
  - intros Hfirst.
    assert (has_trajectories self w1) as Htraj.
    { rewrite bind_apply in Hfirst.
      destruct (_updateHiddenStateTrajectories self w) as [[e|[]] w'] eqn:Hhidden;
        [discriminate |].
      apply updateHiddenStateTrajectories_has_trajectories in Hhidden.
      pose proof (updateEmissionProbabilities_has_trajectories self w' Hhidden) as Hem.
      rewrite Hfirst in Hem. exact Hem. }
    destruct (updateTransitionMatrix_non_reversible self w1 Hrev) as (_ & _ & Hraise).
    specialize (Hraise Htraj). split; [exact Hraise |].
    assert (_update self w = (Raise (Exception non_reversible_message), w1)) as Hupdate.
    { unfold _update. rewrite bind_apply in Hfirst. rewrite bind_apply.
      destruct (_updateHiddenStateTrajectories self w) as [[e|[]] w']; [discriminate |].
      rewrite bind_apply, Hfirst. exact Hraise. }
    rewrite sample_run. unfold run. rewrite bind_apply.
    destruct (decide (0 < nburn)) as [Hburn|Hburn].
    + destruct (Z.to_nat nburn) as [|k] eqn:Hk; [lia |].
      cbn [sweeps]. rewrite bind_apply, Hupdate. reflexivity.
    + destruct Hsweep as [Hburn'|[Hsamples Hthin]]; [contradiction |].
      replace (Z.to_nat nburn) with O by lia. cbn [sweeps]. unfold ret at 1.
      destruct (Z.to_nat nsamples) as [|k] eqn:Hk; [lia |].
      cbn [retained]. rewrite bind_apply.
      destruct (Z.to_nat nthin) as [|j] eqn:Hj; [lia |].
      cbn [sweeps]. rewrite bind_apply, Hupdate. reflexivity.
Qed.

End SampleClaims.

(** ** Degenerate likelihood *)

Section Degenerate.
Context {externals : Externals}.

Lemma degenerate_add (x y : float) : degenerate x -> degenerate (x + y)%float.
Proof.
  intros [-> | ->].
  - pose proof (add_spec neg_infinity y) as Hspec.
    change (Prim2SF neg_infinity) with (S754_infinity true) in Hspec.
    destruct (Prim2SF y) as [s|s| |s mant e]; cbn in Hspec.
    + left. apply Prim2SF_inj. exact Hspec.
    + destruct s.
      * left. apply Prim2SF_inj. exact Hspec.
      * right. apply Prim2SF_inj. exact Hspec.
    + right. apply Prim2SF_inj. exact Hspec.
    + left. apply Prim2SF_inj. exact Hspec.
  - right. pose proof (add_spec nan y) as Hspec.
    change (Prim2SF nan) with S754_nan in Hspec. cbn in Hspec.
    apply Prim2SF_inj. exact Hspec.
Qed.

Lemma degenerate_sub_nan (x y : float) :
  degenerate x -> degenerate y -> (x - y)%float = nan.
Proof. intros [-> | ->] [-> | ->]; reflexivity. Qed.

Lemma degenerate_zip_add (a b : list float) :
  Forall degenerate a -> Forall degenerate (zip_with PrimFloat.add a b).
Proof.
  intros Ha. revert b. induction Ha as [|x a Hx Ha IH]; intros [|y b]; cbn;
    try constructor.
  - apply degenerate_add. assumption.
  - apply IH.
Qed.

Lemma normalized_degenerate (col : list float) (lse : float) :
  Forall degenerate col -> degenerate lse ->
  normalized col lse = replicate (length col) (np_exp nan).
Proof.
  intros Hcol Hlse. unfold normalized.
  induction Hcol as [|x col Hx Hcol IH]; cbn; [reflexivity |].
  rewrite (degenerate_sub_nan x lse) by assumption. f_equal. exact IH.
Qed.

Variables (n : nat) (logPi : list float) (logTij : matrix).
Variable emission : Z -> float -> result float.
Variable o_t : list float.

Hypothesis logsumexp_degenerate :
  forall l, l <> [] -> Forall degenerate l -> degenerate (logsumexp l).
Hypothesis nstates_positive : (0 < n)%nat.

(** A degenerate column makes the next column degenerate. *)
Lemma degenerate_next_column (T : nat) (a : matrix) (t : nat) :
  has_shape n T a -> has_shape n n logTij -> (1 <= t < T)%nat ->
  (forall j, (j < n)%nat -> recurrence_at logTij emission o_t a t j) ->
  Forall degenerate (column a (t - 1)) ->
  Forall degenerate (column a t).
Proof using logsumexp_degenerate nstates_positive.
  intros Hshape HshapeT Ht Hrec Hprev.
  apply Forall_lookup. intros j x Hx.
  assert (j < n)%nat as Hj.
  { apply lookup_lt_Some in Hx. rewrite length_column in Hx. destruct Hshape. lia. }
  rewrite (column_lookup n T) in Hx by (assumption || lia).
  destruct (Hrec j Hj) as (ot & e & _ & _ & Hentry).
  rewrite Hentry in Hx. injection Hx as <-.
  apply degenerate_add. apply logsumexp_degenerate.
  - intros Hnil. apply (f_equal length) in Hnil.
    rewrite length_zip_with, !length_column in Hnil.
    destruct Hshape as [Hla _], HshapeT as [Hlt _]. cbn in Hnil. lia.
  - apply degenerate_zip_add. assumption.
Qed.

Lemma degenerate_later_columns (T : nat) (a : matrix) (t0 : nat) :
  has_shape n T a -> has_shape n n logTij ->
  (forall t j, (1 <= t < T)%nat -> (j < n)%nat ->
               recurrence_at logTij emission o_t a t j) ->
  Forall degenerate (column a t0) ->
  forall t, (t0 <= t < T)%nat -> Forall degenerate (column a t).
Proof using logsumexp_degenerate nstates_positive.
  intros Hshape HshapeT Hrec Ht0 t [Hle Hlt].
  induction Hle as [|t Hle IH]; [assumption |].
  apply (degenerate_next_column T); [assumption | assumption | lia | |].
  - intros j Hj. apply Hrec; [lia | assumption].
  - replace (S t - 1)%nat with t by lia. apply IH. lia.
Qed.

End Degenerate.

Section DegenerateDraw.
Context {externals : Externals}.

Lemma scipy_logsumexp_nonempty (a : list float) :
  a <> [] -> scipy_logsumexp a = Ok (logsumexp a).
Proof. destruct a; [contradiction | reflexivity]. Qed.

(** C2, as the code has it: the sampler checks nothing about the forward
    log-probabilities.  When at some time step every state's forward
    log-probability is minus infinity, every later column is minus infinity
    or NaN as well, and after the forward pass the sampler goes straight to
    the categorical draw for the final state, with a probability vector
    whose entries are all [exp(NaN)]; what becomes of the call is what
    [np.random.choice] makes of that vector. *)
Theorem degenerate_likelihood_reaches_the_draw (self : BHMM) (w : world)
  (m : HMM.t) (theta : OutputModel) (o_t : list float) (t0 : nat) :
  heap w !! model self = Some (HMMObj m) ->
  heap w !! HMM.output_model m = Some (OutputObj theta) ->
  (forall (i : nat) (o : float), (i < HMM.nstates m)%nat ->
     exists e, output_log_emission theta (Z.of_nat i) o = Ok e) ->
  length (HMM.logPi m) = HMM.nstates m ->
  has_shape (HMM.nstates m) (HMM.nstates m) (HMM.logTij m) ->
  (0 < HMM.nstates m)%nat ->
  (forall l, l <> [] -> Forall degenerate l -> degenerate (logsumexp l)) ->
  (t0 < length o_t)%nat ->
  exists log_alpha : matrix,
    forward (HMM.nstates m) (HMM.logPi m) (HMM.logTij m) (emission_in w m) o_t
      = Ok log_alpha /\
    (Forall (fun x => x = neg_infinity) (column log_alpha t0) ->
     (forall t, (t0 <= t < length o_t)%nat -> Forall degenerate (column log_alpha t)) /\
     _sampleHiddenStateTrajectory self o_t w =
       (k <- with_np_random
               (random_choice (HMM.nstates m)
                  (replicate (HMM.nstates m) (np_exp nan))) ;;
        s_t <- lift (setitem (replicate (length o_t) 0)
                       (Z.of_nat (length o_t) - 1) (astype_int32 (Z.of_nat k))) ;;
        s_t <- mfor (range_down (Z.of_nat (length o_t) - 2) (-1))
                 (fun t s_t =>
                    sample_previous (HMM.nstates m) log_alpha (HMM.logTij m) t s_t)
                 s_t ;;
        ret s_t) w).
Proof.
  intros Hmodel Hout Hemit Hpi Hshape Hn Hlse Ht0.
  destruct (forward_in_world self w m theta o_t Hmodel Hout Hemit Hpi Hshape
              ltac:(lia)) as (a & Hforward & Hsh & _ & Hrec & Hrun).
  exists a. split; [assumption |]. intros Hcol.
  assert (forall t, (t0 <= t < length o_t)%nat -> Forall degenerate (column a t))
    as Hlater.
  { apply (degenerate_later_columns (HMM.nstates m) (HMM.logTij m)
             (output_log_emission theta) o_t Hlse Hn (length o_t)); try assumption.
    eapply Forall_impl; [exact Hcol |]. intros x ->. left. reflexivity. }
  split; [exact Hlater |].
  rewrite Hrun. unfold backward_sampling, sample_final.
  replace (Z.of_nat (length o_t) - 1) with (Z.of_nat (length o_t - 1)) by lia.
  rewrite (getcol_column (HMM.nstates m) (length o_t)) by (assumption || lia).
  unfold bind at 1. rewrite !bind_lift_Ok.
  assert (length (column a (length o_t - 1)) = HMM.nstates m) as Hlen.
  { rewrite length_column. destruct Hsh. assumption. }
  rewrite scipy_logsumexp_nonempty
    by (intros Hnil; rewrite Hnil in Hlen; cbn in Hlen; lia).
  rewrite bind_lift_Ok.
  rewrite normalized_degenerate.
  - rewrite Hlen. unfold bind.
    destruct (with_np_random _ w) as [[e|k] w']; [reflexivity |].
    unfold lift. destruct (setitem _ _ _) as [e|s_t]; reflexivity.
  - apply Hlater. lia.
  - apply Hlse.
    + intros Hnil. rewrite Hnil in Hlen. cbn in Hlen. lia.
    + apply Hlater. lia.
Qed.

End DegenerateDraw.

(** ** The initial model *)

Section InitialModelDispatch.
Context {externals : Externals}.

Variable initial_model_discrete :
  list (list float) -> Z -> Z -> bool -> bool -> M loc.
Variable initial_model_gaussian1d :
  list (list float) -> Z -> bool -> bool -> M loc.

(** C10: [generate_initial_model] hands the tag ['discrete'] to the discrete
    initializer and the tag ['gaussian'] to the Gaussian one, with the
    arguments of lines 36 and 39; for every other tag it raises
    [NotImplementedError], whatever the initializers are, and leaves the
    world as it is. *)
Theorem generate_initial_model_dispatch (observations : list (list float))
  (nstates : Z) (output_model_type : string) (verbose : bool) (w : world) :
  (output_model_type = "discrete"%string ->
   generate_initial_model initial_model_discrete initial_model_gaussian1d
     observations nstates output_model_type verbose w
   = initial_model_discrete observations nstates 1 true verbose w) /\
  (output_model_type = "gaussian"%string ->
   generate_initial_model initial_model_discrete initial_model_gaussian1d
     observations nstates output_model_type verbose w
   = initial_model_gaussian1d observations nstates true verbose w) /\
  (output_model_type <> "discrete"%string ->
   output_model_type <> "gaussian"%string ->
   generate_initial_model initial_model_discrete initial_model_gaussian1d
     observations nstates output_model_type verbose w
   = (Raise (NotImplementedError
               ("output model type " ++ output_model_type ++ " not yet implemented.")),
      w)).
Proof.
  unfold generate_initial_model. split; [| split].
  - intros ->. reflexivity.
  - intros ->. reflexivity.
  - intros Hd Hg.
    apply String.eqb_neq in Hd. apply String.eqb_neq in Hg.
    rewrite Hd, Hg. reflexivity.
Qed.

End InitialModelDispatch.

(** ** The reference implementation meets what the claims assume of the
    libraries *)

Section ReferenceFacts.

Lemma cumsum_length (acc : float) (p : list float) :
  length (Reference.cumsum acc p) = length p.
Proof.
  revert acc. induction p as [|x p IH]; intros acc; cbn; [reflexivity |].
  f_equal. apply IH.
Qed.

(** The draw is an element of [range(n)]. *)
Lemma reference_choice_in_range (n : nat) (p : list float) (g g' : Z) (k : nat) :
  Reference.choice n p g = (Ok k, g') -> (k < n)%nat.
Proof.
  unfold Reference.choice.
  destruct (decide (n = O)) as [|Hn]; [discriminate |].
  destruct (negb (length p =? n)%nat) eqn:Hlen; [discriminate |].
  destruct (existsb _ p); [discriminate |].
  destruct (_ <? _)%float; [discriminate |].
  intros Heq. injection Heq as <- _.
  apply negb_false_iff, Nat.eqb_eq in Hlen.
  eapply Nat.le_lt_trans; [apply length_filter |].
  rewrite removelast_firstn_len, length_take, length_map, cumsum_length. lia.
Qed.

Lemma reference_amax_step (m y : float) :
  degenerate m -> degenerate y ->
  degenerate (if is_nan m then m else if is_nan y then y
              else if (m <? y)%float then y else m).
Proof. intros [-> | ->] [-> | ->]; cbn; (left; reflexivity) || (right; reflexivity). Qed.

Lemma reference_amax_degenerate (a : list float) :
  a <> [] -> Forall degenerate a -> degenerate (Reference.amax a).
Proof.
  destruct a as [|x rest]; [contradiction |]. intros _ Hall.
  apply Forall_cons in Hall as [Hx Hrest]. cbn [Reference.amax].
  revert x Hx. induction Hrest as [|y rest Hy Hrest IH]; intros x Hx; cbn [fold_left].
  - exact Hx.
  - apply IH. apply reference_amax_step; assumption.
Qed.

(** A sum of zeros and NaNs is zero or NaN. *)
Lemma reference_fsum_degenerate (acc : float) (a : list float) :
  acc = 0%float \/ acc = nan ->
  Forall degenerate a ->
  let s := fold_left PrimFloat.add (map (fun x => Reference.exp (x - 0)%float) a) acc in
  s = 0%float \/ s = nan.
Proof.
  intros Hacc Hall. revert acc Hacc.
  induction Hall as [|x a Hx Hall IH]; intros acc Hacc; cbn [map fold_left].
  - exact Hacc.
  - apply IH. destruct Hacc as [-> | ->], Hx as [-> | ->];
      (left; reflexivity) || (right; reflexivity).
Qed.

(** scipy's [logsumexp] of an array of minus infinities and NaNs is minus
    infinity or NaN. *)
Lemma reference_logsumexp_degenerate (l : list float) :
  l <> [] -> Forall degenerate l ->
  degenerate (Reference.scipy_misc_logsumexp l).
Proof.
  intros Hne Hall. unfold Reference.scipy_misc_logsumexp.
  assert (is_finite (Reference.amax l) = false) as Hfinite.
  { destruct (reference_amax_degenerate l Hne Hall) as [-> | ->]; reflexivity. }
  rewrite Hfinite. unfold Reference.fsum.
  destruct (reference_fsum_degenerate 0%float l (or_introl eq_refl) Hall) as [-> | ->];
    [left | right]; reflexivity.
Qed.

Lemma demo_emission_returns (i : nat) (o : float) :
  (i < 2)%nat ->
  exists e, Reference.gaussian_log_emission Demo.theta0 (Z.of_nat i) o = Ok e.
Proof.
  intros Hi. destruct i as [|[|i]]; [eexists; reflexivity | eexists; reflexivity | lia].
Qed.

End ReferenceFacts.

(** ** The claims on concrete runs *)

Module Runs.

Import Reference Demo.
Local Open Scope float_scope.

Lemma world0_model : heap world0 !! model bhmm0 = Some (HMMObj hmm0).
Proof. reflexivity. Qed.

Lemma world0_output : heap world0 !! HMM.output_model hmm0 = Some (OutputObj theta0).
Proof. reflexivity. Qed.

Lemma hmm0_logTij_shape : has_shape 2 2 (HMM.logTij hmm0).
Proof. split; [reflexivity | repeat constructor]. Qed.

(** The forward pass on the first observation sequence. *)
Lemma forward_pass_recurrence_witness :
  (0 < length obs0)%nat /\
  exists log_alpha : matrix,
    forward 2 (HMM.logPi hmm0) (HMM.logTij hmm0) (emission_in world0 hmm0) obs0
      = Ok log_alpha /\
    has_shape 2 4 log_alpha /\
    (forall i, (i < 2)%nat ->
       initial_at (HMM.logPi hmm0) (gaussian_log_emission theta0) obs0 log_alpha i) /\
    (forall t j, (1 <= t < 4)%nat -> (j < 2)%nat ->
       recurrence_at (HMM.logTij hmm0) (gaussian_log_emission theta0) obs0 log_alpha t j) /\
    _sampleHiddenStateTrajectory bhmm0 obs0 world0 =
      backward_sampling 2 log_alpha (HMM.logTij hmm0) 4 world0.
Proof.
  split; [cbn; lia |].
  apply (forward_pass_recurrence bhmm0 world0 hmm0 theta0 obs0).
  - exact world0_model.
  - exact world0_output.
  - exact demo_emission_returns.
  - reflexivity.
  - exact hmm0_logTij_shape.
  - cbn. lia.
Defined.

(** The backward pass on an array of four columns. *)
Lemma backward_sampling_draws_witness :
  backward_sampling 2
    [[-1; -2; -3; -4]; [-4; -3; -2; -1]] (HMM.logTij hmm0) 4 world0 =
  (s <- draw_trajectory
          (fun log_p =>
             match log_p with
             | [] => raise ValueError
             | _ :: _ =>
                 with_np_random
                   (random_choice 2 (map (fun x => np_exp (x - logsumexp log_p)) log_p))
             end)
          [[-1; -2; -3; -4]; [-4; -3; -2; -1]] (HMM.logTij hmm0) 4 ;;
   ret (map Z.of_nat s)) world0.
Proof.
  apply (backward_sampling_draws 2 4).
  - exact (reference_choice_in_range 2).
  - reflexivity.
  - split; [reflexivity | repeat constructor].
  - exact hmm0_logTij_shape.
  - lia.
Defined.

(** A sequence of one observation. *)
Lemma single_observation_witness :
  exists log_alpha0 : list float,
    length log_alpha0 = 2%nat /\
    (forall i, (i < 2)%nat ->
       exists pi e,
         HMM.logPi hmm0 !! i = Some pi /\
         gaussian_log_emission theta0 (Z.of_nat i) 0.5 = Ok e /\
         log_alpha0 !! i = Some (pi + e)) /\
    _sampleHiddenStateTrajectory bhmm0 [0.5] world0 =
      match log_alpha0 with
      | [] => (Raise ValueError, world0)
      | _ :: _ =>
          (k <- with_np_random
                  (random_choice 2
                     (map (fun x => np_exp (x - logsumexp log_alpha0)) log_alpha0)) ;;
           ret [astype_int32 (Z.of_nat k)]) world0
      end.
Proof.
  apply (single_observation_sampled_directly bhmm0 world0 hmm0 theta0 0.5).
  - exact world0_model.
  - exact world0_output.
  - exact demo_emission_returns.
  - reflexivity.
Defined.

(** C1: a run that asks for the snapshot without hidden state trajectories
    ([save_hidden_state_trajectory=False]).  Line 147 binds the attribute
    [hidden_state_trajectory] of the copy to [None]; the trajectories, which
    the sweep stored under [hidden_state_trajectories] (line 172), are still
    in the snapshot that [sample] returns. *)
Theorem snapshot_keeps_hidden_state_trajectories :
  match fst (sample bhmm0 1 0 1 false world0) with
  | inr [snapshot] =>
      trajectories_at (snd (sample bhmm0 1 0 1 false world0)) snapshot
        = Some [[0; 0; 1; 1]; [1]]%Z /\
      (exists m theta ts,
         contents (snd (sample bhmm0 1 0 1 false world0)) snapshot
           = Some (m, theta, ts) /\
         HMM.hidden_state_trajectory m = BoundNone /\
         HMM.hidden_state_trajectories m <> None)
  | _ => False
  end.
Proof.
  vm_compute. split; [reflexivity |].
  eexists _, _, _. split; [reflexivity |]. split; [reflexivity | discriminate].
Qed.

(** C2 fails on the code: both states give the outlier zero likelihood, the
    one column of forward log-probabilities is minus infinity throughout, and
    the sampler makes its draw (the generator has advanced) and returns a
    trajectory; it raises nothing. *)
Lemma degenerate_likelihood_raises_nothing :
  forward 2 (HMM.logPi hmm0) (HMM.logTij hmm0) (emission_in world0 hmm0) [outlier]
    = Ok [[neg_infinity]; [neg_infinity]] /\
  np_random (snd (_sampleHiddenStateTrajectory bhmm0 [outlier] world0))
    = lcg_next (np_random world0) /\
  fst (_sampleHiddenStateTrajectory bhmm0 [outlier] world0) = Ok [0%Z] /\
  ~ (exists e, fst (_sampleHiddenStateTrajectory bhmm0 [outlier] world0) = Raise e).
Proof.
  split; [vm_compute; reflexivity |].
  split; [vm_compute; reflexivity |].
  assert (fst (_sampleHiddenStateTrajectory bhmm0 [outlier] world0) = Ok [0%Z]) as Hrun
    by (vm_compute; reflexivity).
  split; [exact Hrun |]. intros [e He]. rewrite Hrun in He. discriminate.
Qed.

(** The second observation of this sequence is the outlier: from there on the
    columns are degenerate, and the sampler goes to the draw. *)
Lemma degenerate_likelihood_witness :
  exists log_alpha : matrix,
    forward 2 (HMM.logPi hmm0) (HMM.logTij hmm0) (emission_in world0 hmm0)
      [0.5; outlier; 1] = Ok log_alpha /\
    Forall (fun x => x = neg_infinity) (column log_alpha 1) /\
    (forall t, (1 <= t < 3)%nat -> Forall degenerate (column log_alpha t)) /\
    _sampleHiddenStateTrajectory bhmm0 [0.5; outlier; 1] world0 =
      (k <- with_np_random (random_choice 2 (replicate 2 (exp nan))) ;;
       s_t <- lift (setitem (replicate 3 0%Z) 2 (astype_int32 (Z.of_nat k))) ;;
       s_t <- mfor (range_down 1 (-1))
                (fun t s_t => sample_previous 2 log_alpha (HMM.logTij hmm0) t s_t)
                s_t ;;
       ret s_t) world0.
Proof.
  destruct (degenerate_likelihood_reaches_the_draw bhmm0 world0 hmm0 theta0
              [0.5; outlier; 1] 1%nat world0_model world0_output
              demo_emission_returns eq_refl hmm0_logTij_shape
              ltac:(cbn; lia) reference_logsumexp_degenerate ltac:(cbn; lia))
    as (log_alpha & Hforward & Hdegenerate).
  exists log_alpha. split; [exact Hforward |].
  assert (Forall (fun x => x = neg_infinity) (column log_alpha 1)) as Hcolumn.
  { pose proof Hforward as Hvalue. vm_compute in Hvalue.
    injection Hvalue as <-. repeat constructor. }
  split; [exact Hcolumn |]. exact (Hdegenerate Hcolumn).
Defined.

(** C7 fails on the code: no random source is handed to the sampler.  Two
    calls in a row, on the same model and the same observations, with the
    store unchanged in between, draw from the generator where the call
    before left it and return different trajectories. *)
Lemma repeated_calls_differ :
  heap (snd (_sampleHiddenStateTrajectory bhmm0 obs0 world0)) = heap world0 /\
  fst (_sampleHiddenStateTrajectory bhmm0 obs0 world0) = Ok [0; 0; 1; 1]%Z /\
  fst (_sampleHiddenStateTrajectory bhmm0 obs0
         (snd (_sampleHiddenStateTrajectory bhmm0 obs0 world0)))
    = Ok [0; 0; 0; 1]%Z.
Proof.
  split; [apply _sampleHiddenStateTrajectory_heap |].
  split; vm_compute; reflexivity.
Qed.

(** Two worlds that differ in an object the sampler does not read, with the
    generator in the same state. *)
Lemma trajectory_determined_witness :
  fst (_sampleHiddenStateTrajectory bhmm0 obs0 world0)
    = fst (_sampleHiddenStateTrajectory bhmm0 obs0 world0_extra) /\
  np_random (snd (_sampleHiddenStateTrajectory bhmm0 obs0 world0))
    = np_random (snd (_sampleHiddenStateTrajectory bhmm0 obs0 world0_extra)) /\
  heap (snd (_sampleHiddenStateTrajectory bhmm0 obs0 world0)) = heap world0 /\
  heap (snd (_sampleHiddenStateTrajectory bhmm0 obs0 world0_extra))
    = heap world0_extra.
Proof.
  apply (trajectory_determined_by_generator_state bhmm0 obs0 world0 world0_extra).
  - reflexivity.
  - intros m Hm. rewrite world0_model in Hm. injection Hm as <-. reflexivity.
  - reflexivity.
Defined.



(** The sampler with [reversible=False]: the first sweep of burn-in. *)
Lemma non_reversible_fails_fast_witness :
  (exists e, fst (sample bhmm_non_reversible 2 1 2 false world0) = Raise e) /\
  (forall w0, snd (_updateTransitionMatrix bhmm_non_reversible w0) = w0 /\
              exists e, fst (_updateTransitionMatrix bhmm_non_reversible w0) = Raise e) /\
  ((_ <- _updateHiddenStateTrajectories bhmm_non_reversible ;;
    _updateEmissionProbabilities bhmm_non_reversible) world0
   = (Ok tt,
      snd ((_ <- _updateHiddenStateTrajectories bhmm_non_reversible ;;
            _updateEmissionProbabilities bhmm_non_reversible) world0)) ->
   _updateTransitionMatrix bhmm_non_reversible
     (snd ((_ <- _updateHiddenStateTrajectories bhmm_non_reversible ;;
            _updateEmissionProbabilities bhmm_non_reversible) world0))
   = (Raise (Exception non_reversible_message),
      snd ((_ <- _updateHiddenStateTrajectories bhmm_non_reversible ;;
            _updateEmissionProbabilities bhmm_non_reversible) world0)) /\
   sample bhmm_non_reversible 2 1 2 false world0
   = (Raise (Exception non_reversible_message),
      snd ((_ <- _updateHiddenStateTrajectories bhmm_non_reversible ;;
            _updateEmissionProbabilities bhmm_non_reversible) world0))).
Proof.
  apply (non_reversible_fails_fast bhmm_non_reversible 2 1 2 false world0).
  - reflexivity.
  - left. lia.
Defined.

(** A tag that is neither ['discrete'] nor ['gaussian']. *)
Lemma generate_initial_model_dispatch_witness :
  generate_initial_model
    (fun _ _ _ _ _ => ret 1%positive) (fun _ _ _ _ => ret 1%positive)
    (observations bhmm0) 2 "poisson" false world0
  = (Raise (NotImplementedError "output model type poisson not yet implemented."),
     world0).
Proof.
  apply (proj2 (proj2 (generate_initial_model_dispatch
                         (fun _ _ _ _ _ => ret 1%positive)
                         (fun _ _ _ _ => ret 1%positive)
                         (observations bhmm0) 2 "poisson" false world0)));
    discriminate.
Defined.

End Runs.

(** * Further properties of the code *)

(** ** Loops and indices, by their outcome *)

Section Outcomes.
Context {externals : Externals}.

Lemma np_index_inv (len : nat) (i : Z) (k : nat) :
  np_index len i = Ok k -> (k < len)%nat.
Proof.
  unfold np_index. destruct (0 <=? i) eqn:Hi.
  - destruct (i <? Z.of_nat len) eqn:Hlt; [| discriminate].
    intros Heq. injection Heq as <-. lia.
  - destruct (0 <=? i + Z.of_nat len) eqn:Hlt; [| discriminate].
    intros Heq. injection Heq as <-. lia.
Qed.

Lemma np_index_raises (len : nat) (i : Z) (e : exn) :
  np_index len i = Raise e -> e = IndexError.
Proof.
  unfold np_index. repeat case_match; congruence.
Qed.

Lemma getitem_raises {A : Type} (a : list A) (i : Z) (e : exn) :
  getitem a i = Raise e -> e = IndexError.
Proof.
  unfold getitem. destruct (np_index (length a) i) as [e'|k] eqn:Hk; cbn.
  - intros Heq. injection Heq as <-. eapply np_index_raises. eassumption.
  - destruct (a !! k); congruence.
Qed.

Lemma getitem_nat_inv {A : Type} (a : list A) (k : nat) (x : A) :
  getitem a (Z.of_nat k) = Ok x -> a !! k = Some x.
Proof.
  unfold getitem, np_index.
  destruct (0 <=? Z.of_nat k) eqn:Hk; [| apply Z.leb_gt in Hk; lia].
  destruct (Z.of_nat k <? Z.of_nat (length a)); cbn; [| discriminate].
  rewrite Nat2Z.id. destruct (a !! k); congruence.
Qed.

Lemma setitem_inv {A : Type} (a a' : list A) (i : Z) (v : A) :
  setitem a i v = Ok a' -> exists k, (k < length a)%nat /\ a' = <[k := v]> a.
Proof.
  unfold setitem. destruct (np_index (length a) i) as [e|k] eqn:Hk; cbn; [discriminate |].
  intros Heq. injection Heq as <-. exists k. split; [| reflexivity].
  eapply np_index_inv. eassumption.
Qed.

Lemma range_lookup (n : Z) (i : nat) (x : Z) :
  range 0 n !! i = Some x -> x = Z.of_nat i /\ Z.of_nat i < n.
Proof.
  unfold range. rewrite list_lookup_fmap. intros Hx.
  destruct (seq 0 (Z.to_nat (n - 0)) !! i) as [k|] eqn:Hk; [| discriminate].
  apply lookup_seq in Hk as [-> Hlt]. cbn in Hx. injection Hx as <-. lia.
Qed.

(** What a loop leaves behind: an invariant indexed by the number of
    iterations that returned. *)
Lemma mfor_outcome {A S : Type} (Inv : nat -> world -> Prop) (xs : list A)
  (body : A -> S -> M S) (s : S) (w : world) :
  (forall i x s0 w0, xs !! i = Some x -> Inv i w0 ->
     match body x s0 w0 with
     | (inr _, w1) => Inv (Datatypes.S i) w1
     | (inl _, w1) => Inv i w1
     end) ->
  Inv O w ->
  match mfor xs body s w with
  | (inr _, w') => Inv (length xs) w'
  | (inl _, w') => exists i, (i < length xs)%nat /\ Inv i w'
  end.
Proof.
  revert Inv s w. induction xs as [|x xs IH]; intros Inv s w Hstep Hstart.
  - exact Hstart.
  - rewrite mfor_cons, bind_apply.
    pose proof (Hstep O x s w eq_refl Hstart) as Hfirst.
    destruct (body x s w) as [[e|s1] w1].
    + exists O. split; [cbn; lia | exact Hfirst].
    + specialize (IH (fun i => Inv (Datatypes.S i)) s1 w1).
      cbn beta in IH.
      assert (forall i x0 s0 w0, xs !! i = Some x0 -> Inv (Datatypes.S i) w0 ->
                match body x0 s0 w0 with
                | (inr _, w2) => Inv (Datatypes.S (Datatypes.S i)) w2
                | (inl _, w2) => Inv (Datatypes.S i) w2
                end) as Hstep'.
      { intros i x0 s0 w0 Hx. apply (Hstep (Datatypes.S i) x0 s0 w0). exact Hx. }
      specialize (IH Hstep' Hfirst).
      destruct (mfor xs body s1 w1) as [[e|s2] w2].
      * destruct IH as (i & Hi & Hinv). exists (Datatypes.S i). split; [cbn; lia | exact Hinv].
      * exact IH.
Qed.

(** What a loop that returned has computed: a property of the loop state
    that every returning iteration keeps. *)
Lemma mfor_returned {A S : Type} (P : S -> Prop) (xs : list A)
  (body : A -> S -> M S) (s s' : S) (w w' : world) :
  (forall x s0 w0 s1 w1, P s0 -> body x s0 w0 = (Ok s1, w1) -> P s1) ->
  P s -> mfor xs body s w = (Ok s', w') -> P s'.
Proof.
  intros Hstep. revert s w. induction xs as [|x xs IH]; intros s w Hs Hrun.
  - cbn in Hrun. injection Hrun as <- _. exact Hs.
  - rewrite mfor_cons, bind_apply in Hrun.
    destruct (body x s w) as [[e|s1] w1] eqn:Hbody; [discriminate |].
    eapply IH; [| exact Hrun]. eapply Hstep; eassumption.
Qed.

(** A computation that returned, with the world it left. *)
Lemma run_returned {A : Type} (c : M A) (w : world) (a : A) :
  fst (c w) = Ok a -> c w = (Ok a, snd (c w)).
Proof. destruct (c w) as [r w']. cbn. intros ->. reflexivity. Qed.

End Outcomes.

(** ** The trajectory the sampler returns *)

Section TrajectoryShape.
Context {externals : Externals}.

(** numpy's contract for [choice]: the draw is an element of [range(n)]. *)
Hypothesis random_choice_in_range :
  forall (n : nat) (p : list float) (g g' : RandomState) (k : nat),
    random_choice n p g = (Ok k, g') -> (k < n)%nat.

Lemma choice_returned (n : nat) (p : list float) (w w' : world) (k : nat) :
  with_np_random (random_choice n p) w = (Ok k, w') -> (k < n)%nat.
Proof.
  unfold with_np_random.
  destruct (random_choice n p (np_random w)) as [r g] eqn:Hdraw.
  intros Heq. injection Heq as -> _. eapply random_choice_in_range. eassumption.
Qed.

Lemma valid_trajectory_insert (n T : nat) (s_t : list Z) (i k : nat) :
  Z.of_nat n < 2 ^ 31 -> (k < n)%nat ->
  length s_t = T -> Forall (fun s => 0 <= s < Z.of_nat n \/ s = 0) s_t ->
  length (<[i := astype_int32 (Z.of_nat k)]> s_t) = T /\
  Forall (fun s => 0 <= s < Z.of_nat n \/ s = 0)
    (<[i := astype_int32 (Z.of_nat k)]> s_t).
Proof.
  intros Hn Hk Hlen Hall. split; [rewrite length_insert; exact Hlen |].
  apply Forall_insert; [exact Hall |].
  rewrite astype_int32_small by lia. left. lia.
Qed.

Lemma sample_final_returned (n : nat) (log_alpha : matrix) (T : Z)
  (s_t s' : list Z) (w w' : world) :
  sample_final n log_alpha T s_t w = (Ok s', w') ->
  exists (i k : nat), (k < n)%nat /\ (i < length s_t)%nat /\
                      s' = <[i := astype_int32 (Z.of_nat k)]> s_t.
Proof.
  unfold sample_final, bind, lift.
  destruct (getcol log_alpha (T - 1)) as [e|col]; [discriminate |].
  destruct (scipy_logsumexp col) as [e|lse]; [discriminate |].
  destruct (with_np_random _ w) as [[e|k] w1] eqn:Hdraw; [discriminate |].
  destruct (setitem s_t (T - 1) _) as [e|s1] eqn:Hset; [discriminate |].
  intros Heq. injection Heq as <- _.
  apply setitem_inv in Hset as (i & Hi & ->).
  exists i, k. split; [eapply choice_returned; eassumption |]. split; [exact Hi | reflexivity].
Qed.

Lemma sample_previous_returned (n : nat) (log_alpha logTij : matrix) (t : Z)
  (s_t s' : list Z) (w w' : world) :
  sample_previous n log_alpha logTij t s_t w = (Ok s', w') ->
  exists (i k : nat), (k < n)%nat /\ (i < length s_t)%nat /\
                      s' = <[i := astype_int32 (Z.of_nat k)]> s_t.
Proof.
  unfold sample_previous, bind, lift.
  destruct (getcol log_alpha t) as [e|col]; [discriminate |].
  destruct (getitem s_t (t + 1)) as [e|next]; [discriminate |].
  destruct (getcol logTij next) as [e|tnext]; [discriminate |].
  destruct (np_add col tnext) as [e|log_p]; [discriminate |].
  destruct (scipy_logsumexp log_p) as [e|lse]; [discriminate |].
  destruct (with_np_random _ w) as [[e|k] w1] eqn:Hdraw; [discriminate |].
  destruct (setitem s_t t _) as [e|s1] eqn:Hset; [discriminate |].
  intros Heq. injection Heq as <- _.
  apply setitem_inv in Hset as (i & Hi & ->).
  exists i, k. split; [eapply choice_returned; eassumption |]. split; [exact Hi | reflexivity].
Qed.

Lemma backward_sampling_returned (n T : nat) (log_alpha logTij : matrix)
  (s_t : list Z) (w w' : world) :
  Z.of_nat n < 2 ^ 31 ->
  backward_sampling n log_alpha logTij T w = (Ok s_t, w') ->
  valid_trajectory n T s_t /\ (0 < T)%nat.
Proof.
  intros Hn. unfold backward_sampling. rewrite bind_apply.
  destruct (sample_final n log_alpha (Z.of_nat T) (replicate T 0) w)
    as [[e|s1] w1] eqn:Hfinal; [discriminate |].
  apply sample_final_returned in Hfinal as (i & k & Hk & Hi & ->).
  rewrite length_replicate in Hi.
  rewrite bind_apply.
  destruct (mfor _ _ _ w1) as [[e|s2] w2] eqn:Hloop; [discriminate |].
  intros Heq. injection Heq as <- _.
  assert (length s2 = T /\ Forall (fun s => 0 <= s < Z.of_nat n \/ s = 0) s2) as [Hlen Hall].
  { eapply (mfor_returned
              (fun s => length s = T /\ Forall (fun s => 0 <= s < Z.of_nat n \/ s = 0) s));
      [| | exact Hloop].
    - intros t s0 w0 s3 w3 [Hlen0 Hall0] Hstep.
      apply sample_previous_returned in Hstep as (i' & k' & Hk' & _ & ->).
      apply valid_trajectory_insert; assumption.
    - apply valid_trajectory_insert; [assumption .. | apply length_replicate |].
      apply Forall_replicate. right. reflexivity. }
  split; [| lia]. split; [exact Hlen |].
  eapply Forall_impl; [exact Hall |]. cbn. intros s [Hs | ->]; [exact Hs | lia].
Qed.

Lemma _sampleHiddenStateTrajectory_returned (self : BHMM) (o_t : list float)
  (w w' : world) (m : HMM.t) (s_t : list Z) :
  heap w !! model self = Some (HMMObj m) ->
  Z.of_nat (HMM.nstates m) < 2 ^ 31 ->
  _sampleHiddenStateTrajectory self o_t w = (Ok s_t, w') ->
  valid_trajectory (HMM.nstates m) (length o_t) s_t /\ (0 < length o_t)%nat.
Proof using random_choice_in_range.
  intros Hmodel Hn. unfold _sampleHiddenStateTrajectory, bind, deref_HMM.
  rewrite Hmodel.
  destruct (forward _ _ _ _ o_t) as [e|log_alpha]; [discriminate |].
  apply backward_sampling_returned. exact Hn.
Qed.

(** X1: the trajectory [_sampleHiddenStateTrajectory] returns has one state
    for each observation, every one of them a state of the model; and it
    returns none for an empty sequence. *)
Theorem sampled_trajectory_is_valid (self : BHMM) (o_t : list float)
  (w w' : world) (m : HMM.t) (s_t : list Z) :
  heap w !! model self = Some (HMMObj m) ->
  Z.of_nat (HMM.nstates m) < 2 ^ 31 ->
  _sampleHiddenStateTrajectory self o_t w = (Ok s_t, w') ->
  valid_trajectory (HMM.nstates m) (length o_t) s_t /\ (0 < length o_t)%nat.
Proof using random_choice_in_range. apply _sampleHiddenStateTrajectory_returned. Qed.

End TrajectoryShape.

Section EmptySequence.
Context {externals : Externals}.

(** X2: an empty observation sequence makes the sampler of a model with at
    least one state raise [IndexError], at [o_t[0]] or at [logPi[0]] before
    it; no draw has been made and nothing is written. *)
Theorem empty_sequence_raises_IndexError (self : BHMM) (w : world) (m : HMM.t) :
  heap w !! model self = Some (HMMObj m) ->
  (0 < HMM.nstates m)%nat ->
  _sampleHiddenStateTrajectory self [] w = (Raise IndexError, w).
Proof.
  intros Hmodel Hn. unfold _sampleHiddenStateTrajectory, bind, deref_HMM.
  rewrite Hmodel. unfold forward, forward_first.
  rewrite range_cons by lia. cbn [rfor rbind].
  destruct (getitem (HMM.logPi m) 0) as [e|pi] eqn:Hpi; cbn [rbind].
  - apply getitem_raises in Hpi as ->. reflexivity.
  - reflexivity.
Qed.

End EmptySequence.

(** ** The hidden state update *)

Section HiddenStateUpdate.
Context {externals : Externals}.

Lemma Forall2_take_snoc {A B : Type} (R : A -> B -> Prop) (xs : list A)
  (ys : list B) (x : A) (y : B) :
  Forall2 R (take (length ys) xs) ys ->
  xs !! length ys = Some x -> R x y ->
  Forall2 R (take (length (ys ++ [y])) xs) (ys ++ [y]).
Proof.
  intros Hall Hx Hxy.
  rewrite length_app. cbn [length]. rewrite Nat.add_1_r.
  rewrite (take_S_r _ _ x) by exact Hx.
  apply Forall2_app; [exact Hall |]. constructor; [exact Hxy | constructor].
Qed.

(** One iteration of the loop of lines 173-175, in a world where the model
    refers to the list [l] of the trajectories drawn so far: it appends a
    trajectory sampled for the next sequence, or raises and leaves the list
    as it is. *)
Lemma append_trajectory_step (self : BHMM) (w0 w : world) (m1 : HMM.t) (l : loc)
  (ts : list (list Z)) :
  heap w0 !! model self = Some (HMMObj m1) ->
  HMM.hidden_state_trajectories m1 = Some l ->
  l <> model self ->
  heap w = <[l := ListObj ts]> (heap w0) ->
  match
    (o_t <- lift (getitem (observations self) (Z.of_nat (length ts))) ;;
     hidden_state_trajectory <- _sampleHiddenStateTrajectory self o_t ;;
     m <- deref_HMM (model self) ;;
     match HMM.hidden_state_trajectories m with
     | Some l =>
         ts <- deref_list l ;;
         store l (ListObj (ts ++ [hidden_state_trajectory]))
     | None => raise AttributeError
     end) w
  with
  | (inr _, w') =>
      exists o_t s_t w2,
        observations self !! length ts = Some o_t /\
        _sampleHiddenStateTrajectory self o_t w = (Ok s_t, w2) /\
        heap w' = <[l := ListObj (ts ++ [s_t])]> (heap w0)
  | (inl _, w') => heap w' = heap w
  end.
Proof.
  intros Hmodel Hrefers Hdistinct Hheap.
  rewrite bind_apply. unfold lift at 1.
  destruct (getitem (observations self) (Z.of_nat (length ts))) as [e|o_t] eqn:Ho;
    [reflexivity |].
  apply getitem_nat_inv in Ho.
  rewrite bind_apply.
  pose proof (_sampleHiddenStateTrajectory_heap self o_t w) as Hsame.
  destruct (_sampleHiddenStateTrajectory self o_t w) as [[e|s_t] w2] eqn:Hsample;
    cbn [snd] in Hsame; [exact Hsame |].
  assert (heap w !! model self = Some (HMMObj m1)) as Hmodel_w.
  { rewrite Hheap, lookup_insert_ne by exact Hdistinct. exact Hmodel. }
  rewrite bind_apply. unfold deref_HMM at 1. rewrite Hsame, Hmodel_w, Hrefers.
  rewrite bind_apply. unfold deref_list. rewrite Hsame, Hheap, lookup_insert_eq.
  unfold store. cbn [heap].
  exists o_t, s_t, w2. split; [exact Ho |]. split; [exact Hsample |].
  rewrite Hsame, Hheap, insert_insert_eq. reflexivity.
Qed.

(** The whole loop, from the empty list: what it leaves in the list when it
    returns, and when it raises.  Every trajectory in the list was sampled
    for the sequence at its index, in a world that held the model [m1]. *)
Lemma append_trajectories_outcome (self : BHMM) (w0 : world) (m1 : HMM.t) (l : loc) :
  heap w0 !! model self = Some (HMMObj m1) ->
  HMM.hidden_state_trajectories m1 = Some l ->
  heap w0 !! l = Some (ListObj []) ->
  let r :=
    mfor (range 0 (Z.of_nat (ntrajectories self)))
      (fun trajectory_index _ =>
         o_t <- lift (getitem (observations self) trajectory_index) ;;
         hidden_state_trajectory <- _sampleHiddenStateTrajectory self o_t ;;
         m <- deref_HMM (model self) ;;
         match HMM.hidden_state_trajectories m with
         | Some l =>
             ts <- deref_list l ;;
             store l (ListObj (ts ++ [hidden_state_trajectory]))
         | None => raise AttributeError
         end)
      tt w0 in
  exists ts,
    heap (snd r) = <[l := ListObj ts]> (heap w0) /\
    Forall2 (fun o_t s_t => exists w1 w2,
               heap w1 !! model self = Some (HMMObj m1) /\
               _sampleHiddenStateTrajectory self o_t w1 = (Ok s_t, w2))
      (take (length ts) (observations self)) ts /\
    match fst r with
    | inr _ => length ts = ntrajectories self
    | inl _ => (length ts < ntrajectories self)%nat
    end.
Proof.
  intros Hmodel Hrefers Hlist r.
  assert (l <> model self) as Hdistinct by congruence.
  set (Inv := fun (i : nat) (w : world) =>
    exists ts, heap w = <[l := ListObj ts]> (heap w0) /\
               Forall2 (fun o_t s_t => exists w1 w2,
                          heap w1 !! model self = Some (HMMObj m1) /\
                          _sampleHiddenStateTrajectory self o_t w1 = (Ok s_t, w2))
                 (take (length ts) (observations self)) ts /\
               length ts = i).
  assert (length (range 0 (Z.of_nat (ntrajectories self))) = ntrajectories self) as Hlen.
  { unfold range. rewrite length_map, length_seq. lia. }
  assert (match r with
          | (inr _, w') => Inv (ntrajectories self) w'
          | (inl _, w') => exists i, (i < ntrajectories self)%nat /\ Inv i w'
          end) as Hloop.
  { subst r.
    match goal with
    | |- match mfor ?xs ?body ?s ?w with _ => _ end =>
        pose proof (mfor_outcome Inv xs body s w) as Hm
    end.
    rewrite Hlen in Hm. apply Hm.
    - intros i x [] w Hx (ts & Hheap & Hall & Hts).
      apply range_lookup in Hx as [-> _]. subst i.
      pose proof (append_trajectory_step self w0 w m1 l ts
                    Hmodel Hrefers Hdistinct Hheap) as Hstep.
      destruct (bind _ _ w) as [[e|[]] w'].
      + exists ts. rewrite Hstep. auto.
      + destruct Hstep as (o_t & s_t & w2 & Ho & Hsample & Hheap').
        exists (ts ++ [s_t]). split; [exact Hheap' |]. split.
        * apply (Forall2_take_snoc _ _ _ o_t); [exact Hall | exact Ho |].
          exists w, w2. split; [| exact Hsample].
          rewrite Hheap, lookup_insert_ne by exact Hdistinct. exact Hmodel.
        * rewrite length_app. cbn. lia.
    - exists []. split; [| split; [cbn; rewrite take_0; constructor | reflexivity]].
      rewrite insert_id by exact Hlist. reflexivity. }
  destruct r as [[e|[]] w1]; cbn [fst snd].
  - destruct Hloop as (i & Hi & ts & Hheap & Hall & Hts).
    exists ts. split; [exact Hheap |]. split; [exact Hall | lia].
  - destruct Hloop as (ts & Hheap & Hall & Hts).
    exists ts. split; [exact Hheap |]. split; [exact Hall | exact Hts].
Qed.

(** [_updateHiddenStateTrajectories] from a world that holds the model: the
    model comes to refer to a new list, which the loop fills. *)
Lemma updateHiddenStateTrajectories_outcome (self : BHMM) (w : world) (m : HMM.t) :
  heap w !! model self = Some (HMMObj m) ->
  exists l ts,
    (l ∉ dom (heap w)) /\
    heap (snd (_updateHiddenStateTrajectories self w))
      = <[l := ListObj ts]>
          (<[model self := HMMObj (set_hidden_state_trajectories (Some l) m)]> (heap w)) /\
    Forall2 (fun o_t s_t => exists w1 w2,
               heap w1 !! model self
                 = Some (HMMObj (set_hidden_state_trajectories (Some l) m)) /\
               _sampleHiddenStateTrajectory self o_t w1 = (Ok s_t, w2))
      (take (length ts) (observations self)) ts /\
    match fst (_updateHiddenStateTrajectories self w) with
    | inr _ => length ts = ntrajectories self
    | inl _ => (length ts < ntrajectories self)%nat
    end.
Proof.
  intros Hmodel.
  destruct (_updateHiddenStateTrajectories self w) as [r w'] eqn:Hrun.
  cbn [fst snd]. unfold _updateHiddenStateTrajectories in Hrun.
  rewrite bind_apply in Hrun.
  destruct (alloc (ListObj []) w) as [r1 w1] eqn:Halloc.
  apply alloc_inv in Halloc as (l & -> & Hfresh & ->).
  assert (l <> model self) as Hdistinct.
  { intros ->. apply Hfresh. apply elem_of_dom. eauto. }
  rewrite bind_apply in Hrun. unfold deref_HMM at 1 in Hrun. cbn [heap] in Hrun.
  rewrite lookup_insert_ne in Hrun by exact Hdistinct. rewrite Hmodel in Hrun.
  rewrite bind_apply in Hrun. unfold store at 1 in Hrun. cbn [heap np_random] in Hrun.
  match type of Hrun with
  | mfor _ _ tt ?w0 = _ =>
      pose proof (append_trajectories_outcome self w0
                    (set_hidden_state_trajectories (Some l) m) l) as Hloop
  end.
  cbv zeta in Hloop. rewrite Hrun in Hloop. cbn [heap fst snd] in Hloop.
  destruct Hloop as (ts & Hheap & Hall & Hlen).
  - apply lookup_insert_eq.
  - reflexivity.
  - rewrite lookup_insert_ne by congruence. apply lookup_insert_eq.
  - exists l, ts. split; [exact Hfresh |]. split; [| split; [exact Hall | exact Hlen]].
    rewrite Hheap.
    rewrite (insert_insert_ne _ (model self) l) by congruence.
    rewrite insert_insert_eq. reflexivity.
Qed.

End HiddenStateUpdate.

(** ** The emission and transition matrix updates, by their outcome *)

Section UpdateOutcomes.
Context {externals : Externals}.

Lemma mfor_collect_length {A B : Type} (xs : list A)
  (body : A -> list B -> M (list B)) (acc acc' : list B) (w w' : world) :
  (forall x s0 w0 s1 w1, body x s0 w0 = (Ok s1, w1) -> length s1 = S (length s0)) ->
  mfor xs body acc w = (Ok acc', w') ->
  length acc' = (length acc + length xs)%nat.
Proof.
  intros Hbody. revert acc w. induction xs as [|x xs IH]; intros acc w Hrun.
  - cbn in Hrun. injection Hrun as <- _. cbn. lia.
  - rewrite mfor_cons, bind_apply in Hrun.
    destruct (body x acc w) as [[e|s1] w1] eqn:Hx; [discriminate |].
    apply Hbody in Hx. apply IH in Hrun. cbn [length]. lia.
Qed.

Lemma length_range (start stop : Z) :
  length (range start stop) = Z.to_nat (stop - start).
Proof. unfold range. rewrite length_map, length_seq. reflexivity. Qed.

(** [_updateEmissionProbabilities]: when it returns it has called the output
    model's [sample] once, with one list of observations for each state, and
    has written the output model object; when it raises it has written
    nothing. *)
Lemma updateEmissionProbabilities_outcome (self : BHMM) (w : world) :
  match _updateEmissionProbabilities self w with
  | (inr _, w') =>
      exists m theta theta' observations_by_state,
        heap w !! model self = Some (HMMObj m) /\
        heap w !! HMM.output_model m = Some (OutputObj theta) /\
        length observations_by_state = HMM.nstates m /\
        output_model_sample observations_by_state theta (np_random w)
          = (Ok theta', np_random w') /\
        heap w' = <[HMM.output_model m := OutputObj theta']> (heap w)
  | (inl _, w') => heap w' = heap w
  end.
Proof.
  unfold _updateEmissionProbabilities.
  rewrite bind_apply. unfold deref_HMM at 1.
  destruct (heap w !! model self) as [[m|theta|ts]|] eqn:Hm; try reflexivity.
  rewrite bind_apply.
  match goal with
  | |- context [mfor ?xs ?body [] w] =>
      assert (reads_only (mfor xs body [])) as Hread;
      [| pose proof (mfor_collect_length xs body []) as Hlen;
         destruct (mfor xs body [] w) as [[e|by_state] w1] eqn:Hloop]
  end.
  { apply reads_only_mfor. intros state acc.
    apply reads_only_bind; [intros w0; apply deref_HMM_world |].
    intros m1. apply reads_only_bind; [apply reads_only_collect |].
    intros os w0. reflexivity. }
  all: pose proof (Hread w) as Hw1; rewrite Hloop in Hw1; cbn [snd] in Hw1; subst w1.
  { reflexivity. }
  apply Hlen in Hloop.
  2:{ intros x s0 w0 s1 w1. unfold bind, deref_HMM.
      destruct (heap w0 !! model self) as [[m0|theta0|ts0]|]; try discriminate.
      destruct (collect_observations_in_state m0 (observations self) x w0)
        as [[e|os] w2]; [discriminate |].
      unfold ret. intros Heq. injection Heq as <- _.
      rewrite length_app. cbn. lia. }
  rewrite length_range in Hloop. cbn [length] in Hloop.
  rewrite bind_apply. unfold deref_HMM. rewrite Hm.
  rewrite bind_apply. unfold deref_output.
  destruct (heap w !! HMM.output_model m) as [[m0|theta|ts]|] eqn:Htheta; try reflexivity.
  rewrite bind_apply. unfold with_np_random.
  destruct (output_model_sample by_state theta (np_random w)) as [[e|theta'] g] eqn:Hdraw;
    [reflexivity |].
  unfold store. cbn [heap np_random].
  exists m, theta, theta', by_state. split_and!; try reflexivity; try assumption. lia.
Qed.

(** The list comprehension of line 255, in a world that holds the model:
    one call of [collect_observations_in_state] for each state, in order,
    none of which writes. *)
Lemma collect_loop_returned (self : BHMM) (m : HMM.t) (xs : list Z)
  (acc r : list (list float)) (w w' : world) :
  heap w !! model self = Some (HMMObj m) ->
  mfor xs
    (fun state acc =>
       m <- deref_HMM (model self) ;;
       os <- collect_observations_in_state m (observations self) state ;;
       ret (acc ++ [os]))
    acc w = (Ok r, w') ->
  w' = w /\
  exists new,
    r = acc ++ new /\
    Forall2 (fun state os =>
               collect_observations_in_state m (observations self) state w = (Ok os, w))
      xs new.
Proof.
  intros Hm. revert acc. induction xs as [|x xs IH]; intros acc Hrun.
  - cbn in Hrun. injection Hrun as <- <-. split; [reflexivity |].
    exists []. rewrite app_nil_r. split; [reflexivity | constructor].
  - rewrite mfor_cons, bind_apply in Hrun.
    rewrite bind_apply in Hrun. unfold deref_HMM at 1 in Hrun. rewrite Hm in Hrun.
    rewrite bind_apply in Hrun.
    pose proof (reads_only_collect m (observations self) x w) as Hread.
    destruct (collect_observations_in_state m (observations self) x w)
      as [[e|os] w1] eqn:Hcollect; [discriminate |].
    cbn [snd] in Hread. subst w1. unfold ret at 1 in Hrun.
    destruct (IH (acc ++ [os]) Hrun) as (-> & new & -> & Hall).
    split; [reflexivity |]. exists (os :: new). rewrite <- app_assoc.
    split; [reflexivity |]. constructor; [exact Hcollect | exact Hall].
Qed.

(** What [collect_observations_in_state] returns for a model with
    trajectories. *)
Lemma collect_observations_returned (m : HMM.t) (observations : list (list float))
  (state : Z) (w : world) (os : list float) (l : loc) (trajs : list (list Z)) :
  HMM.hidden_state_trajectories m = Some l ->
  heap w !! l = Some (ListObj trajs) ->
  collect_observations_in_state m observations state w = (Ok os, w) ->
  os = concat (zip_with (observations_in_state state) observations trajs).
Proof.
  intros Hl Htrajs. unfold collect_observations_in_state, trajectories_of.
  rewrite Hl, bind_apply. unfold deref_list. rewrite Htrajs. unfold ret.
  intros Heq. injection Heq as <-. reflexivity.
Qed.

Lemma Forall2_fmap_eq {A B : Type} (f : A -> B) (xs : list A) (ys : list B) :
  Forall2 (fun x y => y = f x) xs ys -> ys = map f xs.
Proof. induction 1 as [|x y xs ys -> _ IH]; cbn; [reflexivity | rewrite IH; reflexivity]. Qed.

(** [_updateEmissionProbabilities] when it returns: the list handed to the
    output model's [sample] is the one line 255 builds, the observations
    collected for state 0, for state 1 and so on; what [sample] returns is in
    the output model object, and nothing else is written. *)
Lemma updateEmissionProbabilities_returned (self : BHMM) (w w' : world) :
  _updateEmissionProbabilities self w = (Ok tt, w') ->
  exists m theta theta' observations_by_state,
    heap w !! model self = Some (HMMObj m) /\
    heap w !! HMM.output_model m = Some (OutputObj theta) /\
    Forall2 (fun state os =>
               collect_observations_in_state m (observations self) state w = (Ok os, w))
      (range 0 (Z.of_nat (HMM.nstates m))) observations_by_state /\
    (forall l trajs,
       HMM.hidden_state_trajectories m = Some l ->
       heap w !! l = Some (ListObj trajs) ->
       observations_by_state =
         map (fun state =>
                concat (zip_with (observations_in_state state) (observations self) trajs))
           (range 0 (Z.of_nat (HMM.nstates m)))) /\
    output_model_sample observations_by_state theta (np_random w)
      = (Ok theta', np_random w') /\
    heap w' = <[HMM.output_model m := OutputObj theta']> (heap w).
Proof.
  unfold _updateEmissionProbabilities.
  rewrite bind_apply. unfold deref_HMM at 1.
  destruct (heap w !! model self) as [[m|theta|ts]|] eqn:Hm; try discriminate.
  rewrite bind_apply.
  match goal with
  | |- context [mfor ?xs ?body [] w] =>
      destruct (mfor xs body [] w) as [[e|by_state] w1] eqn:Hloop; [discriminate |]
  end.
  apply (collect_loop_returned self m) in Hloop as (-> & new & -> & Hall);
    [| exact Hm].
  cbn [app].
  rewrite bind_apply. unfold deref_HMM. rewrite Hm.
  rewrite bind_apply. unfold deref_output.
  destruct (heap w !! HMM.output_model m) as [[m0|theta|ts]|] eqn:Htheta; try discriminate.
  rewrite bind_apply. unfold with_np_random.
  destruct (output_model_sample new theta (np_random w)) as [[e|theta'] g] eqn:Hdraw;
    [discriminate |].
  unfold store. cbn [heap np_random]. intros Heq. injection Heq as <-.
  exists m, theta, theta', new. cbn [heap np_random].
  split_and!; try reflexivity; try assumption.
  intros l trajs Hl Htrajs. apply Forall2_fmap_eq.
  eapply Forall2_impl; [exact Hall |]. cbn. intros state os Hcollect.
  eapply collect_observations_returned; eassumption.
Qed.

(** [_updateTransitionMatrix]: when it returns the prior is the reversible
    one and the model object has the matrix the sampler drew from the count
    matrix; when it raises it has written nothing. *)
Lemma updateTransitionMatrix_outcome (self : BHMM) (w : world) :
  match _updateTransitionMatrix self w with
  | (inr _, w') =>
      exists m C Tnew,
        reversible self = true /\
        heap w !! model self = Some (HMMObj m) /\
        fst (count_matrix m w) = Ok C /\
        TransitionMatrixSamplerRev_sample C (transition_matrix_sampling_steps self)
          (np_random w) = (Ok Tnew, np_random w') /\
        heap w' = <[model self := HMMObj (set_Tij Tnew m)]> (heap w)
  | (inl _, w') => heap w' = heap w
  end.
Proof.
  unfold _updateTransitionMatrix.
  rewrite bind_apply. unfold deref_HMM at 1.
  destruct (heap w !! model self) as [[m|theta|ts]|] eqn:Hm; try reflexivity.
  rewrite bind_apply.
  pose proof (reads_only_count_matrix m w) as Hread.
  destruct (count_matrix m w) as [[e|C] w1] eqn:Hcount; cbn [snd] in Hread; subst w1;
    [reflexivity |].
  destruct (reversible self); [| reflexivity].
  rewrite bind_apply. unfold with_np_random.
  destruct (TransitionMatrixSamplerRev_sample C _ (np_random w)) as [[e|Tnew] g] eqn:Hdraw;
    [reflexivity |].
  rewrite bind_apply. unfold deref_HMM. cbn [heap]. rewrite Hm.
  unfold store. cbn [heap np_random].
  exists m, C, Tnew. rewrite Hcount. split_and!; try reflexivity; assumption.
Qed.

End UpdateOutcomes.

(** ** One sweep *)

Section Sweep.
Context {externals : Externals}.

Lemma writes_only_same (written : gset loc) (w w' : world) :
  heap w' = heap w -> writes_only written w w'.
Proof. intros Heq. split; rewrite Heq; [reflexivity | intros; reflexivity]. Qed.

Lemma writes_only_insert (written : gset loc) (w w' : world) (x : loc) (o : obj) :
  heap w' = <[x := o]> (heap w) ->
  x ∈ written \/ x ∉ dom (heap w) ->
  writes_only written w w'.
Proof.
  intros Heq Hx. split; rewrite Heq.
  - rewrite dom_insert_L. set_solver.
  - intros y Hy Hnot. apply lookup_insert_ne. destruct Hx; set_solver.
Qed.

Lemma writes_only_trans (written : gset loc) (w1 w2 w3 : world) :
  writes_only written w1 w2 -> writes_only written w2 w3 ->
  writes_only written w1 w3.
Proof.
  intros [Hdom12 Hkeep12] [Hdom23 Hkeep23]. split; [set_solver |].
  intros x Hx Hnot. rewrite Hkeep23 by set_solver. apply Hkeep12; assumption.
Qed.

(** A sweep that returned: the model object it leaves, and the list of
    trajectories that object refers to. *)
Lemma update_returned (self : BHMM) (w w' : world) (m : HMM.t) :
  heap w !! model self = Some (HMMObj m) ->
  _update self w = (Ok tt, w') ->
  exists m' l ts,
    heap w' !! model self = Some (HMMObj m') /\
    HMM.nstates m' = HMM.nstates m /\
    HMM.output_model m' = HMM.output_model m /\
    HMM.hidden_state_trajectories m' = Some l /\
    (l ∉ dom (heap w)) /\
    heap w' !! l = Some (ListObj ts) /\
    length ts = ntrajectories self /\
    Forall2 (fun o_t s_t => exists w1 w2 m1,
               heap w1 !! model self = Some (HMMObj m1) /\
               HMM.nstates m1 = HMM.nstates m /\
               _sampleHiddenStateTrajectory self o_t w1 = (Ok s_t, w2))
      (take (length ts) (observations self)) ts.
Proof.
  intros Hmodel. unfold _update. rewrite bind_apply.
  destruct (updateHiddenStateTrajectories_outcome self w m Hmodel)
    as (l & ts & Hfresh & Hheap1 & Hall & Hlen).
  destruct (_updateHiddenStateTrajectories self w) as [[e|[]] w1]; [discriminate |].
  cbn [fst snd] in Hheap1, Hlen.
  set (m1 := set_hidden_state_trajectories (Some l) m) in *.
  assert (l <> model self) as Hdistinct.
  { intros ->. apply Hfresh. apply elem_of_dom. eauto. }
  assert (heap w1 !! model self = Some (HMMObj m1)) as Hmodel1.
  { rewrite Hheap1, lookup_insert_ne by exact Hdistinct. apply lookup_insert_eq. }
  assert (heap w1 !! l = Some (ListObj ts)) as Hlist1.
  { rewrite Hheap1. apply lookup_insert_eq. }
  rewrite bind_apply.
  pose proof (updateEmissionProbabilities_outcome self w1) as Hemission.
  destruct (_updateEmissionProbabilities self w1) as [[e|[]] w2]; [discriminate |].
  destruct Hemission as (m_ & theta & theta' & by_state & Hm_ & Htheta & _ & _ & Hheap2).
  rewrite Hmodel1 in Hm_. injection Hm_ as <-.
  assert (heap w2 !! model self = Some (HMMObj m1)) as Hmodel2.
  { rewrite Hheap2, lookup_insert_ne by congruence. exact Hmodel1. }
  assert (heap w2 !! l = Some (ListObj ts)) as Hlist2.
  { rewrite Hheap2, lookup_insert_ne by congruence. exact Hlist1. }
  pose proof (updateTransitionMatrix_outcome self w2) as Htransition.
  destruct (_updateTransitionMatrix self w2) as [[e|[]] w3]; [discriminate |].
  destruct Htransition as (m_ & C & Tnew & _ & Hm_ & _ & _ & Hheap3).
  rewrite Hmodel2 in Hm_. injection Hm_ as <-.
  intros Heq. injection Heq as <-.
  exists (set_Tij Tnew m1), l, ts. split_and!; try reflexivity.
  - rewrite Hheap3. apply lookup_insert_eq.
  - exact Hfresh.
  - rewrite Hheap3, lookup_insert_ne by congruence. exact Hlist2.
  - exact Hlen.
  - eapply Forall2_impl; [exact Hall |]. cbn.
    intros o_t s_t (wa & wb & Hwa & Hsample). exists wa, wb, m1.
    split; [exact Hwa |]. split; [reflexivity | exact Hsample].
Qed.

(** What a sweep may write: the model object and its output model; every
    other object that was there is as it was, whether the sweep returns or
    raises. *)
Lemma update_writes (self : BHMM) (w : world) (m : HMM.t) :
  heap w !! model self = Some (HMMObj m) ->
  writes_only {[model self; HMM.output_model m]} w (snd (_update self w)).
Proof.
  intros Hmodel. unfold _update. rewrite bind_apply.
  destruct (updateHiddenStateTrajectories_outcome self w m Hmodel)
    as (l & ts & Hfresh & Hheap1 & _).
  set (m1 := set_hidden_state_trajectories (Some l) m) in *.
  assert (l <> model self) as Hdistinct.
  { intros ->. apply Hfresh. apply elem_of_dom. eauto. }
  assert (writes_only {[model self; HMM.output_model m]} w
            (snd (_updateHiddenStateTrajectories self w))) as Hw1.
  { eapply (writes_only_trans _ w
              (World (<[model self := HMMObj m1]> (heap w)) (np_random w))).
    - eapply writes_only_insert; [reflexivity |]. left. set_solver.
    - eapply writes_only_insert; [exact Hheap1 |]. right. cbn [heap].
      rewrite dom_insert_L. set_solver. }
  destruct (_updateHiddenStateTrajectories self w) as [[e|[]] w1];
    cbn [snd] in *; [exact Hw1 |].
  assert (heap w1 !! model self = Some (HMMObj m1)) as Hmodel1.
  { rewrite Hheap1, lookup_insert_ne by exact Hdistinct. apply lookup_insert_eq. }
  eapply writes_only_trans; [exact Hw1 |].
  rewrite bind_apply.
  pose proof (updateEmissionProbabilities_outcome self w1) as Hemission.
  destruct (_updateEmissionProbabilities self w1) as [[e|[]] w2]; cbn [snd].
  { apply writes_only_same. exact Hemission. }
  destruct Hemission as (m_ & theta & theta' & by_state & Hm_ & Htheta & _ & _ & Hheap2).
  rewrite Hmodel1 in Hm_. injection Hm_ as <-.
  eapply (writes_only_trans _ w1 w2).
  { eapply writes_only_insert; [exact Hheap2 |]. left. cbn. set_solver. }
  pose proof (updateTransitionMatrix_outcome self w2) as Htransition.
  destruct (_updateTransitionMatrix self w2) as [[e|[]] w3]; cbn [snd].
  { apply writes_only_same. exact Htransition. }
  destruct Htransition as (m_ & C & Tnew & _ & _ & _ & _ & Hheap3).
  eapply writes_only_insert; [exact Hheap3 |]. left. set_solver.
Qed.

End Sweep.

Section SweepTrajectories.
Context {externals : Externals}.

Hypothesis random_choice_in_range :
  forall (n : nat) (p : list float) (g g' : RandomState) (k : nat),
    random_choice n p g = (Ok k, g') -> (k < n)%nat.

(** X3: the hidden state update, when it returns, leaves the live model with
    a trajectory for every observation sequence: as long as the sequence,
    over the states of the model. *)
Theorem hidden_state_update_completes_trajectories (self : BHMM) (w w' : world)
  (m : HMM.t) :
  heap w !! model self = Some (HMMObj m) ->
  Z.of_nat (HMM.nstates m) < 2 ^ 31 ->
  _updateHiddenStateTrajectories self w = (Ok tt, w') ->
  trajectories_for self (ntrajectories self) w'.
Proof using random_choice_in_range.
  intros Hmodel Hn Hrun.
  destruct (updateHiddenStateTrajectories_outcome self w m Hmodel)
    as (l & ts & Hfresh & Hheap & Hall & Hlen).
  rewrite Hrun in Hheap, Hlen. cbn [fst snd] in Hheap, Hlen.
  assert (l <> model self) as Hdistinct.
  { intros ->. apply Hfresh. apply elem_of_dom. eauto. }
  exists (set_hidden_state_trajectories (Some l) m), l, ts. split_and!.
  - rewrite Hheap, lookup_insert_ne by exact Hdistinct. apply lookup_insert_eq.
  - reflexivity.
  - rewrite Hheap. apply lookup_insert_eq.
  - exact Hlen.
  - unfold trajectories_match. eapply Forall2_impl; [exact Hall |]. cbn.
    intros o_t s_t (w1 & w2 & Hw1 & Hsample).
    apply (_sampleHiddenStateTrajectory_returned random_choice_in_range
             self o_t w1 w2 (set_hidden_state_trajectories (Some l) m) s_t Hw1 Hn
             Hsample).
Qed.

(** X7: a sweep that returns leaves the live model with a trajectory for
    every observation sequence, in a list made during the sweep. *)
Theorem sweep_completes_trajectories (self : BHMM) (w w' : world) (m : HMM.t) :
  heap w !! model self = Some (HMMObj m) ->
  Z.of_nat (HMM.nstates m) < 2 ^ 31 ->
  _update self w = (Ok tt, w') ->
  trajectories_for self (ntrajectories self) w' /\
  forall m' l, heap w' !! model self = Some (HMMObj m') ->
               HMM.hidden_state_trajectories m' = Some l -> l ∉ dom (heap w).
Proof using random_choice_in_range.
  intros Hmodel Hn Hrun.
  destruct (update_returned self w w' m Hmodel Hrun)
    as (m' & l & ts & Hmodel' & Hnstates & _ & Hrefers & Hfresh & Hlist & Hlen & Hall).
  split.
  - exists m', l, ts. split_and!; try assumption.
    unfold trajectories_match. eapply Forall2_impl; [exact Hall |]. cbn.
    intros o_t s_t (w1 & w2 & m1 & Hw1 & Hn1 & Hsample). rewrite Hnstates, <- Hn1.
    eapply (_sampleHiddenStateTrajectory_returned random_choice_in_range);
      [exact Hw1 | rewrite Hn1; exact Hn | exact Hsample].
  - intros m2 l2 Hm2 Hl2. rewrite Hmodel' in Hm2. injection Hm2 as <-.
    rewrite Hrefers in Hl2. injection Hl2 as <-. exact Hfresh.
Qed.

End SweepTrajectories.

Section SweepClaims.
Context {externals : Externals}.

(** X4: when the hidden state update raises, it has already rebound the
    model's trajectories to a new list: the model is left with fewer
    trajectories than there are sequences, and every other object, the list
    it referred to before among them, is as it was. *)
Theorem hidden_state_update_failure_is_partial (self : BHMM) (w : world)
  (m : HMM.t) (e : exn) :
  heap w !! model self = Some (HMMObj m) ->
  fst (_updateHiddenStateTrajectories self w) = Raise e ->
  exists l ts,
    (l ∉ dom (heap w)) /\
    heap (snd (_updateHiddenStateTrajectories self w)) !! model self
      = Some (HMMObj (set_hidden_state_trajectories (Some l) m)) /\
    heap (snd (_updateHiddenStateTrajectories self w)) !! l = Some (ListObj ts) /\
    (length ts < ntrajectories self)%nat /\
    forall x, x ∈ dom (heap w) -> x <> model self ->
              heap (snd (_updateHiddenStateTrajectories self w)) !! x = heap w !! x.
Proof.
  intros Hmodel Hraise.
  destruct (updateHiddenStateTrajectories_outcome self w m Hmodel)
    as (l & ts & Hfresh & Hheap & _ & Hlen).
  rewrite Hraise in Hlen.
  assert (l <> model self) as Hdistinct.
  { intros ->. apply Hfresh. apply elem_of_dom. eauto. }
  exists l, ts. rewrite Hheap. split_and!.
  - exact Hfresh.
  - rewrite lookup_insert_ne by exact Hdistinct. apply lookup_insert_eq.
  - apply lookup_insert_eq.
  - exact Hlen.
  - intros x Hx Hne. rewrite !lookup_insert_ne by set_solver. reflexivity.
Qed.

(** X5: when the emission update returns, it has called the output model's
    [sample] once, on the list line 255 builds: for state 0, state 1, ... in
    turn, what [collect_observations_in_state] returns for that state, that
    is, the observations whose hidden state in the model's current
    trajectories is that state; the output model object holds what [sample]
    made of its parameters, and no other object is written.  When the update
    raises, every object other than the output model is as it was. *)
Theorem emission_update_writes_the_output_model (self : BHMM) (w : world) :
  match _updateEmissionProbabilities self w with
  | (inr _, w') =>
      exists m theta theta' observations_by_state,
        heap w !! model self = Some (HMMObj m) /\
        heap w !! HMM.output_model m = Some (OutputObj theta) /\
        Forall2 (fun state os =>
                   collect_observations_in_state m (observations self) state w
                   = (Ok os, w))
          (range 0 (Z.of_nat (HMM.nstates m))) observations_by_state /\
        (forall l trajs,
           HMM.hidden_state_trajectories m = Some l ->
           heap w !! l = Some (ListObj trajs) ->
           observations_by_state =
             map (fun state =>
                    concat (zip_with (observations_in_state state)
                              (observations self) trajs))
               (range 0 (Z.of_nat (HMM.nstates m)))) /\
        output_model_sample observations_by_state theta (np_random w)
          = (Ok theta', np_random w') /\
        heap w' = <[HMM.output_model m := OutputObj theta']> (heap w)
  | (inl _, w') =>
      forall x,
        (forall m, heap w !! model self = Some (HMMObj m) -> x <> HMM.output_model m) ->
        heap w' !! x = heap w !! x
  end.
Proof.
  pose proof (updateEmissionProbabilities_outcome self w) as Houtcome.
  destruct (_updateEmissionProbabilities self w) as [[e|[]] w'] eqn:Hrun.
  - intros x _. rewrite Houtcome. reflexivity.
  - apply updateEmissionProbabilities_returned. exact Hrun.
Qed.

(** X6: the transition matrix update returns only under the reversible
    prior, with the model's [Tij] rebound to the matrix drawn from the count
    matrix; the model object is the only one written, and none is when it
    raises. *)
Theorem transition_update_rebinds_Tij (self : BHMM) (w : world) :
  match _updateTransitionMatrix self w with
  | (inr _, w') =>
      exists m C Tnew,
        reversible self = true /\
        heap w !! model self = Some (HMMObj m) /\
        fst (count_matrix m w) = Ok C /\
        TransitionMatrixSamplerRev_sample C (transition_matrix_sampling_steps self)
          (np_random w) = (Ok Tnew, np_random w') /\
        heap w' = <[model self := HMMObj (set_Tij Tnew m)]> (heap w)
  | (inl _, w') => heap w' = heap w
  end.
Proof. apply updateTransitionMatrix_outcome. Qed.

(** X8: a sweep writes no object that was there before it other than the
    model object and its output model: the list of trajectories the model
    referred to before, and every snapshot, are as they were, whether the
    sweep returns or raises. *)
Theorem sweep_writes_model_and_output_model_only (self : BHMM) (w : world)
  (m : HMM.t) :
  heap w !! model self = Some (HMMObj m) ->
  writes_only {[model self; HMM.output_model m]} w (snd (_update self w)).
Proof. apply update_writes. Qed.

End SweepClaims.

(** ** Snapshots and the trajectories they hold *)

Section SnapshotTrajectories.
Context {externals : Externals}.

(** The hidden state update returns only if the sampler's model is there. *)
Lemma update_needs_model (self : BHMM) (w w' : world) :
  _update self w = (Ok tt, w') -> exists m, heap w !! model self = Some (HMMObj m).
Proof.
  unfold _update, _updateHiddenStateTrajectories. rewrite !bind_apply.
  destruct (alloc (ListObj []) w) as [r1 w1] eqn:Halloc.
  apply alloc_inv in Halloc as (l & -> & Hfresh & ->).
  rewrite bind_apply. unfold deref_HMM at 1. cbn [heap].
  destruct (decide (model self = l)) as [<-|Hne].
  - rewrite lookup_insert_eq. discriminate.
  - rewrite lookup_insert_ne by congruence.
    destruct (heap w !! model self) as [[m|theta|ts]|]; try discriminate.
    intros _. eauto.
Qed.

Lemma sweeps_last (self : BHMM) (k : nat) (w w1 : world) :
  sweeps self (S k) w = (Ok tt, w1) ->
  exists w0, _update self w0 = (Ok tt, w1).
Proof.
  revert w. induction k as [|k IH]; intros w; cbn [sweeps]; rewrite bind_apply.
  - destruct (_update self w) as [[e|[]] w0] eqn:Hupdate; [discriminate |].
    unfold ret. intros Heq. injection Heq as <-. eauto.
  - destruct (_update self w) as [[e|[]] w0]; [discriminate |].
    apply IH.
Qed.

(** With at least one sweep for each retained sample, every snapshot is
    taken in the world a sweep has just returned in. *)
Lemma retained_snapshots_after_sweep (self : BHMM) (nthin : nat) (save : bool)
  (k : nat) (w w' : world) (models : list loc) (l : loc) :
  retained self (S nthin) save k w = (Ok models, w') -> l ∈ models ->
  exists w0 w_pre w_post,
    _update self w0 = (Ok tt, w_pre) /\
    save_model self save w_pre = (Ok l, w_post) /\
    frame self w_post w'.
Proof.
  revert w models. induction k as [|k IH]; intros w models; cbn [retained].
  - unfold ret. intros Heq. injection Heq as <- _. intros Hin.
    apply elem_of_nil in Hin. contradiction.
  - rewrite bind_apply.
    destruct (sweeps self (S nthin) w) as [[e|[]] w1] eqn:Hsweeps; [discriminate |].
    rewrite bind_apply.
    destruct (save_model self save w1) as [[e|l0] w2] eqn:Hsave; [discriminate |].
    rewrite bind_apply.
    destruct (retained self (S nthin) save k w2) as [[e|later] w3] eqn:Hlater;
      [discriminate |].
    unfold ret. intros Heq. injection Heq as <- <-. intros Hin.
    apply elem_of_cons in Hin as [->|Hin].
    + apply sweeps_last in Hsweeps as [w0 Hupdate].
      exists w0, w1, w2. split_and!; [assumption .. |].
      pose proof (frame_retained self (S nthin) save k w2) as Hf.
      rewrite Hlater in Hf. exact Hf.
    + exact (IH w2 later Hlater Hin).
Qed.

Lemma sample_snapshot_trajectories (self : BHMM) (nsamples nburn nthin : Z)
  (save : bool) (w : world) (models : list loc) (l : loc) :
  0 < nthin ->
  fst (sample self nsamples nburn nthin save w) = Ok models ->
  l ∈ models ->
  exists m' theta ts,
    contents (snd (sample self nsamples nburn nthin save w)) l
      = Some (m', theta, Some ts) /\
    length ts = ntrajectories self /\
    (save = false -> HMM.hidden_state_trajectory m' = BoundNone).
Proof.
  intros Hthin Hmodels Hl.
  apply sample_decompose in Hmodels as (w_burn & _ & Hretained).
  set (w' := snd (sample self nsamples nburn nthin save w)) in *.
  destruct (Z.to_nat nthin) as [|n] eqn:Hn; [lia |].
  destruct (retained_snapshots_after_sweep self n save _ w_burn w' models l Hretained Hl)
    as (w0 & w_pre & w_post & Hupdate & Hsave & Hpost).
  destruct (update_needs_model self w0 w_pre Hupdate) as [m0 Hm0].
  destruct (update_returned self w0 w_pre m0 Hm0 Hupdate)
    as (m1 & lt & ts & Hmodel & _ & _ & Hrefers & _ & Hlist & Hlen & _).
  apply save_model_snapshot in Hsave
    as (_ & Hprotected & m & theta & ts' & m' & Hlive & Hcopy & _ & Hattr).
  unfold contents in Hlive. rewrite Hmodel in Hlive.
  destruct (heap w_pre !! HMM.output_model m1) as [[m_|theta_|ts_]|]; try discriminate.
  rewrite Hrefers, Hlist in Hlive. injection Hlive as <- <- <-.
  destruct (frame_protected self w_post w' l Hprotected Hpost) as [Hkept _].
  exists m', theta_, ts. rewrite Hkept. split; [exact Hcopy |]. split; [exact Hlen |].
  intros ->. exact Hattr.
Qed.

(** X9: whatever [save_hidden_state_trajectory] is, every snapshot [sample]
    returns after at least one sweep per sample holds a list with one hidden
    state trajectory for each observation sequence; with the flag false the
    copy has the attribute [hidden_state_trajectory] bound to [None], and its
    trajectories all the same. *)
Theorem snapshots_hold_trajectories_whatever_the_flag (self : BHMM)
  (nsamples nburn nthin : Z) (save : bool) (w : world) (models : list loc) (l : loc) :
  0 < nthin ->
  fst (sample self nsamples nburn nthin save w) = Ok models ->
  l ∈ models ->
  exists m' theta ts,
    contents (snd (sample self nsamples nburn nthin save w)) l
      = Some (m', theta, Some ts) /\
    length ts = ntrajectories self /\
    (save = false -> HMM.hidden_state_trajectory m' = BoundNone).
Proof. apply sample_snapshot_trajectories. Qed.

End SnapshotTrajectories.

(** ** Counts that are zero or negative *)

Section NoSweeps.
Context {externals : Externals}.

(** X11: [sample] takes a negative count for zero: [range] of a negative
    number is empty. *)
Theorem negative_counts_act_as_zero (self : BHMM) (nsamples nburn nthin : Z)
  (save : bool) (w : world) :
  sample self nsamples nburn nthin save w
  = sample self (Z.max 0 nsamples) (Z.max 0 nburn) (Z.max 0 nthin) save w.
Proof.
  rewrite !sample_run.
  replace (Z.to_nat (Z.max 0 nsamples)) with (Z.to_nat nsamples) by lia.
  replace (Z.to_nat (Z.max 0 nburn)) with (Z.to_nat nburn) by lia.
  replace (Z.to_nat (Z.max 0 nthin)) with (Z.to_nat nthin) by lia.
  reflexivity.
Qed.

Lemma contents_extends (w w' : world) (l : loc)
  (c : HMM.t * OutputModel * option (list (list Z))) :
  extends w w' -> contents w l = Some c -> contents w' l = Some c.
Proof.
  intros [_ Hkeep]. unfold contents.
  destruct (heap w !! l) as [[m|theta|ts]|] eqn:Hl; try discriminate.
  rewrite (Hkeep l) by (apply elem_of_dom; eauto). rewrite Hl.
  destruct (heap w !! HMM.output_model m) as [[m0|theta|ts]|] eqn:Hout; try discriminate.
  rewrite (Hkeep (HMM.output_model m)) by (apply elem_of_dom; eauto). rewrite Hout.
  destruct (HMM.hidden_state_trajectories m) as [lt|]; [| trivial].
  destruct (heap w !! lt) as [[m0|theta0|ts]|] eqn:Hlt; try discriminate.
  rewrite (Hkeep lt) by (apply elem_of_dom; eauto). rewrite Hlt. trivial.
Qed.

Lemma save_model_np_random (self : BHMM) (save : bool) (w : world) :
  np_random (snd (save_model self save w)) = np_random w.
Proof.
  unfold save_model, deepcopy_HMM, bind, deref_HMM, deref_output, deref_list,
    alloc, store, ret.
  cbn [heap np_random].
  repeat (case_match; simplify_eq; cbn [heap np_random fst snd] in *; try reflexivity).
Qed.

(** Retained samples without sweeps in between: the generator is not used,
    the store only gains the snapshots, and every snapshot holds what the
    live model held at the start. *)
Lemma retained_without_sweeps (self : BHMM) (save : bool) (k : nat)
  (w w' : world) (models : list loc) :
  retained self 0 save k w = (Ok models, w') ->
  np_random w' = np_random w /\ extends w w' /\
  forall l, l ∈ models ->
    exists m theta ts m',
      contents w (model self) = Some (m, theta, ts) /\
      contents w' l = Some (m', theta, ts) /\
      same_values m m'.
Proof.
  revert w models. induction k as [|k IH]; intros w models; cbn [retained sweeps].
  - unfold ret. intros Heq. injection Heq as <- <-.
    split; [reflexivity |]. split; [apply extends_refl |].
    intros l Hl. apply elem_of_nil in Hl. contradiction.
  - rewrite bind_ret, bind_apply.
    pose proof (save_model_np_random self save w) as Hgen.
    pose proof (extends_save_model self save w) as Hext.
    destruct (save_model self save w) as [[e|l0] w1] eqn:Hsave; [discriminate |].
    cbn [snd] in Hgen, Hext.
    rewrite bind_apply.
    destruct (retained self 0 save k w1) as [[e|later] w2] eqn:Hlater; [discriminate |].
    unfold ret. intros Heq. injection Heq as <- <-.
    destruct (IH w1 later Hlater) as (Hgen' & Hext' & Hlater').
    apply save_model_snapshot in Hsave
      as (_ & _ & m & theta & ts & m' & Hlive & Hcopy & Hsame & _).
    split; [congruence |]. split; [eapply extends_trans; eassumption |].
    intros l Hl. apply elem_of_cons in Hl as [->|Hl].
    + exists m, theta, ts, m'. split; [exact Hlive |]. split; [| exact Hsame].
      eapply contents_extends; eassumption.
    + destruct (Hlater' l Hl) as (m1 & theta1 & ts1 & m1' & Hlive1 & Hcopy1 & Hsame1).
      rewrite (contents_extends w w1 _ _ Hext Hlive) in Hlive1.
      injection Hlive1 as <- <- <-.
      exists m, theta, ts, m1'. split; [exact Hlive |]. split; assumption.
Qed.

Lemma sample_without_sweeps_outcome (self : BHMM) (nsamples nburn nthin : Z)
  (save : bool) (w : world) (models : list loc) :
  nburn <= 0 -> nthin <= 0 ->
  fst (sample self nsamples nburn nthin save w) = Ok models ->
  np_random (snd (sample self nsamples nburn nthin save w)) = np_random w /\
  extends w (snd (sample self nsamples nburn nthin save w)) /\
  length models = Z.to_nat nsamples /\
  forall l, l ∈ models ->
    exists m theta ts m',
      contents w (model self) = Some (m, theta, ts) /\
      contents (snd (sample self nsamples nburn nthin save w)) l
        = Some (m', theta, ts) /\
      same_values m m'.
Proof.
  intros Hburn Hthin Hmodels.
  apply sample_decompose in Hmodels as (w_burn & Hsweeps & Hretained).
  replace (Z.to_nat nburn) with O in Hsweeps by lia.
  replace (Z.to_nat nthin) with O in Hretained by lia.
  cbn [sweeps] in Hsweeps. unfold ret in Hsweeps. injection Hsweeps as <-.
  destruct (retained_without_sweeps self save _ w _ models Hretained)
    as (Hgen & Hext & Hall).
  split; [exact Hgen |]. split; [exact Hext |]. split; [| exact Hall].
  eapply retained_length. eassumption.
Qed.

(** X12: without burn-in and with [nthin <= 0] no sweep is made: [sample]
    draws nothing from the generator, writes no object that was there, and
    returns [nsamples] snapshots that all hold what the live model held at
    the call; a sampler with the non-reversible prior returns them too. *)
Theorem sample_without_sweeps_copies_the_model (self : BHMM)
  (nsamples nburn nthin : Z) (save : bool) (w : world) (models : list loc) :
  nburn <= 0 -> nthin <= 0 ->
  fst (sample self nsamples nburn nthin save w) = Ok models ->
  np_random (snd (sample self nsamples nburn nthin save w)) = np_random w /\
  extends w (snd (sample self nsamples nburn nthin save w)) /\
  length models = Z.to_nat nsamples /\
  forall l, l ∈ models ->
    exists m theta ts m',
      contents w (model self) = Some (m, theta, ts) /\
      contents (snd (sample self nsamples nburn nthin save w)) l
        = Some (m', theta, ts) /\
      same_values m m'.
Proof. apply sample_without_sweeps_outcome. Qed.

End NoSweeps.

(** ** Snapshots among themselves *)

Section SnapshotsApart.
Context {externals : Externals}.

Lemma frame_protected_objects (self : BHMM) (w w2 : world) (l : loc) :
  protected self w l -> frame self w w2 -> objects_of w2 l = objects_of w l.
Proof.
  intros [Hin Hdisj] [Hdom Hkeep Hlive].
  assert (heap w2 !! l = heap w !! l) as Hl.
  { apply Hkeep; unfold objects_of in *; set_solver. }
  unfold objects_of. rewrite Hl. reflexivity.
Qed.

(** The objects of a snapshot are all made by [save_model]. *)
Lemma save_model_objects (self : BHMM) (save : bool) (l : loc) (w w' : world) :
  save_model self save w = (Ok l, w') ->
  objects_of w' l ⊆ dom (heap w') /\
  objects_of w' l ## dom (heap w) /\
  protected self w' l.
Proof.
  intros Hsave. pose proof Hsave as Hsnapshot.
  apply save_model_snapshot in Hsnapshot as (_ & Hprotected & _).
  split; [exact (proj1 Hprotected) |]. split; [| exact Hprotected].
  apply save_model_spec in Hsave
    as (m & theta & m' & _ & _ & Hl & _ & Hl' & _ & _ & Hout & _ & Hlist).
  unfold objects_of. rewrite Hl'. unfold copied_list in Hlist.
  destruct (HMM.hidden_state_trajectories m') as [lt'|]; [| set_solver].
  destruct (HMM.hidden_state_trajectories m) as [lt|]; [| contradiction].
  destruct Hlist as (ts & _ & Hfresh & _). set_solver.
Qed.

Lemma retained_apart (self : BHMM) (nthin : nat) (save : bool) (k : nat)
  (w w' : world) (models : list loc) :
  retained self nthin save k w = (Ok models, w') ->
  (forall l, l ∈ models ->
     objects_of w' l ⊆ dom (heap w') /\
     objects_of w' l ## dom (heap w) /\
     protected self w' l) /\
  ForallOrdPairs (fun l1 l2 => objects_of w' l1 ## objects_of w' l2) models.
Proof.
  revert w models. induction k as [|k IH]; intros w models; cbn [retained].
  - unfold ret. intros Heq. injection Heq as <- _. split; [| constructor].
    intros l Hl. apply elem_of_nil in Hl. contradiction.
  - rewrite bind_apply.
    pose proof (frame_sweeps self nthin w) as Hw1.
    destruct (sweeps self nthin w) as [[e|[]] w1]; [discriminate |]. cbn [snd] in Hw1.
    rewrite bind_apply.
    pose proof (extends_save_model self save w1) as Hw2.
    destruct (save_model self save w1) as [[e|l0] w2] eqn:Hsave; [discriminate |].
    cbn [snd] in Hw2.
    rewrite bind_apply.
    pose proof (frame_retained self nthin save k w2) as Hw3.
    destruct (retained self nthin save k w2) as [[e|later] w3] eqn:Hlater;
      [discriminate |].
    cbn [snd] in Hw3.
    unfold ret. intros Heq. injection Heq as <- <-.
    destruct (IH w2 later Hlater) as [Hobjects Hpairs].
    apply save_model_objects in Hsave as (Hin0 & Hnew0 & Hprotected0).
    pose proof (frame_protected_objects self w2 w3 l0 Hprotected0 Hw3) as Hsame0.
    destruct (frame_protected self w2 w3 l0 Hprotected0 Hw3) as [_ Hprotected0'].
    destruct Hw1 as [Hdom1 _ _]. destruct Hw2 as [Hdom2 _]. destruct Hw3 as [Hdom3 _ _].
    split.
    + intros l Hl. apply elem_of_cons in Hl as [->|Hl].
      * rewrite Hsame0. split; [set_solver |]. split; [set_solver | exact Hprotected0'].
      * destruct (Hobjects l Hl) as (Hin & Hnew & Hprotected).
        split; [exact Hin |]. split; [set_solver | exact Hprotected].
    + constructor; [| exact Hpairs].
      apply List.Forall_forall. intros l Hl. apply list_elem_of_In in Hl.
      destruct (Hobjects l Hl) as (_ & Hnew & _). rewrite Hsame0. set_solver.
Qed.

Lemma apart_NoDup (w : world) (models : list loc) :
  ForallOrdPairs (fun l1 l2 => objects_of w l1 ## objects_of w l2) models ->
  NoDup models.
Proof.
  induction 1 as [|l models Hall _ IH]; constructor; [| exact IH].
  intros Hl. apply list_elem_of_In in Hl.
  pose proof (proj1 (List.Forall_forall _ _) Hall l Hl) as Hdisj.
  unfold objects_of in Hdisj. set_solver.
Qed.

Lemma sample_snapshots_apart (self : BHMM) (nsamples nburn nthin : Z)
  (save : bool) (w : world) (models : list loc) :
  fst (sample self nsamples nburn nthin save w) = Ok models ->
  NoDup models /\
  ForallOrdPairs
    (fun l1 l2 =>
       objects_of (snd (sample self nsamples nburn nthin save w)) l1
       ## objects_of (snd (sample self nsamples nburn nthin save w)) l2)
    models /\
  forall l, l ∈ models ->
    objects_of (snd (sample self nsamples nburn nthin save w)) l
    ## live self (snd (sample self nsamples nburn nthin save w)).
Proof.
  intros Hmodels.
  apply sample_decompose in Hmodels as (w_burn & _ & Hretained).
  apply retained_apart in Hretained as [Hobjects Hpairs].
  split; [eapply apart_NoDup; exact Hpairs |]. split; [exact Hpairs |].
  intros l Hl. destruct (Hobjects l Hl) as (_ & _ & [_ Hdisj]). exact Hdisj.
Qed.

(** X10: the snapshots [sample] returns are copies of their own: no two
    entries of the list are the same object, no two snapshots share an output
    model or a list of trajectories, and none shares one with the live
    model. *)
Theorem snapshots_share_no_object (self : BHMM) (nsamples nburn nthin : Z)
  (save : bool) (w : world) (models : list loc) :
  fst (sample self nsamples nburn nthin save w) = Ok models ->
  NoDup models /\
  ForallOrdPairs
    (fun l1 l2 =>
       objects_of (snd (sample self nsamples nburn nthin save w)) l1
       ## objects_of (snd (sample self nsamples nburn nthin save w)) l2)
    models /\
  forall l, l ∈ models ->
    objects_of (snd (sample self nsamples nburn nthin save w)) l
    ## live self (snd (sample self nsamples nburn nthin save w)).
Proof. apply sample_snapshots_apart. Qed.

End SnapshotsApart.

(** ** Construction *)

Section ConstructionClaims.
Context {externals : Externals}.

Variable MLHMM_fit : list (list float) -> nat -> bool -> string -> M loc.

(** With an initial model the constructor returns exactly when the deep copy
    does, with the copy as the sampler's model and the other arguments as
    its attributes. *)
Lemma init_with_initial_model (observations : list (list float)) (nstates : nat)
  (l0 : loc) (reversible_flag verbose_flag : bool) (steps : Z)
  (output_model_type : string) (w w1 : world) (self : BHMM) :
  __init__ MLHMM_fit observations nstates (Some l0) reversible_flag verbose_flag
    steps output_model_type w = (Ok self, w1) ->
  deepcopy_HMM l0 w = (Ok (model self), w1) /\
  self = {| verbose := verbose_flag;
            reversible := reversible_flag;
            nstates := nstates;
            observations := observations;
            ntrajectories := length observations;
            model := model self;
            transition_matrix_sampling_steps := steps |} /\
  observations <> [].
Proof.
  unfold __init__.
  destruct (decide (length observations = O)) as [Hlen|Hlen]; [discriminate |].
  rewrite bind_apply.
  destruct (deepcopy_HMM l0 w) as [[e|l] w0]; [discriminate |].
  unfold ret. intros Heq. injection Heq as <- <-. cbn [model].
  split; [reflexivity |]. split; [reflexivity |].
  intros ->. apply Hlen. reflexivity.
Qed.

Lemma init_copies_initial_model (observations : list (list float)) (nstates : nat)
  (l0 : loc) (reversible_flag verbose_flag : bool) (steps : Z)
  (output_model_type : string) (w w1 : world) (self : BHMM) :
  __init__ MLHMM_fit observations nstates (Some l0) reversible_flag verbose_flag
    steps output_model_type w = (Ok self, w1) ->
  (model self ∉ dom (heap w)) /\
  (exists m theta ts m',
     contents w l0 = Some (m, theta, ts) /\
     contents w1 (model self) = Some (m', theta, ts) /\
     same_values m m') /\
  forall w2, evolves self w1 w2 -> contents w2 l0 = contents w l0.
Proof.
  intros Hinit. apply init_with_initial_model in Hinit as (Hcopy & _ & _).
  pose proof (extends_deepcopy l0 w) as Hext. rewrite Hcopy in Hext. cbn [snd] in Hext.
  apply deepcopy_HMM_spec in Hcopy
    as (m & theta & m' & Hm & Htheta & Hfresh & Hdom & Hkeep & Hm' & Hsame & _
        & Hout_fresh & _ & Hout' & Hlist & _).
  assert (exists ts, contents w l0 = Some (m, theta, ts) /\
                     contents w1 (model self) = Some (m', theta, ts)) as (ts & Hc & Hc').
  { unfold contents. rewrite Hm, Htheta, Hm', Hout'. unfold copied_list in Hlist.
    destruct (HMM.hidden_state_trajectories m) as [lt|],
             (HMM.hidden_state_trajectories m') as [lt'|]; try contradiction.
    - destruct Hlist as (ts & Hts & _ & Hts'). rewrite Hts, Hts'. eauto.
    - eauto. }
  split; [exact Hfresh |]. split; [exists m, theta, ts, m'; auto |].
  assert (protected self w1 l0) as Hprotected.
  { assert (objects_of w1 l0 = objects_of w l0) as Hobjects.
    { unfold objects_of. rewrite (Hkeep l0) by (apply elem_of_dom; eauto).
      reflexivity. }
    assert (objects_of w l0 ⊆ dom (heap w)) as Hold.
    { unfold objects_of. rewrite Hm.
      assert (l0 ∈ dom (heap w)) by (apply elem_of_dom; eauto).
      assert (HMM.output_model m ∈ dom (heap w)) by (apply elem_of_dom; eauto).
      unfold copied_list in Hlist.
      destruct (HMM.hidden_state_trajectories m) as [lt|]; [| set_solver].
      destruct (HMM.hidden_state_trajectories m') as [lt'|]; [| contradiction].
      destruct Hlist as (ts0 & Hts & _).
      assert (lt ∈ dom (heap w)) by (apply elem_of_dom; eauto). set_solver. }
    assert (live self w1 ## dom (heap w)) as Hnew.
    { unfold live, objects_of. rewrite Hm'. unfold copied_list in Hlist.
      destruct (HMM.hidden_state_trajectories m') as [lt'|]; [| set_solver].
      destruct (HMM.hidden_state_trajectories m) as [lt|]; [| contradiction].
      destruct Hlist as (ts0 & _ & Hlt_fresh & _). set_solver. }
    split; rewrite Hobjects; [set_solver |].
    apply elem_of_disjoint. intros x Hx Hy.
    apply (proj1 (elem_of_disjoint _ _) Hnew x Hy). set_solver. }
  intros w2 Hevolves. apply evolves_frame in Hevolves.
  destruct (frame_protected self w1 w2 l0 Hprotected Hevolves) as [Hkept _].
  rewrite Hkept. rewrite Hc. eapply contents_extends; eassumption.
Qed.

(** X13: with an initial model the constructor keeps a deep copy: the
    sampler's model is a new object with the values of the initial one, and
    nothing the sampler does afterwards (sweeps, calls of [sample], writes to
    its own model) changes the initial model. *)
Theorem constructor_copies_the_initial_model (observations : list (list float))
  (nstates : nat) (l0 : loc) (reversible_flag verbose_flag : bool) (steps : Z)
  (output_model_type : string) (w w1 : world) (self : BHMM) :
  __init__ MLHMM_fit observations nstates (Some l0) reversible_flag verbose_flag
    steps output_model_type w = (Ok self, w1) ->
  (model self ∉ dom (heap w)) /\
  (exists m theta ts m',
     contents w l0 = Some (m, theta, ts) /\
     contents w1 (model self) = Some (m', theta, ts) /\
     same_values m m') /\
  forall w2, evolves self w1 w2 -> contents w2 l0 = contents w l0.
Proof. apply init_copies_initial_model. Qed.

End ConstructionClaims.

Section NonReversibleConstruction.
Context {externals : Externals}.

Variable MLHMM_fit : list (list float) -> nat -> bool -> string -> M loc.

Lemma sample_non_reversible (self : BHMM) (nsamples nburn nthin : Z) (save : bool)
  (w : world) :
  reversible self = false ->
  0 < nburn \/ (0 < nsamples /\ 0 < nthin) ->
  exists e, fst (sample self nsamples nburn nthin save w) = Raise e.
Proof.
  intros Hrev Hsweep. rewrite sample_run. unfold run. rewrite bind_apply.
  destruct (decide (0 < nburn)) as [Hburn|Hburn].
  - destruct (sweeps_non_reversible self (Z.to_nat nburn) w Hrev ltac:(lia)) as [e He].
    destruct (sweeps self (Z.to_nat nburn) w) as [[e'|[]] w']; [eauto |].
    cbn in He. discriminate.
  - destruct Hsweep as [Hburn'|[Hsamples Hthin]]; [contradiction |].
    destruct (sweeps self (Z.to_nat nburn) w) as [[e'|[]] w']; [eauto |].
    destruct (Z.to_nat nsamples) as [|k] eqn:Hk; [lia |].
    cbn [retained]. rewrite bind_apply.
    destruct (sweeps_non_reversible self (Z.to_nat nthin) w' Hrev ltac:(lia)) as [e He].
    destruct (sweeps self (Z.to_nat nthin) w') as [[e'|[]] w'']; [eauto |].
    cbn in He. discriminate.
Qed.

(** X14: the constructor does not look at [reversible]: with an initial
    model that can be copied and at least one observation sequence it returns
    a sampler for the non-reversible prior as well, and that sampler raises
    in every call of [sample] that makes a sweep. *)
Theorem non_reversible_prior_is_accepted_at_construction
  (observations : list (list float)) (nstates : nat) (l0 l : loc)
  (verbose_flag : bool) (steps : Z) (output_model_type : string) (w w1 : world) :
  observations <> [] ->
  deepcopy_HMM l0 w = (Ok l, w1) ->
  exists self,
    __init__ MLHMM_fit observations nstates (Some l0) false verbose_flag steps
      output_model_type w = (Ok self, w1) /\
    model self = l /\
    forall (nsamples nburn nthin : Z) (save : bool) (w2 : world),
      0 < nburn \/ (0 < nsamples /\ 0 < nthin) ->
      exists e, fst (sample self nsamples nburn nthin save w2) = Raise e.
Proof.
  intros Hobs Hcopy. unfold __init__.
  destruct (decide (length observations = O)) as [Hlen|Hlen].
  { destruct observations; [contradiction | discriminate]. }
  rewrite bind_apply, Hcopy. unfold ret.
  eexists. split; [reflexivity |]. split; [reflexivity |].
  intros nsamples nburn nthin save w2 Hsweep.
  apply sample_non_reversible; [reflexivity | exact Hsweep].
Qed.

End NonReversibleConstruction.

(** ** The test systems *)

Section FloatFacts.

Lemma float_add_comm (x y : float) : (x + y = y + x)%float.
Proof.
  apply Prim2SF_inj. rewrite !add_spec.
  destruct (Prim2SF x) as [sx|sx| |sx mx ex], (Prim2SF y) as [sy|sy| |sy my ey];
    try reflexivity; try (destruct sx, sy; reflexivity).
  unfold SF64add, SFadd. rewrite (Z.min_comm ex ey), Z.add_comm. reflexivity.
Qed.

End FloatFacts.

Section TestSystemsFacts.
Context {externals : Externals}.

Variable random_sample : RandomState -> float * RandomState.
Variable standard_normal : RandomState -> float * RandomState.
Variable np_sum : list float -> float.
Variable HMM_init : Z -> matrix -> list State.t -> M loc.

Lemma variate_returns (f : RandomState -> float * RandomState) (w : world) :
  variate f w = (Ok (fst (f (np_random w))), World (heap w) (snd (f (np_random w)))).
Proof. unfold variate, with_np_random. destruct (f (np_random w)). reflexivity. Qed.

Lemma advance_add (j k : nat) (g : RandomState) :
  advance random_sample (j + k) g = advance random_sample k (advance random_sample j g).
Proof.
  revert g. induction j as [|j IH]; intros g; cbn [advance Nat.add]; [reflexivity |].
  apply IH.
Qed.

Lemma random_row_returns (k : nat) (w : world) :
  exists row,
    random_row random_sample k w
      = (Ok row, World (heap w) (advance random_sample k (np_random w))) /\
    length row = k.
Proof.
  revert w. induction k as [|k IH]; intros w; cbn [random_row advance].
  - exists []. destruct w. split; reflexivity.
  - rewrite bind_apply, variate_returns.
    destruct (IH (World (heap w) (snd (random_sample (np_random w)))))
      as (rest & Hrest & Hlen).
    rewrite bind_apply, Hrest. cbn [heap np_random].
    eexists. split; [reflexivity |]. cbn. rewrite Hlen. reflexivity.
Qed.

Lemma random_rows_returns (n k : nat) (w : world) :
  exists X,
    random_rows random_sample n k w
      = (Ok X, World (heap w) (advance random_sample (n * k) (np_random w))) /\
    has_shape n k X.
Proof.
  revert w. induction n as [|n IH]; intros w; cbn [random_rows Nat.mul].
  - exists []. destruct w. split; [reflexivity |]. split; [reflexivity | constructor].
  - rewrite bind_apply.
    destruct (random_row_returns k w) as (row & -> & Hrow).
    destruct (IH (World (heap w) (advance random_sample k (np_random w))))
      as (rest & Hrest & Hlen & Hrows).
    rewrite bind_apply, Hrest. cbn [heap np_random].
    rewrite advance_add.
    eexists. split; [reflexivity |]. split; [cbn; rewrite Hlen; reflexivity |].
    constructor; assumption.
Qed.

Lemma np_random_random_returned (n : Z) (w w1 : world) (X : matrix) :
  np_random_random random_sample n w = (Ok X, w1) ->
  0 <= n /\ has_shape (Z.to_nat n) (Z.to_nat n) X /\
  w1 = World (heap w) (advance random_sample (Z.to_nat n * Z.to_nat n) (np_random w)).
Proof.
  unfold np_random_random. destruct (n <? 0) eqn:Hn; [discriminate |].
  apply Z.ltb_ge in Hn.
  destruct (random_rows_returns (Z.to_nat n) (Z.to_nat n) w) as (X' & -> & Hshape).
  intros Heq. injection Heq as <- <-. auto.
Qed.

(** The loop of lines 41-42 divides every row by its own sum: normalising
    one row leaves the others as they are. *)
Lemma normalize_rows (C : matrix) :
  rfor (range 0 (Z.of_nat (length C))) (fun i Tij => normalize_row np_sum Tij i) C
  = Ok (rows_normalized np_sum C).
Proof.
  destruct (rfor_range_invariant
              (fun k Tij => Tij = rows_normalized np_sum (take (Z.to_nat k) C)
                                   ++ drop (Z.to_nat k) C)
              (fun i Tij => normalize_row np_sum Tij i) 0 (Z.of_nat (length C)) C)
    as (T & Hrun & HT).
  - lia.
  - reflexivity.
  - intros k Tij Hk ->.
    assert (exists i : nat, k = Z.of_nat i) as [i ->] by (exists (Z.to_nat k); lia).
    rewrite Nat2Z.id. replace (Z.to_nat (Z.of_nat i + 1)) with (S i) by lia.
    destruct (lookup_lt_is_Some_2 C i ltac:(lia)) as [row Hrow].
    assert (length (rows_normalized np_sum (take i C)) = i) as Hlen.
    { unfold rows_normalized. rewrite length_map, length_take. lia. }
    unfold normalize_row.
    rewrite (getitem_nat _ i row).
    2:{ rewrite lookup_app_r by lia. rewrite Hlen, Nat.sub_diag.
        rewrite lookup_drop, Nat.add_0_r. exact Hrow. }
    cbn [rbind]. rewrite setitem_nat.
    2:{ rewrite length_app, Hlen, length_drop. lia. }
    eexists. split; [reflexivity |].
    rewrite insert_app_r_alt by lia. rewrite Hlen, Nat.sub_diag.
    rewrite (drop_S C row i) by exact Hrow. cbn [insert list_insert].
    rewrite (take_S_r C i row) by exact Hrow.
    unfold rows_normalized. rewrite map_app. cbn [map].
    rewrite <- app_assoc. reflexivity.
  - rewrite Hrun, HT. rewrite Nat2Z.id, take_ge, drop_ge by lia.
    rewrite app_nil_r. reflexivity.
Qed.

Lemma np_T_lookup (n : nat) (X : matrix) (i : nat) :
  length X = n -> (i < n)%nat ->
  np_T X !! i = Some (map (fun row => default 0%float (row !! i)) X).
Proof.
  intros Hlen Hi. unfold np_T. rewrite list_lookup_fmap.
  rewrite lookup_seq_lt by lia. reflexivity.
Qed.

Lemma symmetric_part_entry (n : nat) (X : matrix) (i j : nat) :
  has_shape n n X -> (i < n)%nat -> (j < n)%nat ->
  exists x y,
    entry X i j = Some x /\ entry X j i = Some y /\
    entry (symmetric_part X) i j = Some ((x + y) / 2)%float.
Proof.
  intros Hshape Hi Hj.
  destruct (has_shape_lookup n n X i Hshape Hi) as (row_i & Hrow_i & Hlen_i).
  destruct (has_shape_lookup n n X j Hshape Hj) as (row_j & Hrow_j & Hlen_j).
  destruct (lookup_lt_is_Some_2 row_i j ltac:(lia)) as [x Hx].
  destruct (lookup_lt_is_Some_2 row_j i ltac:(lia)) as [y Hy].
  exists x, y. unfold entry. rewrite Hrow_i, Hrow_j. cbn. rewrite Hx, Hy.
  split; [reflexivity |]. split; [reflexivity |].
  unfold symmetric_part. rewrite lookup_zip_with, Hrow_i. cbn.
  rewrite (np_T_lookup n) by (destruct Hshape; assumption). cbn.
  rewrite lookup_zip_with, Hx. cbn.
  rewrite list_lookup_fmap, Hrow_j. cbn. rewrite Hy. reflexivity.
Qed.

Lemma symmetric_part_shape (n : nat) (X : matrix) :
  has_shape n n X -> has_shape n n (symmetric_part X).
Proof.
  intros [Hlen Hrows]. unfold symmetric_part. split.
  - rewrite length_zip_with. unfold np_T. rewrite length_map, length_seq. lia.
  - apply Forall_lookup. intros i row Hrow.
    rewrite lookup_zip_with in Hrow.
    destruct (X !! i) as [row_i|] eqn:Hrow_i; [| discriminate]. cbn in Hrow.
    assert (i < n)%nat as Hi by (apply lookup_lt_Some in Hrow_i; lia).
    rewrite (np_T_lookup n) in Hrow by assumption. cbn in Hrow.
    injection Hrow as <-. rewrite length_zip_with, length_map.
    rewrite (proj1 (Forall_lookup _ _) Hrows i row_i Hrow_i). lia.
Qed.

Lemma symmetric_part_symmetric (n : nat) (X : matrix) :
  has_shape n n X -> symmetric (symmetric_part X).
Proof.
  intros Hshape i j.
  destruct (decide (i < n)%nat) as [Hi|Hi], (decide (j < n)%nat) as [Hj|Hj].
  - destruct (symmetric_part_entry n X i j Hshape Hi Hj) as (x & y & Hx & Hy & ->).
    destruct (symmetric_part_entry n X j i Hshape Hj Hi) as (y' & x' & Hy' & Hx' & ->).
    rewrite Hx in Hx'. rewrite Hy in Hy'. injection Hx' as <-. injection Hy' as <-.
    rewrite float_add_comm. reflexivity.
  - destruct (symmetric_part_shape n X Hshape) as [Hlen Hrows].
    unfold entry.
    destruct (has_shape_lookup n n _ i (conj Hlen Hrows) Hi) as (row & -> & Hrow).
    cbn. rewrite (lookup_ge_None_2 row j) by lia.
    rewrite (lookup_ge_None_2 _ j) by lia. reflexivity.
  - destruct (symmetric_part_shape n X Hshape) as [Hlen Hrows].
    unfold entry.
    destruct (has_shape_lookup n n _ j (conj Hlen Hrows) Hj) as (row & -> & Hrow).
    cbn. rewrite (lookup_ge_None_2 row i) by lia.
    rewrite (lookup_ge_None_2 _ i) by lia. reflexivity.
  - unfold entry. rewrite !(lookup_ge_None_2 (symmetric_part X)); [reflexivity | |];
      destruct (symmetric_part_shape n X Hshape) as [Hlen _]; lia.
Qed.

Lemma rows_normalized_shape (n T : nat) (C : matrix) :
  has_shape n T C -> has_shape n T (rows_normalized np_sum C).
Proof.
  intros [Hlen Hrows]. unfold rows_normalized. split; [rewrite length_map; exact Hlen |].
  apply Forall_map. eapply Forall_impl; [exact Hrows |].
  cbn. intros row Hrow. rewrite length_map. exact Hrow.
Qed.

Lemma generate_transition_matrix_returned (nstates : Z) (reversible : bool)
  (w w1 : world) (X : matrix) :
  np_random_random random_sample nstates w = (Ok X, w1) ->
  generate_transition_matrix random_sample np_sum nstates reversible w
  = (Ok (rows_normalized np_sum (if reversible then symmetric_part X else X)), w1).
Proof.
  intros HX. unfold generate_transition_matrix. rewrite bind_apply, HX.
  apply np_random_random_returned in HX as (Hn & Hshape & _).
  unfold lift.
  assert (length (if reversible then symmetric_part X else X) = Z.to_nat nstates) as Hlen.
  { destruct reversible; [apply symmetric_part_shape in Hshape |];
      destruct Hshape; assumption. }
  replace nstates with (Z.of_nat (length (if reversible then symmetric_part X else X)))
    at 1 by lia.
  rewrite normalize_rows. reflexivity.
Qed.

Lemma generate_transition_matrix_outcome (nstates : Z) (reversible : bool) (w : world) :
  if nstates <? 0 then
    generate_transition_matrix random_sample np_sum nstates reversible w
    = (Raise ValueError, w)
  else
    exists Tij,
      generate_transition_matrix random_sample np_sum nstates reversible w
      = (Ok Tij,
         World (heap w)
           (advance random_sample (Z.to_nat nstates * Z.to_nat nstates) (np_random w))) /\
      has_shape (Z.to_nat nstates) (Z.to_nat nstates) Tij.
Proof.
  destruct (nstates <? 0) eqn:Hn.
  - unfold generate_transition_matrix, np_random_random. rewrite bind_apply, Hn.
    reflexivity.
  - destruct (random_rows_returns (Z.to_nat nstates) (Z.to_nat nstates) w)
      as (X & HX & Hshape).
    assert (np_random_random random_sample nstates w
            = (Ok X, World (heap w)
                       (advance random_sample (Z.to_nat nstates * Z.to_nat nstates)
                          (np_random w)))) as Hdraw.
    { unfold np_random_random. rewrite Hn. exact HX. }
    eexists. split.
    + apply generate_transition_matrix_returned. exact Hdraw.
    + apply rows_normalized_shape.
      destruct reversible; [apply symmetric_part_shape |]; exact Hshape.
Qed.

End TestSystemsFacts.

Section TestSystemsClaims.
Context {externals : Externals}.

Variable random_sample : RandomState -> float * RandomState.
Variable standard_normal : RandomState -> float * RandomState.
Variable np_sum : list float -> float.
Variable HMM_init : Z -> matrix -> list State.t -> M loc.

(** X15: [generate_transition_matrix] raises [ValueError] for a negative
    number of states, before any draw; otherwise it returns: the matrix has
    [nstates] rows and columns, [nstates * nstates] uniform variates have
    been drawn, and the store is untouched. *)
Theorem generate_transition_matrix_is_square (nstates : Z) (reversible : bool)
  (w : world) :
  if nstates <? 0 then
    generate_transition_matrix random_sample np_sum nstates reversible w
    = (Raise ValueError, w)
  else
    exists Tij,
      generate_transition_matrix random_sample np_sum nstates reversible w
      = (Ok Tij,
         World (heap w)
           (advance random_sample (Z.to_nat nstates * Z.to_nat nstates) (np_random w))) /\
      has_shape (Z.to_nat nstates) (Z.to_nat nstates) Tij.
Proof. apply generate_transition_matrix_outcome. Qed.

(** X16: the in-place loop over the rows divides each row of [Cij] by the
    sum that row had before: the result is [X], or its symmetric part when
    [reversible] is true, with every row normalised on its own. *)
Theorem generate_transition_matrix_normalizes_rows (nstates : Z) (reversible : bool)
  (w w1 : world) (X : matrix) :
  np_random_random random_sample nstates w = (Ok X, w1) ->
  generate_transition_matrix random_sample np_sum nstates reversible w
  = (Ok (rows_normalized np_sum (if reversible then symmetric_part X else X)), w1).
Proof. apply generate_transition_matrix_returned. Qed.

(** X17: with [reversible=True] the matrix returned is a symmetric matrix
    with its rows normalised: [T[i,j] = C[i,j] / sum(C[i,:])] with
    [C[i,j] = C[j,i]], exactly, in floating point. *)
Theorem reversible_matrix_has_symmetric_weights (nstates : Z) (w w1 : world)
  (Tij : matrix) :
  generate_transition_matrix random_sample np_sum nstates true w = (Ok Tij, w1) ->
  exists C,
    has_shape (Z.to_nat nstates) (Z.to_nat nstates) C /\
    symmetric C /\
    Tij = rows_normalized np_sum C.
Proof.
  intros Hrun.
  destruct (np_random_random random_sample nstates w) as [[e|X] w0] eqn:HX.
  { unfold generate_transition_matrix in Hrun. rewrite bind_apply, HX in Hrun.
    discriminate. }
  rewrite (generate_transition_matrix_returned random_sample np_sum nstates true w w0 X HX)
    in Hrun.
  injection Hrun as <- _.
  apply np_random_random_returned in HX as (_ & Hshape & _).
  exists (symmetric_part X). split; [apply symmetric_part_shape; exact Hshape |].
  split; [eapply symmetric_part_symmetric; exact Hshape | reflexivity].
Qed.

Lemma random_states_returns (xs : list Z) (acc : list State.t) (w : world) :
  exists states g,
    mfor xs
      (fun index states =>
         mu <- variate standard_normal ;;
         sigma <- variate random_sample ;;
         ret (states ++ [State.mk mu sigma]))
      acc w
    = (Ok (acc ++ states), World (heap w) g) /\
    length states = length xs.
Proof.
  revert acc w. induction xs as [|x xs IH]; intros acc w.
  - exists [], (np_random w). rewrite app_nil_r. destruct w. split; reflexivity.
  - rewrite mfor_cons, bind_apply, bind_apply, variate_returns.
    rewrite bind_apply, variate_returns. unfold ret at 1. cbn [heap np_random].
    match goal with
    | |- context [mfor xs _ ?acc' ?w'] =>
        destruct (IH acc' w') as (states & g & -> & Hlen)
    end.
    cbn [heap]. eexists (_ :: states), g. rewrite <- app_assoc.
    split; [reflexivity |]. cbn. rewrite Hlen. reflexivity.
Qed.

(** X18: [generate_random_model] raises [ValueError] for a negative number
    of states; otherwise it reaches the constructor of the model class with a
    matrix of [nstates] rows and columns and a list of [nstates] emission
    states, and has written nothing in the store before. *)
Theorem generate_random_model_reaches_the_constructor (nstates : Z)
  (reversible : bool) (w : world) :
  if nstates <? 0 then
    generate_random_model random_sample standard_normal np_sum HMM_init
      nstates reversible w
    = (Raise ValueError, w)
  else
    exists Tij states g,
      has_shape (Z.to_nat nstates) (Z.to_nat nstates) Tij /\
      length states = Z.to_nat nstates /\
      generate_random_model random_sample standard_normal np_sum HMM_init
        nstates reversible w
      = HMM_init nstates Tij states (World (heap w) g).
Proof.
  pose proof (generate_transition_matrix_outcome random_sample np_sum nstates
                reversible w) as Hmatrix.
  unfold generate_random_model. rewrite bind_apply.
  destruct (nstates <? 0).
  - rewrite Hmatrix. reflexivity.
  - destruct Hmatrix as (Tij & -> & Hshape).
    rewrite bind_apply.
    match goal with
    | |- context [mfor ?xs _ [] ?w'] =>
        destruct (random_states_returns xs [] w') as (states & g & -> & Hlen)
    end.
    cbn [heap app]. exists Tij, states, g.
    split; [exact Hshape |]. split; [| reflexivity].
    rewrite Hlen. unfold range. rewrite length_map, length_seq. lia.
Qed.

(** X19: [three_state_model] never raises before the constructor of the
    model class: it hands it the three states with means -1, 0 and 1 and the
    given width, and a matrix of three rows and columns that is a symmetric
    matrix with its rows normalised, drawn with nine uniform variates. *)
Theorem three_state_model_reaches_the_constructor (sigma : float) (w : world) :
  exists C,
    has_shape 3 3 C /\ symmetric C /\
    three_state_model random_sample np_sum HMM_init sigma w
    = HMM_init 3 (rows_normalized np_sum C)
        [State.mk (-1) sigma; State.mk 0 sigma; State.mk 1 sigma]
        (World (heap w) (advance random_sample 9 (np_random w))).
Proof.
  destruct (random_rows_returns random_sample 3 3 w) as (X & HX & Hshape).
  assert (np_random_random random_sample 3 w
          = (Ok X, World (heap w) (advance random_sample 9 (np_random w)))) as Hdraw
    by exact HX.
  exists (symmetric_part X).
  split; [apply symmetric_part_shape; exact Hshape |].
  split; [eapply symmetric_part_symmetric; exact Hshape |].
  unfold three_state_model. rewrite bind_apply.
  rewrite (generate_transition_matrix_returned random_sample np_sum 3 true w _ X Hdraw).
  reflexivity.
Qed.

End TestSystemsClaims.

(** ** The further properties on concrete runs *)

Module MoreRuns.

Import Reference Demo Cases.

Lemma world0_holds_hmm0 : heap world0 !! model bhmm0 = Some (HMMObj hmm0).
Proof. reflexivity. Qed.

(** The trajectory sampled for the first observation sequence. *)
Lemma sampled_trajectory_is_valid_witness :
  valid_trajectory 2 4 [0; 0; 1; 1] /\ (0 < 4)%nat.
Proof.
  apply (sampled_trajectory_is_valid (externals := externals) reference_choice_in_range bhmm0 obs0 world0
           (snd (_sampleHiddenStateTrajectory bhmm0 obs0 world0)) hmm0 [0; 0; 1; 1]).
  - exact world0_holds_hmm0.
  - reflexivity.
  - apply run_returned. vm_compute. reflexivity.
Defined.

(** The empty sequence. *)
Lemma empty_sequence_witness :
  _sampleHiddenStateTrajectory bhmm0 [] world0 = (Raise IndexError, world0).
Proof.
  apply (empty_sequence_raises_IndexError bhmm0 world0 hmm0).
  - exact world0_holds_hmm0.
  - cbn. lia.
Defined.

(** The hidden state update on the two sequences of [bhmm0]. *)
Lemma hidden_state_update_witness :
  trajectories_for bhmm0 2 (snd (_updateHiddenStateTrajectories bhmm0 world0)).
Proof.
  apply (hidden_state_update_completes_trajectories (externals := externals)
           reference_choice_in_range
           bhmm0 world0 (snd (_updateHiddenStateTrajectories bhmm0 world0)) hmm0).
  - exact world0_holds_hmm0.
  - reflexivity.
  - apply run_returned. vm_compute. reflexivity.
Defined.

(** One sweep. *)
Lemma sweep_completes_trajectories_witness :
  trajectories_for bhmm0 2 (snd (_update bhmm0 world0)) /\
  forall m' l, heap (snd (_update bhmm0 world0)) !! model bhmm0 = Some (HMMObj m') ->
               HMM.hidden_state_trajectories m' = Some l -> l ∉ dom (heap world0).
Proof.
  apply (sweep_completes_trajectories (externals := externals) reference_choice_in_range
           bhmm0 world0 (snd (_update bhmm0 world0)) hmm0).
  - exact world0_holds_hmm0.
  - reflexivity.
  - apply run_returned. vm_compute. reflexivity.
Defined.

(** The second sequence of [bhmm_gap] is empty: the update raises there, with
    the trajectory of the first sequence in the new list. *)
Lemma hidden_state_update_failure_witness :
  exists l ts,
    (l ∉ dom (heap world0)) /\
    heap (snd (_updateHiddenStateTrajectories bhmm_gap world0)) !! model bhmm_gap
      = Some (HMMObj (set_hidden_state_trajectories (Some l) hmm0)) /\
    heap (snd (_updateHiddenStateTrajectories bhmm_gap world0)) !! l
      = Some (ListObj ts) /\
    (length ts < 3)%nat /\
    forall x, x ∈ dom (heap world0) -> x <> model bhmm_gap ->
              heap (snd (_updateHiddenStateTrajectories bhmm_gap world0)) !! x
              = heap world0 !! x.
Proof.
  apply (hidden_state_update_failure_is_partial bhmm_gap world0 hmm0 IndexError).
  - reflexivity.
  - vm_compute. reflexivity.
Defined.

Lemma sweep_writes_witness :
  writes_only {[model bhmm0; HMM.output_model hmm0]} world0 (snd (_update bhmm0 world0)).
Proof.
  apply (sweep_writes_model_and_output_model_only bhmm0 world0 hmm0).
  exact world0_holds_hmm0.
Defined.

(** The snapshot of a run with the flag false. *)
Lemma snapshots_hold_trajectories_witness :
  exists m' theta ts,
    contents (snd (sample bhmm0 1 0 1 false world0)) 6%positive
      = Some (m', theta, Some ts) /\
    length ts = 2%nat /\
    (false = false -> HMM.hidden_state_trajectory m' = BoundNone).
Proof.
  apply (snapshots_hold_trajectories_whatever_the_flag bhmm0 1 0 1 false world0
           [6%positive] 6%positive).
  - lia.
  - vm_compute. reflexivity.
  - apply list_elem_of_singleton. reflexivity.
Defined.

(** Two snapshots without a sweep, from the sampler with the non-reversible
    prior. *)
Lemma sample_without_sweeps_witness :
  np_random (snd (sample bhmm_non_reversible 2 0 0 false world0)) = np_random world0 /\
  extends world0 (snd (sample bhmm_non_reversible 2 0 0 false world0)) /\
  length [4%positive; 6%positive] = Z.to_nat 2 /\
  forall l, l ∈ [4%positive; 6%positive] ->
    exists m theta ts m',
      contents world0 (model bhmm_non_reversible) = Some (m, theta, ts) /\
      contents (snd (sample bhmm_non_reversible 2 0 0 false world0)) l
        = Some (m', theta, ts) /\
      same_values m m'.
Proof.
  apply (sample_without_sweeps_copies_the_model bhmm_non_reversible 2 0 0 false world0
           [4%positive; 6%positive]).
  - lia.
  - lia.
  - vm_compute. reflexivity.
Defined.

(** Three snapshots of a run with burn-in. *)
Lemma snapshots_share_no_object_witness :
  NoDup [7%positive; 11%positive; 15%positive] /\
  ForallOrdPairs
    (fun l1 l2 =>
       objects_of (snd (sample bhmm0 3 1 1 true world0)) l1
       ## objects_of (snd (sample bhmm0 3 1 1 true world0)) l2)
    [7%positive; 11%positive; 15%positive] /\
  forall l, l ∈ [7%positive; 11%positive; 15%positive] ->
    objects_of (snd (sample bhmm0 3 1 1 true world0)) l
    ## live bhmm0 (snd (sample bhmm0 3 1 1 true world0)).
Proof.
  apply (snapshots_share_no_object bhmm0 3 1 1 true world0).
  vm_compute. reflexivity.
Defined.

(** The sampler constructed from the model of [world0]. *)
Lemma constructor_copies_witness :
  (4%positive ∉ dom (heap world0)) /\
  (exists m theta ts m',
     contents world0 1%positive = Some (m, theta, ts) /\
     contents
       (snd (__init__ no_MLHMM (observations bhmm0) 2 (Some 1%positive) true false 10
               "gaussian" world0)) 4%positive
       = Some (m', theta, ts) /\
     same_values m m') /\
  forall w2,
    evolves
      {| verbose := false; reversible := true; nstates := 2;
         observations := observations bhmm0; ntrajectories := 2;
         model := 4%positive; transition_matrix_sampling_steps := 10 |}
      (snd (__init__ no_MLHMM (observations bhmm0) 2 (Some 1%positive) true false 10
              "gaussian" world0)) w2 ->
    contents w2 1%positive = contents world0 1%positive.
Proof.
  apply (constructor_copies_the_initial_model no_MLHMM (observations bhmm0) 2
           1%positive true false 10 "gaussian" world0
           (snd (__init__ no_MLHMM (observations bhmm0) 2 (Some 1%positive) true false
                   10 "gaussian" world0))
           {| verbose := false; reversible := true; nstates := 2;
              observations := observations bhmm0; ntrajectories := 2;
              model := 4%positive; transition_matrix_sampling_steps := 10 |}).
  apply run_returned. vm_compute. reflexivity.
Defined.

Lemma non_reversible_construction_witness :
  exists self,
    __init__ no_MLHMM (observations bhmm0) 2 (Some 1%positive) false false 10
      "gaussian" world0 = (Ok self, snd (deepcopy_HMM 1%positive world0)) /\
    model self = 4%positive /\
    forall (nsamples nburn nthin : Z) (save : bool) (w2 : world),
      0 < nburn \/ (0 < nsamples /\ 0 < nthin) ->
      exists e, fst (sample self nsamples nburn nthin save w2) = Raise e.
Proof.
  apply (non_reversible_prior_is_accepted_at_construction no_MLHMM
           (observations bhmm0) 2 1%positive 4%positive false 10 "gaussian" world0
           (snd (deepcopy_HMM 1%positive world0))).
  - discriminate.
  - apply run_returned. vm_compute. reflexivity.
Defined.

(** A matrix for two states. *)
Lemma normalizes_rows_witness :
  generate_transition_matrix random_sample np_sum 2 false world0
  = (Ok (rows_normalized np_sum
           (match fst (np_random_random random_sample 2 world0) with
            | inr X => X
            | inl _ => []
            end)),
     snd (np_random_random random_sample 2 world0)).
Proof.
  apply (generate_transition_matrix_normalizes_rows (externals := externals) random_sample np_sum 2 false world0
           (snd (np_random_random random_sample 2 world0))
           (match fst (np_random_random random_sample 2 world0) with
            | inr X => X
            | inl _ => []
            end)).
  apply run_returned. vm_compute. reflexivity.
Defined.

Lemma symmetric_weights_witness :
  exists C,
    has_shape 2 2 C /\ symmetric C /\
    match fst (generate_transition_matrix random_sample np_sum 2 true world0) with
    | inr Tij => Tij
    | inl _ => []
    end = rows_normalized np_sum C.
Proof.
  apply (reversible_matrix_has_symmetric_weights (externals := externals) random_sample np_sum 2 world0
           (snd (generate_transition_matrix random_sample np_sum 2 true world0))).
  apply run_returned. vm_compute. reflexivity.
Defined.

End MoreRuns.
